(** * A verification model of the Melaleuca product recommender server

    Shallow embedding of [src/server.js]: the URL classifier, JSON-LD
    normalisation, the ranker, the remote resolution pipeline with its
    time budget and result cache, the local catalog matcher and the
    search endpoint, together with the redirect-following [httpGet].

    Modelling conventions.
    - JavaScript values are [jsval]; JSON numbers are exact rationals
      ([Q]), so IEEE rounding is not modelled (e.g. [0.2 * rating] is
      the exact fifth of the rating, ["6.99"] parses to [699/100]).
      Numbers computed by [Number(..)], [Math.min] and [Math.max] are
      [jsnum], which also has [NaN] and the two infinities.
    - Strings are byte strings; [toLowerCase] and [\s] are taken on
      ASCII (URL path names are percent-encoded, so this is exact there).
    - The WHATWG URL parser and the rendering of numbers as strings are
      runtime services, abstracted in the class [Runtime].
    - [String(v)] is [js_String v] where the conversion succeeds;
      [str_throws v] marks the values on which it throws (an object
      with an own [toString] key, or an array holding one), and the
      throwing variants of the functions below carry that [TypeError].
    - Network access is the class [Network]: each [httpGet] of a URL
      settles with a body or a failure after a latency, and is logged
      as one request; the redirects followed inside one call are the
      subject of the section on [httpGet] redirects. *)

From Stdlib Require Import QArith ZArith Ascii String List Bool Lia Lqa.
From Stdlib Require Import Sorting.Permutation Sorting.Sorted.
From Stdlib Require QArith.Qcanon.
From stdpp Require Import base gmap strings.

Import ListNotations.
Set Warnings "-register-all".
Local Open Scope bool_scope.

(* ================================================================== *)
(** ** Strings *)

Module Str.

Definition lower_ascii (c : ascii) : ascii :=
  let n := nat_of_ascii c in
  if (65 <=? n)%nat && (n <=? 90)%nat then ascii_of_nat (n + 32) else c.

(** [String.prototype.toLowerCase] on ASCII. *)
Fixpoint to_lower (s : string) : string :=
  match s with
  | EmptyString => EmptyString
  | String c r => String (lower_ascii c) (to_lower r)
  end.

Definition is_digit (c : ascii) : bool :=
  let n := nat_of_ascii c in (48 <=? n)%nat && (n <=? 57)%nat.

Definition is_lower_alnum (c : ascii) : bool :=
  let n := nat_of_ascii c in
  is_digit c || ((97 <=? n)%nat && (n <=? 122)%nat).

(** JavaScript [\s] restricted to ASCII: space, \t, \n, \v, \f, \r. *)
Definition is_space (c : ascii) : bool :=
  let n := nat_of_ascii c in (n =? 32)%nat || ((9 <=? n)%nat && (n <=? 13)%nat).

Fixpoint starts_with (p s : string) : bool :=
  match p, s with
  | EmptyString, _ => true
  | String a p', String b s' => Ascii.eqb a b && starts_with p' s'
  | _, _ => false
  end.

(** [s.includes(sub)]. *)
Fixpoint includes (s sub : string) : bool :=
  starts_with sub s ||
  match s with
  | EmptyString => false
  | String _ r => includes r sub
  end.

(** [/\d/.test(s)]. *)
Fixpoint has_digit (s : string) : bool :=
  match s with
  | EmptyString => false
  | String c r => is_digit c || has_digit r
  end.

(** [s.split(sep)] for a one-character separator. *)
Fixpoint split_on (sep : ascii) (s : string) : list string :=
  match s with
  | EmptyString => [EmptyString]
  | String c r =>
      if Ascii.eqb c sep then EmptyString :: split_on sep r
      else match split_on sep r with
           | w :: ws => String c w :: ws
           | [] => [String c EmptyString]
           end
  end.

(** [.filter(Boolean)] on a list of strings. *)
Definition non_empty (s : string) : bool :=
  match s with EmptyString => false | _ => true end.

(** [s.split(/[^a-z0-9]+/)]: maximal runs of non-[a-z0-9] bytes are
    separators (consecutive separators give no empty pieces between
    them, but a leading or trailing run gives an empty first or last
    piece; [.filter(Boolean)] removes those anyway). *)
Fixpoint split_alnum_aux (s : string) (cur : string) (in_sep : bool) : list string :=
  match s with
  | EmptyString => [cur]
  | String c r =>
      if is_lower_alnum c then split_alnum_aux r (cur +:+ String c EmptyString) false
      else if in_sep then split_alnum_aux r cur true
      else cur :: split_alnum_aux r EmptyString true
  end.

Definition split_alnum (s : string) : list string := split_alnum_aux s EmptyString false.

(** [list.indexOf(x)]. *)
Fixpoint index_of (x : string) (l : list string) : option nat :=
  match l with
  | [] => None
  | y :: r => if String.eqb x y then Some 0%nat
              else option_map S (index_of x r)
  end.

Definition mem (x : string) (l : list string) : bool := existsb (String.eqb x) l.

(** [s.trim()] on ASCII white space. *)
Fixpoint trim_left (s : string) : string :=
  match s with
  | String c r => if is_space c then trim_left r else s
  | EmptyString => EmptyString
  end.

Definition rev_str (s : string) : string :=
  String.string_of_list_ascii (rev (String.list_ascii_of_string s)).

Definition trim (s : string) : string := rev_str (trim_left (rev_str (trim_left s))).

(** [s.replace(pat, rep)] with a string pattern: the first occurrence
    only (the replacement never contains [$] here: it is percent-encoded). *)
Fixpoint replace_first (pat rep s : string) : string :=
  if starts_with pat s then rep +:+ substring (String.length pat) (String.length s) s
  else match s with
       | EmptyString => EmptyString
       | String c r => String c (replace_first pat rep r)
       end.

Definition hex_digit (n : nat) : ascii :=
  if (n <? 10)%nat then ascii_of_nat (48 + n) else ascii_of_nat (55 + n).

(** [encodeURIComponent] on the UTF-8 bytes of the string. *)
Definition uri_unreserved (c : ascii) : bool :=
  let n := nat_of_ascii c in
  is_lower_alnum c || ((65 <=? n)%nat && (n <=? 90)%nat) ||
  mem (String c EmptyString) ["-"; "_"; "."; "!"; "~"; "*"; "'"; "("; ")"].

Fixpoint encode_uri_component (s : string) : string :=
  match s with
  | EmptyString => EmptyString
  | String c r =>
      if uri_unreserved c then String c (encode_uri_component r)
      else let n := nat_of_ascii c in
           String "%" (String (hex_digit (n / 16)) (String (hex_digit (n mod 16))
             (encode_uri_component r)))
  end.

End Str.

(* ================================================================== *)
(** ** JavaScript values *)

Inductive jsval : Type :=
  | JUndef
  | JNull
  | JBool (b : bool)
  | JNum (q : Q)
  | JStr (s : string)
  | JArr (l : list jsval)
  | JObj (fields : list (string * jsval)).

(** Numbers produced by [Number], [Math.min], [Math.max]. *)
Inductive jsnum : Type :=
  | Fin (q : Q)
  | NaN
  | PInf
  | NInf.

Record url_rec := { url_href : string; url_pathname : string }.

(** Runtime services the server relies on and that are not modelled
    here: [new URL(input, base)] (failure when it throws) and the
    rendering of a finite number by [String(x)]. *)
Class Runtime := {
  url_parse : string -> string -> option url_rec;
  num_to_string : Q -> string;
}.

Fixpoint assoc (k : string) (fs : list (string * jsval)) : option jsval :=
  match fs with
  | [] => None
  | (k', v) :: r => if String.eqb k k' then Some v else assoc k r
  end.

(** Property read [v.k]; the objects of this program are JSON objects
    and object literals, so only own properties matter. *)
Definition get (v : jsval) (k : string) : jsval :=
  match v with
  | JObj fs => match assoc k fs with Some x => x | None => JUndef end
  | _ => JUndef
  end.

Definition truthy (v : jsval) : bool :=
  match v with
  | JUndef | JNull => false
  | JBool b => b
  | JNum q => negb (Qeq_bool q 0)
  | JStr s => Str.non_empty s
  | JArr _ | JObj _ => true
  end.

(** [a || b]. *)
Definition js_or (a b : jsval) : jsval := if truthy a then a else b.

Section Conversions.
Context `{RT : Runtime}.

(** [String(v)], for a value whose conversion does not throw (see
    [str_throws]). *)
Fixpoint js_String (v : jsval) : string :=
  match v with
  | JUndef => "undefined"
  | JNull => "null"
  | JBool true => "true"
  | JBool false => "false"
  | JNum q => num_to_string q
  | JStr s => s
  | JArr l =>
      (fix go (l : list jsval) : string :=
         match l with
         | [] => EmptyString
         | x :: r =>
             let sx := match x with JUndef | JNull => EmptyString | _ => js_String x end in
             match r with
             | [] => sx
             | _ => sx +:+ "," +:+ go r
             end
         end) l
  | JObj _ => "[object Object]"
  end.

End Conversions.

(** Whether [String(v)] throws a [TypeError]: an object with an own
    [toString] key (a parsed JSON value, hence never callable; [valueOf]
    returns the object itself, so no primitive is found), or an array
    with such an element ([join] converts each element). *)
Fixpoint str_throws (v : jsval) : bool :=
  match v with
  | JArr l => existsb str_throws l
  | JObj fs => match assoc "toString" fs with Some _ => true | None => false end
  | _ => false
  end.

(* ================================================================== *)
(** ** URL classifier: [STOPWORDS] and [isLikelyProductDetailUrl] *)

Definition STOPWORDS : list string :=
  ["r3"; "supplements"; "cleaning-and-laundry"; "all-cleaning-and-laundry";
   "personal-care"; "home-care"; "home-cleaning"; "laundry"; "skincare";
   "skin-care"; "nutrition"; "pharmacy"; "beauty"; "bath-and-body"; "home";
   "shop-all"; "shop"; "categories"; "gifts"; "clearance"; "new-products";
   "product-store"; "productstore";
   "healthy-foods-and-drinks"; "color-cosmetics"; "acne-prevention";
   "premium-skin-care"; "hand-soap-sanitizers"; "healthy-weight-protein";
   "healthy-snacks"; "baking-mixes"; "outlet-store"; "extra-savings";
   "beauty-specials"; "now-trending-seasonal-colors"].

Definition is_stopword (seg : string) : bool := Str.mem seg STOPWORDS.

(** [/(product|detail|item|showdetails)/i.test(seg)]. *)
Definition has_detail_keyword (seg : string) : bool :=
  let s := Str.to_lower seg in
  Str.includes s "product" || Str.includes s "detail" ||
  Str.includes s "item" || Str.includes s "showdetails".

Definition MELALEUCA_ORIGIN : string := "https://www.melaleuca.com".

(** [url.pathname.toLowerCase().split('/').filter(Boolean)]. *)
Definition path_parts (pathname : string) : list string :=
  List.filter Str.non_empty (Str.split_on "/" (Str.to_lower pathname)).

Section Classifier.
Context `{RT : Runtime}.

(** [new URL(u, ...)] converts [u] with [String]; a throw there is
    caught by the [try] and answers [false]. *)
Definition isLikelyProductDetailUrl (u : jsval) : bool :=
  if negb (truthy u) || str_throws u then false else
  match url_parse (js_String u) MELALEUCA_ORIGIN with
  | None => false
  | Some url =>
      let parts := path_parts (url_pathname url) in
      match Str.index_of "productstore" parts with
      | None => false
      | Some idx =>
          let rest := skipn (S idx) parts in
          if (length rest <? 2)%nat then false
          else if forallb is_stopword rest then false
          else if existsb has_detail_keyword rest then true
          else if (3 <=? length rest)%nat then true
          else existsb Str.has_digit rest
      end
  end.

End Classifier.

(** The residual segments inspected by the classifier: the lowercased,
    non-empty path segments after the first [productstore] marker, or
    [None] when the URL is falsy, does not convert to a string, does not
    parse or has no marker. *)
Definition residual_segments `{RT : Runtime} (u : jsval) : option (list string) :=
  if negb (truthy u) || str_throws u then None else
  match url_parse (js_String u) MELALEUCA_ORIGIN with
  | None => None
  | Some url =>
      let parts := path_parts (url_pathname url) in
      match Str.index_of "productstore" parts with
      | None => None
      | Some idx => Some (skipn (S idx) parts)
      end
  end.

(** The decision procedure over the residual segments as the
    specification words it (rule precedence: shallow, stop-terms,
    keyword, depth, digit). *)
Definition spec_detail_decision (rest : list string) : bool :=
  if (length rest <? 2)%nat then false
  else if forallb is_stopword rest then false
  else if existsb has_detail_keyword rest then true
  else if (3 <=? length rest)%nat then true
  else existsb Str.has_digit rest.

(* ================================================================== *)
(** ** Structured data: [toArray], [parsePrice], [normalizeProductFromJSONLD] *)

Definition toArray (v : jsval) : list jsval :=
  match v with
  | JArr l => l
  | JUndef | JNull => []
  | _ => [v]
  end.

(** [v == null]. *)
Definition is_nullish (v : jsval) : bool :=
  match v with JUndef | JNull => true | _ => false end.

Module Price.

(** [x.replace(/[,\s]/g, '')]. *)
Fixpoint strip_commas_spaces (s : string) : string :=
  match s with
  | EmptyString => EmptyString
  | String c r =>
      if Ascii.eqb c "," || Str.is_space c then strip_commas_spaces r
      else String c (strip_commas_spaces r)
  end.

(** Greedy run of leading digits: the run and the rest. *)
Fixpoint take_digits (s : string) : string * string :=
  match s with
  | String c r =>
      if Str.is_digit c then let (d, rest) := take_digits r in (String c d, rest)
      else (EmptyString, s)
  | EmptyString => (EmptyString, EmptyString)
  end.

(** The first match of [/([0-9]+(?:\.[0-9]+)?)/]: integer digits and
    fraction digits (possibly empty). *)
Fixpoint first_number (s : string) : option (string * string) :=
  match s with
  | EmptyString => None
  | String c r =>
      if Str.is_digit c then
        let (d1, rest) := take_digits s in
        match rest with
        | String dot r' =>
            if Ascii.eqb dot "." then
              match take_digits r' with
              | (EmptyString, _) => Some (d1, EmptyString)
              | (d2, _) => Some (d1, d2)
              end
            else Some (d1, EmptyString)
        | EmptyString => Some (d1, EmptyString)
        end
      else first_number r
  end.

Fixpoint digits_Z (acc : Z) (s : string) : Z :=
  match s with
  | EmptyString => acc
  | String c r => digits_Z (10 * acc + Z.of_nat (nat_of_ascii c - 48)) r
  end.

(** [Number(d1 + "." + d2)], exactly. *)
Definition decimal_value (d1 d2 : string) : Q :=
  Qmake (digits_Z (digits_Z 0 d1) d2) (Pos.of_nat (10 ^ String.length d2)).

End Price.

(** [parsePrice]: [None] is [NaN]. *)
Definition parsePrice (x : jsval) : option Q :=
  match x with
  | JNum q => Some q
  | JStr s =>
      match Price.first_number (Price.strip_commas_spaces s) with
      | Some (d1, d2) => Some (Price.decimal_value d1 d2)
      | None => None
      end
  | _ => None
  end.

(** The [for (const o of offersArr)] loop: [Some p] when it breaks with
    [price = p], [None] when it runs out (price stays [undefined]). *)
Fixpoint offers_loop (os : list jsval) : option (option Q) :=
  match os with
  | [] => None
  | o :: r =>
      if truthy o && truthy (get o "price") then Some (parsePrice (get o "price"))
      else if truthy o && truthy (get o "priceSpecification")
              && truthy (get (get o "priceSpecification") "price")
      then Some (parsePrice (get (get o "priceSpecification") "price"))
      else offers_loop r
  end.

(** The [price] binding after the offers scan; [None] stands for both
    [undefined] and [NaN] (neither is finite, so both later read as 0). *)
Definition jsonld_price (node : jsval) : option Q :=
  let offers := get node "offers" in
  if truthy offers then
    match offers_loop (toArray offers) with
    | Some p => p
    | None => None
    end
  else None.

(** [Number.isFinite(price) && price > 0]. *)
Definition positive_price (p : option Q) : bool :=
  match p with Some q => negb (Qle_bool q 0) | None => false end.

(** [Number.isFinite(price) ? price : 0]. *)
Definition price_or_zero (p : option Q) : Q :=
  match p with Some q => q | None => 0 end.

(** A JS object literal. *)
Definition obj (fs : list (string * jsval)) : jsval := JObj fs.

Section Normalize.
Context `{RT : Runtime}.

(** [toArray(node['@type']).map(String)]. *)
Definition jsonld_types (node : jsval) : list string :=
  map js_String (toArray (get node "@type")).

(** [let url = node.url || ''; try { if (url) url = new URL(url, baseUrl).toString(); } catch {}];
    [new URL] converts [url] with [String], and a throw there is caught. *)
Definition jsonld_url (node : jsval) (baseUrl : string) : jsval :=
  let url := js_or (get node "url") (JStr "") in
  if truthy url && negb (str_throws url) then
    match url_parse (js_String url) baseUrl with
    | Some r => JStr (url_href r)
    | None => url
    end
  else url.

Definition normalizeProductFromJSONLD (node : jsval) (baseUrl : string) : option jsval :=
  if negb (truthy node) || (is_nullish (get node "@type") && is_nullish (get node "@graph"))
  then None else
  if negb (Str.mem "Product" (jsonld_types node)) then None else
  let name := js_or (get node "name") (JStr "") in
  let price := jsonld_price node in
  let category := js_or (get node "category") (JStr "") in
  let description := js_or (get node "description") (JStr "") in
  let url := jsonld_url node baseUrl in
  let image := match get node "image" with
               | JArr l => nth 0 l JUndef
               | v => v
               end in
  if negb (truthy name) then None else
  let likely := isLikelyProductDetailUrl url in
  if negb likely && negb (positive_price price) then None else
  Some (obj [("name", name);
             ("price", JNum (price_or_zero price));
             ("category", JStr (js_String (js_or category (JStr ""))));
             ("description", JStr (js_String (js_or description (JStr ""))));
             ("url", url);
             ("image", image);
             ("tags", JArr [])]).

(** The function with its [TypeError]s: [None] when it throws, at
    [toArray(node['@type']).map(String)] or at [String(category || '')]
    and [String(description || '')] in the returned literal; [Some r]
    when it returns [r] ([None] for [null]). *)
Definition normalizeProductFromJSONLD_exn (node : jsval) (baseUrl : string) : option (option jsval) :=
  if negb (truthy node) || (is_nullish (get node "@type") && is_nullish (get node "@graph"))
  then Some None else
  if existsb str_throws (toArray (get node "@type")) then None else
  if negb (Str.mem "Product" (jsonld_types node)) then Some None else
  let name := js_or (get node "name") (JStr "") in
  let price := jsonld_price node in
  let category := js_or (get node "category") (JStr "") in
  let description := js_or (get node "description") (JStr "") in
  let url := jsonld_url node baseUrl in
  let image := match get node "image" with
               | JArr l => nth 0 l JUndef
               | v => v
               end in
  if negb (truthy name) then Some None else
  let likely := isLikelyProductDetailUrl url in
  if negb likely && negb (positive_price price) then Some None else
  if str_throws (js_or category (JStr "")) || str_throws (js_or description (JStr "")) then None else
  Some (Some (obj [("name", name);
                   ("price", JNum (price_or_zero price));
                   ("category", JStr (js_String (js_or category (JStr ""))));
                   ("description", JStr (js_String (js_or description (JStr ""))));
                   ("url", url);
                   ("image", image);
                   ("tags", JArr [])])).

End Normalize.

(* ================================================================== *)
(** ** [Array.prototype.sort]

    ECMAScript requires a stable sort; for a consistent comparator the
    result is the unique stable ordering, computed here by insertion.
    [after a b] is [comparator(a, b) > 0], i.e. [a] is placed after [b]. *)

Section JsSort.
Context {A : Type} (after : A -> A -> bool).

Fixpoint sort_insert (x : A) (l : list A) : list A :=
  match l with
  | [] => [x]
  | y :: r => if after y x then x :: y :: r else y :: sort_insert x r
  end.

Definition js_sort (l : list A) : list A :=
  fold_left (fun acc x => sort_insert x acc) l [].

End JsSort.

(** The same insertion with a comparator that may throw ([None]): the
    sort throws at the first comparison that does. *)
Section JsSortM.
Context {A : Type} (after : A -> A -> option bool).

Fixpoint sort_insertM (x : A) (l : list A) : option (list A) :=
  match l with
  | [] => Some [x]
  | y :: r =>
      match after y x with
      | None => None
      | Some true => Some (x :: y :: r)
      | Some false => option_map (cons y) (sort_insertM x r)
      end
  end.

Definition js_sortM (l : list A) : option (list A) :=
  fold_left (fun acc x => match acc with Some acc => sort_insertM x acc | None => None end)
            l (Some []).

End JsSortM.

(* ================================================================== *)
(** ** Ranker: [prioritizeProducts] *)

Section Ranker.
Context `{RT : Runtime}.

(** [(isLikelyProductDetailUrl(a.url) ? 1 : 0)]. *)
Definition detail_flag (a : jsval) : Z :=
  if isLikelyProductDetailUrl (get a "url") then 1 else 0.

(** [(typeof a.price === 'number' && a.price > 0) ? 1 : 0]. *)
Definition price_flag (a : jsval) : Z :=
  match get a "price" with
  | JNum q => if Qle_bool q 0 then 0 else 1
  | _ => 0
  end.

(** [String(a.name || '').length]. *)
Definition name_length (a : jsval) : Z :=
  Z.of_nat (String.length (js_String (js_or (get a "name") (JStr "")))).

(** The comparator passed to [sort]. *)
Definition prioritize_cmp (a b : jsval) : Z :=
  let ad := detail_flag a in
  let bd := detail_flag b in
  if negb (ad =? bd)%Z then (bd - ad)%Z else
  let ap := price_flag a in
  let bp := price_flag b in
  if negb (ap =? bp)%Z then (bp - ap)%Z else
  let an := name_length a in
  let bn := name_length b in
  (bn - an)%Z.

(** [items.slice().sort(cmp)] on the array contents. *)
Definition prioritizeProducts (items : list jsval) : list jsval :=
  js_sort (fun a b => (0 <? prioritize_cmp a b)%Z) items.

(** Whether [String(a.name || '')] throws. *)
Definition name_throws (a : jsval) : bool := str_throws (js_or (get a "name") (JStr "")).

(** [String(a.name || '').length], [None] when the conversion throws. *)
Definition name_lengthM (a : jsval) : option Z :=
  if name_throws a then None else Some (name_length a).

(** The comparator with its [TypeError]s: the names are converted, [a]'s
    first, only when both flags tie. *)
Definition prioritize_cmpM (a b : jsval) : option Z :=
  let ad := detail_flag a in
  let bd := detail_flag b in
  if negb (ad =? bd)%Z then Some (bd - ad)%Z else
  let ap := price_flag a in
  let bp := price_flag b in
  if negb (ap =? bp)%Z then Some (bp - ap)%Z else
  match name_lengthM a with
  | None => None
  | Some an => match name_lengthM b with
               | None => None
               | Some bn => Some (bn - an)%Z
               end
  end.

(** [items.slice().sort(cmp)] with the throwing comparator: [None] when
    the sort throws. *)
Definition prioritizeProductsM (items : list jsval) : option (list jsval) :=
  js_sortM (fun a b => option_map (fun c => (0 <? c)%Z) (prioritize_cmpM a b)) items.

(** Equal detail and price flags: the comparator reaches the names. *)
Definition same_flags (a b : jsval) : bool :=
  (detail_flag a =? detail_flag b)%Z && (price_flag a =? price_flag b)%Z.

(** Two items (at distinct positions) with equal flags, one of whose
    names does not convert. *)
Fixpoint ranking_throws (items : list jsval) : bool :=
  match items with
  | [] => false
  | x :: r => existsb (fun y => same_flags x y && (name_throws x || name_throws y)) r
              || ranking_throws r
  end.

(** The ranking key of the specification: detail first, then positive
    price, then longer name; as a triple ordered lexicographically
    ascending, a smaller key ranks first. *)
Definition rank_key (a : jsval) : Z * Z * Z :=
  (- detail_flag a, - price_flag a, - name_length a)%Z.

End Ranker.

Definition lex3_lt (x y : Z * Z * Z) : bool :=
  let '(x1, x2, x3) := x in
  let '(y1, y2, y3) := y in
  (x1 <? y1)%Z || ((x1 =? y1)%Z && ((x2 <? y2)%Z || ((x2 =? y2)%Z && (x3 <? y3)%Z))).

Definition lex3_eqb (x y : Z * Z * Z) : bool :=
  let '(x1, x2, x3) := x in
  let '(y1, y2, y3) := y in
  (x1 =? y1)%Z && (x2 =? y2)%Z && (x3 =? y3)%Z.

(** The heap of arrays, for the aliasing behaviour of [prioritizeProducts]:
    [items.slice()] allocates a fresh array, [.sort] reorders it in place. *)
Abbreviation loc := nat (only parsing).
Abbreviation heap := (gmap nat (list jsval)) (only parsing).




(** The three products of the ranking example. *)
Definition prodA : jsval :=
  JObj [("name", JStr "x"); ("price", JNum 0); ("url", JStr "https://www.melaleuca.com/shop")].
Definition prodB : jsval :=
  JObj [("name", JStr "y"); ("price", JNum 0);
        ("url", JStr "https://www.melaleuca.com/productstore/soap/sku1")].
Definition prodC : jsval :=
  JObj [("name", JStr "z"); ("price", JNum 5);
        ("url", JStr "https://www.melaleuca.com/productstore/soap/sku2")].

(* ================================================================== *)
(** ** JavaScript numbers: [Number(s)], [Math.min], [Math.max], slicing *)

Module Num.

Definition truthy (x : jsnum) : bool :=
  match x with Fin q => negb (Qeq_bool q 0) | NaN => false | PInf | NInf => true end.

(** [x || d] for a number [x] and a number default. *)
Definition or_else (x d : jsnum) : jsnum := if truthy x then x else d.

(** [a < b] on numbers ([false] when either is [NaN]). *)
Definition lt (a b : jsnum) : bool :=
  match a, b with
  | NaN, _ | _, NaN => false
  | Fin x, Fin y => negb (Qle_bool y x)
  | NInf, NInf | PInf, _ => false
  | NInf, _ => true
  | Fin _, PInf => true
  | Fin _, NInf => false
  end.

Definition le (a b : jsnum) : bool :=
  match a, b with
  | NaN, _ | _, NaN => false
  | _, _ => negb (lt b a)
  end.

(** [Math.min(a, b)] and [Math.max(a, b)]: [NaN] if either is [NaN]. *)
Definition min (a b : jsnum) : jsnum :=
  match a, b with
  | NaN, _ | _, NaN => NaN
  | _, _ => if lt b a then b else a
  end.

Definition max (a b : jsnum) : jsnum :=
  match a, b with
  | NaN, _ | _, NaN => NaN
  | _, _ => if lt a b then b else a
  end.

Definition mul (a b : jsnum) : jsnum :=
  match a, b with
  | Fin x, Fin y => Fin (Qmult x y)
  | NaN, _ | _, NaN => NaN
  | Fin x, i | i, Fin x =>
      if Qeq_bool x 0 then NaN
      else if Qle_bool x 0 then (match i with PInf => NInf | _ => PInf end) else i
  | PInf, PInf | NInf, NInf => PInf
  | _, _ => NInf
  end.

(** [--x]. *)
Definition dec (a : jsnum) : jsnum :=
  match a with Fin x => Fin (Qminus x 1) | i => i end.

(** [n >= x] for an array length [n]. *)
Definition nat_ge (n : nat) (x : jsnum) : bool := le x (Fin (inject_Z (Z.of_nat n))).

(** [arr.slice(0, x)] (ToIntegerOrInfinity of the end, negative ends
    counted from the back). *)
Definition slice_to {A : Type} (x : jsnum) (l : list A) : list A :=
  let n := Z.of_nat (length l) in
  let e := match x with
           | NaN => 0%Z
           | PInf => n
           | NInf => 0%Z
           | Fin q => let t := Z.quot (Qnum q) (Zpos (Qden q)) in
                      if (t <? 0)%Z then Z.max (n + t) 0 else Z.min t n
           end in
  firstn (Z.to_nat e) l.

(** [StringToNumber] on the literals the endpoint can receive: trimmed
    decimal literals with optional sign, fraction and exponent,
    [Infinity] with optional sign, and unsigned [0x]/[0o]/[0b] integers;
    the empty string is 0 and anything else is [NaN]. (Literals too
    large for a double are not turned into infinities.) *)
Definition digit_val (c : ascii) : nat :=
  let n := nat_of_ascii c in
  if (48 <=? n)%nat && (n <=? 57)%nat then n - 48
  else if (97 <=? n)%nat && (n <=? 102)%nat then n - 87
  else if (65 <=? n)%nat && (n <=? 70)%nat then n - 55
  else 99.

Fixpoint radix_digits (radix : nat) (acc : Z) (s : string) : option Z :=
  match s with
  | EmptyString => Some acc
  | String c r =>
      let d := digit_val c in
      if (d <? radix)%nat then radix_digits radix (Z.of_nat radix * acc + Z.of_nat d) r
      else None
  end.

Definition radix_literal (s : string) : option Z :=
  match s with
  | String z (String x r) =>
      if Ascii.eqb z "0" then
        let radix := if Ascii.eqb x "x" || Ascii.eqb x "X" then 16%nat
                     else if Ascii.eqb x "o" || Ascii.eqb x "O" then 8%nat
                     else if Ascii.eqb x "b" || Ascii.eqb x "B" then 2%nat else 0%nat in
        if (radix =? 0)%nat then None
        else match r with EmptyString => None | _ => radix_digits radix 0 r end
      else None
  | _ => None
  end.

Definition sign_of (s : string) : Z * string :=
  match s with
  | String c r => if Ascii.eqb c "-" then (-1, r)%Z
                  else if Ascii.eqb c "+" then (1, r)%Z else (1%Z, s)
  | EmptyString => (1%Z, s)
  end.

Definition decimal_literal (s : string) : option Q :=
  let (sg, s1) := sign_of s in
  let (d1, s2) := Price.take_digits s1 in
  let (d2, s3) := match s2 with
                  | String c r => if Ascii.eqb c "." then Price.take_digits r else (EmptyString, s2)
                  | EmptyString => (EmptyString, s2)
                  end in
  if negb (Str.non_empty d1) && negb (Str.non_empty d2) then None else
  let mant := Price.decimal_value d1 d2 in
  let e := match s3 with
           | EmptyString => Some 0%Z
           | String c r =>
               if Ascii.eqb c "e" || Ascii.eqb c "E" then
                 let (esg, r1) := sign_of r in
                 let (ed, r2) := Price.take_digits r1 in
                 if Str.non_empty ed && negb (Str.non_empty r2)
                 then Some (esg * Price.digits_Z 0 ed)%Z else None
               else None
           end in
  match e with
  | None => None
  | Some e =>
      let scale := if (e <? 0)%Z then Qmake 1 (Pos.of_nat (10 ^ Z.to_nat (- e)))
                   else inject_Z (10 ^ e)%Z in
      Some (Qmult (Qmult (inject_Z sg) mant) scale)
  end.

End Num.

Definition js_Number (s : string) : jsnum :=
  let t := Str.trim s in
  if negb (Str.non_empty t) then Fin 0 else
  if String.eqb t "Infinity" || String.eqb t "+Infinity" then PInf else
  if String.eqb t "-Infinity" then NInf else
  match Num.radix_literal t with
  | Some z => Fin (inject_Z z)
  | None => match Num.decimal_literal t with Some q => Fin q | None => NaN end
  end.

(* ================================================================== *)
(** ** Process state and the effect monad

    The server's shared state: the clock read by [Date.now()], the log
    of network requests issued, [SEARCH_CACHE], [SITEMAP_CACHE] and the
    catalog document ([JSON.parse] of [products.json], [None] when the
    read or the parse throws). Async functions run sequentially here, so
    they are state-passing computations that may throw. *)

Record entry := { e_ts : Z; e_items : list jsval; e_url : string }.

Record state := mkState {
  clock : Z;
  fetch_log : list string;
  search_cache : gmap string entry;
  sitemap_ts : Z;
  sitemap_urls : list string;
  catalog : option jsval;
}.

Inductive outcome (A : Type) : Type :=
  | Ok (a : A)
  | Thrown.
Arguments Ok {A} a.
Arguments Thrown {A}.

Definition M (A : Type) : Type := state -> outcome A * state.

Definition ret {A} (a : A) : M A := fun s => (Ok a, s).
Definition throw {A} : M A := fun s => (Thrown, s).
Definition bind {A B} (m : M A) (k : A -> M B) : M B :=
  fun s => match m s with
           | (Ok a, s') => k a s'
           | (Thrown, s') => (Thrown, s')
           end.
(** [try { m } catch { h }]. *)
Definition try_catch {A} (m : M A) (h : M A) : M A :=
  fun s => match m s with
           | (Ok a, s') => (Ok a, s')
           | (Thrown, s') => h s'
           end.

Notation "x <-- m ;; k" := (bind m (fun x => k))
  (at level 100, m at next level, right associativity).

(** [Date.now()]. *)
Definition now : M Z := fun s => (Ok (clock s), s).
Definition cache_get (k : string) : M (option entry) := fun s => (Ok (search_cache s !! k), s).
Definition cache_set (k : string) (e : entry) : M unit :=
  fun s => (Ok tt, {| clock := clock s; fetch_log := fetch_log s;
                      search_cache := <[k := e]> (search_cache s);
                      sitemap_ts := sitemap_ts s; sitemap_urls := sitemap_urls s;
                      catalog := catalog s |}).
Definition sitemap_get : M (Z * list string) := fun s => (Ok (sitemap_ts s, sitemap_urls s), s).
Definition sitemap_set (ts : Z) (urls : list string) : M unit :=
  fun s => (Ok tt, {| clock := clock s; fetch_log := fetch_log s;
                      search_cache := search_cache s;
                      sitemap_ts := ts; sitemap_urls := urls; catalog := catalog s |}).
Definition read_catalog : M (option jsval) := fun s => (Ok (catalog s), s).

(** The network: the body [httpGet(url)] settles with ([None] when it
    rejects, after any redirects) and the time it takes. *)
Class Network := {
  http_outcome : string -> option string;
  http_latency : string -> Z;
}.

(** Markup parsing the pipeline relies on, left abstract: the JSON-LD
    script blocks of a page ([extractJSONLDBlocks], regex and
    [JSON.parse]), the product list [parseProductsFromHTML] derives from
    a page, the [href]s cheerio selects on a Bing result page, and the
    [<loc>] values of a sitemap document. All are pure. *)
Class Markup := {
  extractJSONLDBlocks : string -> list jsval;
  parseProductsFromHTML : string -> string -> list jsval;
  bing_result_hrefs : string -> list string;
  extract_locs : string -> list string;
}.

Record config := {
  SCRAPE_ENABLED : bool;
  SCRAPE_SEARCH_URL : string;
  SCRAPE_CACHE_TTL_MS : Z;
  SCRAPE_MAX_TIME_MS : Z;
  cheerio_loaded : bool;
}.

Definition SITEMAP_CACHE_TTL_MS : Z := 6 * 60 * 60 * 1000.

Section Http.
Context `{NET : Network}.

(** One [httpGet(url)]: the request is issued (logged), time passes. *)
Definition httpGet (url : string) : M string :=
  fun s =>
    let s' := {| clock := clock s + http_latency url;
                 fetch_log := fetch_log s ++ [url];
                 search_cache := search_cache s;
                 sitemap_ts := sitemap_ts s; sitemap_urls := sitemap_urls s;
                 catalog := catalog s |} in
    match http_outcome url with
    | Some body => (Ok body, s')
    | None => (Thrown, s')
    end.

(** [httpGet(p.url)] for an arbitrary value: [url.startsWith] throws
    inside the promise executor for a non-string, before any request. *)
Definition httpGet_val (u : jsval) : M string :=
  match u with
  | JStr s => httpGet s
  | _ => throw
  end.

End Http.

(** Object spread and property update on object literals. *)
Fixpoint fields_set (k : string) (v : jsval) (fs : list (string * jsval)) : list (string * jsval) :=
  match fs with
  | [] => [(k, v)]
  | (k', v') :: r => if String.eqb k k' then (k, v) :: r else (k', v') :: fields_set k v r
  end.

Definition fields_of (v : jsval) : list (string * jsval) :=
  match v with JObj fs => fs | _ => [] end.

(** [{ ...p, ...found, url: found.url || p.url }]. *)
Definition merge_found (p found : jsval) : jsval :=
  let fs := fold_left (fun acc kv => fields_set (fst kv) (snd kv) acc) (fields_of found) (fields_of p) in
  JObj (fields_set "url" (js_or (get found "url") (get p "url")) fs).

(** [Set] membership (SameValueZero) for the primitive values used as
    URLs; distinct object values are distinct references. *)
Definition same_value_zero (a b : jsval) : bool :=
  match a, b with
  | JStr x, JStr y => String.eqb x y
  | JNum x, JNum y => Qeq_bool x y
  | JBool x, JBool y => Bool.eqb x y
  | JNull, JNull | JUndef, JUndef => true
  | _, _ => false
  end.

Definition set_has (v : jsval) (l : list jsval) : bool := existsb (same_value_zero v) l.

(** A case-insensitive regex test for a literal: [/lit/i.test(s)]. *)
Definition ci_test (lit s : string) : bool := Str.includes (Str.to_lower s) (Str.to_lower lit).

(** Adding strings to a [Set] (insertion order, no duplicates). *)
Definition str_set_add (acc : list string) (x : string) : list string :=
  if Str.mem x acc then acc else acc ++ [x].

(** [normalizeProductFromJSONLD] over the blocks, first hit. *)
Fixpoint first_product `{RT : Runtime} (blocks : list jsval) (base : string) : option jsval :=
  match blocks with
  | [] => None
  | b :: r => match normalizeProductFromJSONLD b base with
              | Some p => Some p
              | None => first_product r base
              end
  end.

Section Pipeline.
Context `{RT : Runtime} `{NET : Network} `{MK : Markup} (cfg : config).

Inductive loop_exit := Break (keep : list jsval) | Continue (keep : list jsval).

(** [filterAndHydrateDetails(items, limit, maxFetch, startTs)]: the
    [for (const p of items)] loop with its [keep], [visited] and the
    decremented [maxFetch]. *)
Fixpoint fhd_loop (limit : jsnum) (startTs : Z) (items : list jsval)
         (keep visited : list jsval) (maxFetch : jsnum) : M (list jsval) :=
  match items with
  | [] => ret keep
  | p :: rest =>
      t <-- now ;;
      if (t - startTs >? SCRAPE_MAX_TIME_MS cfg)%Z then ret keep else
      if negb (truthy p) || negb (truthy (get p "url"))
      then fhd_loop limit startTs rest keep visited maxFetch else
      if set_has (get p "url") visited
      then fhd_loop limit startTs rest keep visited maxFetch else
      let visited := visited ++ [get p "url"] in
      if negb (isLikelyProductDetailUrl (get p "url"))
      then fhd_loop limit startTs rest keep visited maxFetch else
      r <-- try_catch
              (html <-- httpGet_val (get p "url") ;;
               let keep' := match first_product (extractJSONLDBlocks html) (js_String (get p "url")) with
                            | Some found => keep ++ [merge_found p found]
                            | None => keep
                            end in
               ret (if Num.nat_ge (length keep') limit || Num.nat_ge (length visited) maxFetch
                    then Break keep' else Continue keep'))
              (ret (Continue keep)) ;;
      match r with
      | Break k => ret k
      | Continue k =>
          let mf := Num.dec maxFetch in
          if Num.le mf (Fin 0) then ret k
          else fhd_loop limit startTs rest k visited mf
      end
  end.

Definition filterAndHydrateDetails (items : list jsval) (limit maxFetch : jsnum) (startTs : Z)
  : M (list jsval) :=
  fhd_loop limit startTs items [] [] maxFetch.

(** The blank candidate record built from a discovered URL. *)
Definition blank_candidate (u : string) : jsval :=
  obj [("name", JStr ""); ("price", JNum 0); ("category", JStr ""); ("description", JStr "");
       ("url", JStr u); ("image", JUndef); ("tags", JArr [])].

Definition nonempty_list {A} (l : list A) : bool := match l with [] => false | _ => true end.

(** The link filter inside [$(...).each]: the [href] must be non-empty,
    mention [melaleuca.com/] and [/productstore/], resolve against Bing,
    and be detail-likely. *)
Definition bing_link (href : string) : option string :=
  if negb (Str.non_empty href) then None else
  if negb (ci_test "melaleuca.com/" href) then None else
  if negb (ci_test "/productstore/" href) then None else
  match url_parse href "https://www.bing.com" with
  | Some u => if isLikelyProductDetailUrl (JStr (url_href u)) then Some (url_href u) else None
  | None => None
  end.

Definition searchViaBingProducts (q : string) (limit : jsnum) (startTs : Z) : M (list jsval) :=
  if negb (cheerio_loaded cfg) then ret [] else
  try_catch
    (let query := Str.trim ("site:melaleuca.com/productstore " +:+ q) in
     let url := "https://www.bing.com/search?q=" +:+ Str.encode_uri_component query in
     html <-- httpGet url ;;
     let links := fold_left (fun acc href => match bing_link href with
                                              | Some u => str_set_add acc u
                                              | None => acc
                                              end) (bing_result_hrefs html) [] in
     let candidates := map blank_candidate (Num.slice_to (Num.max (Fin 3) limit) links) in
     verified <-- filterAndHydrateDetails candidates (Num.max (Fin 3) limit) (Fin 6) startTs ;;
     ret (if nonempty_list verified then prioritizeProducts verified else []))
    (ret []).

(** The inner [for (const u of cand)] of [fetchSitemapUrls]. *)
Fixpoint sitemap_children (cand : list string) (urls : list string) : M (list string) :=
  match cand with
  | [] => ret urls
  | u :: r =>
      urls' <-- try_catch
                  (x <-- httpGet u ;;
                   ret (fold_left (fun acc l => if ci_test "/productstore/" l then str_set_add acc l else acc)
                                  (extract_locs x) urls))
                  (ret urls) ;;
      sitemap_children r urls'
  end.

Definition fetchSitemapUrls : M (list string) :=
  t <-- now ;;
  sc <-- sitemap_get ;;
  if nonempty_list (snd sc) && (t - fst sc <? SITEMAP_CACHE_TTL_MS)%Z then ret (snd sc) else
  out <-- try_catch
            (xml <-- httpGet "https://www.melaleuca.com/sitemap.xml" ;;
             if ci_test "<sitemapindex" xml then
               let cand := firstn 4 (List.filter (fun u => ci_test "product" u || ci_test "productstore" u)
                                                 (extract_locs xml)) in
               sitemap_children cand []
             else
               ret (fold_left (fun acc l => if ci_test "/productstore/" l then str_set_add acc l else acc)
                              (extract_locs xml) []))
            (ret []) ;;
  _ <-- sitemap_set t out ;;
  ret out.

(** Number of query tokens occurring in a URL. *)
Definition token_hits (toks : list string) (u : string) : Z :=
  Z.of_nat (length (List.filter (fun t => Str.includes (Str.to_lower u) t) toks)).

Definition searchViaSitemap (q : string) (limit : jsnum) (startTs : Z) : M (list jsval) :=
  try_catch
    (urls <-- fetchSitemapUrls ;;
     if negb (nonempty_list urls) then ret [] else
     let toks := List.filter Str.non_empty (Str.split_alnum (Str.to_lower q)) in
     let scored := List.filter (fun x => (0 <? snd x)%Z)
                     (map (fun u => (u, token_hits toks u))
                          (List.filter (fun u => isLikelyProductDetailUrl (JStr u)) urls)) in
     let scored := js_sort (fun a b => (0 <? snd b - snd a)%Z) scored in
     let l6 := Num.or_else limit (Fin 6) in
     let scored := Num.slice_to (Num.max (Fin 3) (Num.mul l6 (Fin 3))) scored in
     if negb (nonempty_list scored) then ret [] else
     let candidates := map (fun x => blank_candidate (fst x)) scored in
     verified <-- filterAndHydrateDetails candidates (Num.max (Fin 3) l6)
                    (Num.max (Fin 6) (Num.mul l6 (Fin 2))) startTs ;;
     ret (if nonempty_list verified then prioritizeProducts verified else []))
    (ret []).

(** [p.description || (price > 0) || (p.image && p.image.startsWith('http'))];
    [startsWith] throws on a truthy non-string image. *)
Definition has_basics (p : jsval) : M bool :=
  if truthy (get p "description") then ret true else
  if Z.eqb (price_flag p) 1 then ret true else
  if negb (truthy (get p "image")) then ret false else
  match get p "image" with
  | JStr s => ret (Str.starts_with "http" s)
  | _ => throw
  end.

(** The loop of [enrichFromDetailPages(items, maxFetch)]: the array is
    walked by index, [out[i]] replaced by the merged product. *)
Fixpoint enrich_loop (maxFetch : nat) (ps : list jsval) (fetched : nat) (changed : bool)
  : M (list jsval * bool) :=
  match ps with
  | [] => ret ([], changed)
  | p :: rest =>
      if negb (fetched <? maxFetch)%nat then ret (ps, changed) else
      if negb (isLikelyProductDetailUrl (get p "url")) then
        r <-- enrich_loop maxFetch rest fetched changed ;; ret (p :: fst r, snd r)
      else
      hb <-- has_basics p ;;
      if hb then
        r <-- enrich_loop maxFetch rest fetched changed ;; ret (p :: fst r, snd r)
      else
      o <-- try_catch
              (html <-- httpGet_val (get p "url") ;;
               ret (Some (first_product (extractJSONLDBlocks html) (js_String (get p "url")))))
              (ret None) ;;
      match o with
      | Some (Some prod) =>
          r <-- enrich_loop maxFetch rest (S fetched) true ;; ret (merge_found p prod :: fst r, snd r)
      | Some None =>
          r <-- enrich_loop maxFetch rest (S fetched) changed ;; ret (p :: fst r, snd r)
      | None =>
          r <-- enrich_loop maxFetch rest fetched changed ;; ret (p :: fst r, snd r)
      end
  end.

Definition enrichFromDetailPages (items : list jsval) (maxFetch : nat) : M (list jsval * bool) :=
  enrich_loop maxFetch items 0 false.

(** [JSON.stringify] of a string: quotes, backslashes and control
    characters escaped. *)
Definition dquote : string := String (ascii_of_nat 34) EmptyString.
Definition hex_lower (n : nat) : ascii :=
  if (n <? 10)%nat then ascii_of_nat (48 + n) else ascii_of_nat (87 + n).

Fixpoint json_escape (s : string) : string :=
  match s with
  | EmptyString => EmptyString
  | String c r =>
      let n := nat_of_ascii c in
      let bs := ascii_of_nat 92 in
      let e := if (n =? 34)%nat || (n =? 92)%nat then String bs (String c EmptyString)
               else if (n =? 8)%nat then String bs "b"
               else if (n =? 12)%nat then String bs "f"
               else if (n =? 10)%nat then String bs "n"
               else if (n =? 13)%nat then String bs "r"
               else if (n =? 9)%nat then String bs "t"
               else if (n <? 32)%nat then String bs ("u00" +:+ String (hex_lower (n / 16))
                                                              (String (hex_lower (n mod 16)) EmptyString))
               else String c EmptyString in
      e +:+ json_escape r
  end.

Definition json_quote (s : string) : string := dquote +:+ json_escape s +:+ dquote.

(** [JSON.stringify] of [x || ''] for a number (or [undefined]): a falsy
    value becomes the empty string, an infinity [null]. *)
Definition key_num (x : option jsnum) : string :=
  match x with
  | Some (Fin q) => if Qeq_bool q 0 then json_quote EmptyString else num_to_string q
  | Some PInf | Some NInf => "null"
  | Some NaN | None => json_quote EmptyString
  end.

(** [JSON.stringify([tag, q || '', category || '', maxPrice || '', limit || ''])]. *)
Definition query_key (tag q category : string) (maxPrice : option jsnum) (limit : jsnum) : string :=
  "[" +:+ json_quote tag +:+ "," +:+ json_quote q +:+ "," +:+ json_quote category +:+ ","
      +:+ key_num maxPrice +:+ "," +:+ key_num (Some limit) +:+ "]".

Record remote_result := { r_items : list jsval; r_url : string; r_cached : bool }.

(** [Date.now() - startTs <= SCRAPE_MAX_TIME_MS]. *)
Definition within_budget (startTs : Z) : M bool :=
  t <-- now ;; ret (t - startTs <=? SCRAPE_MAX_TIME_MS cfg)%Z.

Definition has_detail (items : list jsval) : bool :=
  existsb (fun p => isLikelyProductDetailUrl (get p "url")) items.

(** The alternate search page, tried when the primary page gave no
    detail-likely item and the budget is not exceeded. *)
Definition try_alternate (q : string) (startTs : Z) (items : list jsval) (usedUrl : string)
  : M (list jsval * string) :=
  if nonempty_list items && has_detail items then ret (items, usedUrl) else
  ok <-- within_budget startTs ;;
  if negb ok then ret (items, usedUrl) else
  let alt := "https://www.melaleuca.com/Search?searchTerm=" +:+ Str.encode_uri_component q in
  try_catch
    (html2 <-- httpGet alt ;;
     let parsed := parseProductsFromHTML html2 alt in
     ret (if nonempty_list parsed && has_detail parsed then (parsed, alt) else (items, usedUrl)))
    (ret (items, usedUrl)).

(** The Bing and sitemap fallbacks, run when verification kept nothing. *)
Definition fallbacks (q : string) (limit : jsnum) (startTs : Z) : M (list jsval) :=
  try_catch
    (ok <-- within_budget startTs ;;
     if negb ok then ret [] else
     viaBing <-- searchViaBingProducts q (Num.or_else limit (Fin 6)) startTs ;;
     if nonempty_list viaBing then ret viaBing else
     ok2 <-- within_budget startTs ;;
     if negb ok2 then ret [] else
     viaSitemap <-- searchViaSitemap q (Num.or_else limit (Fin 6)) startTs ;;
     ret (if nonempty_list viaSitemap then viaSitemap else []))
    (ret []).

Definition category_filter (category : string) (items : list jsval) : list jsval :=
  if negb (Str.non_empty category) then items else
  let c := Str.to_lower category in
  List.filter (fun p => Str.includes (Str.to_lower (js_String (js_or (get p "category") (JStr "")))) c
                        || Str.includes (Str.to_lower (js_String (js_or (get p "name") (JStr "")))) c)
              items.

(** [typeof maxPrice === 'number' && Number.isFinite(maxPrice)]. *)
Definition price_filter (maxPrice : option jsnum) (items : list jsval) : list jsval :=
  match maxPrice with
  | Some (Fin m) => List.filter (fun p => match get p "price" with
                                          | JNum x => Qle_bool x m
                                          | _ => false
                                          end) items
  | _ => items
  end.

Definition is_thin (p : jsval) : bool :=
  isLikelyProductDetailUrl (get p "url") && negb (truthy (get p "description"))
  && negb (truthy (get p "price")).

Definition enrich_thin (items : list jsval) : M (list jsval) :=
  try_catch
    (if nonempty_list (List.filter is_thin items) then
       r <-- enrichFromDetailPages items 4 ;;
       ret (if snd r then prioritizeProducts (fst r) else items)
     else ret items)
    (ret items).

(** Everything [searchRemoteProducts] does after a cache miss, from the
    primary fetch to the cache write. *)
Definition remote_resolve (key q category : string) (maxPrice : option jsnum) (limit : jsnum)
           (t0 : Z) (urlPrimary : string) : M remote_result :=
  let startTs := t0 in
  html <-- try_catch (httpGet urlPrimary) (ret EmptyString) ;;
  let items := if Str.non_empty html then parseProductsFromHTML html urlPrimary else [] in
  r <-- try_alternate q startTs items urlPrimary ;;
  let (items, usedUrl) := r in
  verified <-- try_catch
                 (ok <-- within_budget startTs ;;
                  if ok then filterAndHydrateDetails items (Num.max (Fin 3) (Num.or_else limit (Fin 6)))
                               (Fin 6) startTs
                  else ret [])
                 (ret []) ;;
  items <-- (if nonempty_list verified then ret verified else fallbacks q limit startTs) ;;
  let items := List.filter (fun p => isLikelyProductDetailUrl (get p "url")) items in
  let items := category_filter category items in
  let items := price_filter maxPrice items in
  let items := if Num.truthy limit then Num.slice_to limit items else items in
  items <-- enrich_thin items ;;
  _ <-- (if nonempty_list items then cache_set key {| e_ts := t0; e_items := items; e_url := usedUrl |}
         else ret tt) ;;
  ret {| r_items := items; r_url := usedUrl; r_cached := false |}.

(** The cache test of [searchRemoteProducts]. *)
Definition remote_hit (TTL now : Z) (c : option entry) : bool :=
  match c with
  | Some e => nonempty_list (e_items e) && (now - e_ts e <? TTL)%Z
  | None => false
  end.

Definition searchRemoteProducts (q category : string) (maxPrice : option jsnum) (limit : jsnum)
  : M remote_result :=
  if negb (SCRAPE_ENABLED cfg) then ret {| r_items := []; r_url := ""; r_cached := false |} else
  let key := query_key "remote" q category maxPrice limit in
  t0 <-- now ;;
  let urlPrimary := Str.replace_first "{q}" (Str.encode_uri_component q) (SCRAPE_SEARCH_URL cfg) in
  cached <-- cache_get key ;;
  match cached with
  | Some e =>
      if remote_hit (SCRAPE_CACHE_TTL_MS cfg) t0 (Some e)
      then ret {| r_items := e_items e;
                  r_url := if Str.non_empty (e_url e) then e_url e else urlPrimary;
                  r_cached := true |}
      else remote_resolve key q category maxPrice limit t0 urlPrimary
  | None => remote_resolve key q category maxPrice limit t0 urlPrimary
  end.

(** [scoreLocal(p, { q, category, maxPrice })]; [None] when it throws:
    [p] nullish, a truthy [p.tags] that is not an array, or a [String]
    conversion in [norm] that throws. *)
Definition norm (v : jsval) : string := Str.to_lower (js_String (js_or v (JStr ""))).

(** Whether [norm(v)] throws. *)
Definition norm_throws (v : jsval) : bool := str_throws (js_or v (JStr "")).

Definition join_space (l : list string) : string :=
  match l with
  | [] => EmptyString
  | x :: r => fold_left (fun acc y => acc +:+ " " +:+ y) r x
  end.

Definition scoreLocal (p : jsval) (q category : string) (maxPrice : option jsnum) : option Q :=
  if is_nullish p then None else
  let tags := match js_or (get p "tags") (JArr []) with
              | JArr l => Some l
              | _ => None
              end in
  match tags with
  | None => None
  | Some tags =>
      if norm_throws (get p "name") || norm_throws (get p "description")
         || existsb norm_throws tags || norm_throws (get p "category") then None else
      let hay := norm (get p "name") +:+ " " +:+ norm (get p "description") +:+ " "
                 +:+ join_space (map norm tags) +:+ " " +:+ norm (get p "category") in
      let qq := Str.to_lower q in
      let s1 := if Str.non_empty qq then
                  Qplus (inject_Z (2 * Z.of_nat (length (List.filter (fun t => Str.includes hay t)
                                                (List.filter Str.non_empty (Str.split_alnum qq))))))
                        (if Str.includes hay qq then 3%Q else 0%Q)
                else 0%Q in
      let s2 := if Str.non_empty category && String.eqb (norm (get p "category")) (Str.to_lower category)
                then 2%Q else 0%Q in
      let s3 := match maxPrice, get p "price" with
                | Some m, JNum x => if Num.le (Fin x) m then 1%Q else 0%Q
                | Some m, _ => 0%Q
                | None, _ => 0%Q
                end in
      let s4 := match get p "rating" with JNum r => Qmult r (Qmake 1 5) | _ => 0%Q end in
      Some (Qplus (Qplus (Qplus s1 s2) s3) s4)
  end.

(** [p.k] where [p] may be nullish (a [TypeError]). *)
Definition strict_get (p : jsval) (k : string) : M jsval :=
  if is_nullish p then throw else ret (get p k).

Fixpoint filterM (f : jsval -> M bool) (l : list jsval) : M (list jsval) :=
  match l with
  | [] => ret []
  | x :: r => b <-- f x ;; rest <-- filterM f r ;; ret (if b then x :: rest else rest)
  end.

Fixpoint score_all (q category : string) (maxPrice : option jsnum) (l : list jsval)
  : M (list (jsval * Q)) :=
  match l with
  | [] => ret []
  | p :: r => match scoreLocal p q category maxPrice with
              | Some s => rest <-- score_all q category maxPrice r ;; ret ((p, s) :: rest)
              | None => throw
              end
  end.

(** [list.map(...).sort((a, b) => b.s - a.s).map(x => x.p)]. *)
Definition by_score_desc (a b : jsval * Q) : bool := negb (Qle_bool (Qminus (snd b) (snd a)) 0).

Definition local_list (products : list jsval) (q category : string) (maxPrice : option jsnum)
           (limit : jsnum) : M (list jsval) :=
  list <-- (match maxPrice with
            | Some m => filterM (fun p => pr <-- strict_get p "price" ;;
                                          ret (match pr with JNum x => Num.le (Fin x) m | _ => false end))
                                products
            | None => ret products
            end) ;;
  list <-- (if Str.non_empty category then
              filterM (fun p => c <-- strict_get p "category" ;;
                                if norm_throws c then throw else
                                ret (String.eqb (Str.to_lower (js_String (js_or c (JStr ""))))
                                                (Str.to_lower category)))
                      list
            else ret list) ;;
  scored <-- score_all q category maxPrice list ;;
  let list := map fst (js_sort by_score_desc scored) in
  ret (if Num.truthy limit then Num.slice_to limit list else list).

(** [products] after the guarded read: [json.products || []], and [[]]
    when the file is missing or does not parse. *)
Definition catalog_products (doc : option jsval) : jsval :=
  match doc with
  | Some d => js_or (get d "products") (JArr [])
  | None => JArr []
  end.

Definition local_resolve (key q category : string) (maxPrice : option jsnum) (limit : jsnum) (t : Z)
  : M (list jsval * bool) :=
  doc <-- read_catalog ;;
  match catalog_products doc with
  | JArr products =>
      list <-- local_list products q category maxPrice limit ;;
      _ <-- cache_set key {| e_ts := t; e_items := list; e_url := EmptyString |} ;;
      ret (list, false)
  | _ => throw
  end.

Definition searchLocalProducts (q category : string) (maxPrice : option jsnum) (limit : jsnum)
  : M (list jsval * bool) :=
  let key := query_key "local" q category maxPrice limit in
  t <-- now ;;
  cached <-- cache_get key ;;
  match cached with
  | Some e => if (t - e_ts e <? SCRAPE_CACHE_TTL_MS cfg)%Z then ret (e_items e, true)
              else local_resolve key q category maxPrice limit t
  | None => local_resolve key q category maxPrice limit t
  end.

(** The endpoint's answer: status 200 with its body fields, or 500. *)
Inductive response :=
  | Resp200 (items : list jsval) (source url : string) (cached : bool) (query : string)
  | Resp500.

(** [limitParam != null ? Math.max(1, Math.min(20, Number(limitParam))) : 3]. *)
Definition effective_limit (limitParam : option string) : jsnum :=
  match limitParam with
  | Some s => Num.max (Fin 1) (Num.min (Fin 20) (js_Number s))
  | None => Fin 3
  end.

(** [GET /api/products/search]: the query parameters as
    [searchParams.get] returns them. *)
Definition search_endpoint (qParam categoryParam maxPriceParam limitParam : option string)
  : M response :=
  let q := match qParam with Some s => s | None => EmptyString end in
  let category := match categoryParam with Some s => s | None => EmptyString end in
  let maxPrice := option_map js_Number maxPriceParam in
  let limit := effective_limit limitParam in
  remote <-- try_catch (r <-- searchRemoteProducts q category maxPrice limit ;; ret (Some r))
                       (ret None) ;;
  match remote with
  | Some r =>
      if nonempty_list (r_items r)
      then ret (Resp200 (r_items r) "web" (r_url r) (r_cached r) q)
      else try_catch (l <-- searchLocalProducts q category maxPrice limit ;;
                      ret (Resp200 (fst l) "local" EmptyString (snd l) q))
                     (ret Resp500)
  | None =>
      try_catch (l <-- searchLocalProducts q category maxPrice limit ;;
                 ret (Resp200 (fst l) "local" EmptyString (snd l) q))
                (ret Resp500)
  end.

End Pipeline.

(** The local score in the words of the amended C6 claim: the haystack
    is the name, the description, the tags and the category, each
    [String(x || '')] lowercased, joined by single spaces; every token of
    the lowercased query (maximal [a-z0-9] runs, repetitions counted)
    found in it is worth 2, the whole lowercased query found in it 3, a
    requested category equal to the entry's (lowercased) 2, a price
    within a given ceiling 1, and a numeric rating adds a fifth of it. *)
Section AmendedScore.
Context `{RT : Runtime}.

Definition entry_tags (p : jsval) : list jsval :=
  match js_or (get p "tags") (JArr []) with JArr l => l | _ => [] end.

Definition query_tokens (q : string) : list string :=
  List.filter Str.non_empty (Str.split_alnum (Str.to_lower q)).

Definition amended_hay (p : jsval) : string :=
  String.concat " " [norm (get p "name"); norm (get p "description");
                     String.concat " " (map norm (entry_tags p)); norm (get p "category")].

Definition amended_score (p : jsval) (q category : string) (maxPrice : option jsnum) : Q :=
  let hay := amended_hay p in
  let per_token := fold_right (fun t acc => if Str.includes hay t then (acc + 2)%Z else acc)
                              0%Z (query_tokens q) in
  let phrase := if Str.non_empty (Str.to_lower q) && Str.includes hay (Str.to_lower q)
                then 3%Q else 0%Q in
  let cat := if Str.non_empty category && String.eqb (norm (get p "category")) (Str.to_lower category)
             then 2%Q else 0%Q in
  let within := match maxPrice, get p "price" with
                | Some m, JNum x => if Num.le (Fin x) m then 1%Q else 0%Q
                | _, _ => 0%Q
                end in
  let rating := match get p "rating" with JNum r => Qdiv r 5 | _ => 0%Q end in
  Qplus (Qplus (Qplus (Qplus (inject_Z per_token) phrase) cat) within) rating.

(** Entries [scoreLocal] scores without throwing: not nullish, with
    array or falsy tags, and a name, description, category and tags
    that [String] converts. *)
Definition scorable (p : jsval) : bool :=
  negb (is_nullish p) && match js_or (get p "tags") (JArr []) with JArr _ => true | _ => false end
  && negb (norm_throws (get p "name") || norm_throws (get p "description")
           || existsb norm_throws (entry_tags p) || norm_throws (get p "category")).

(** The hard filters of [searchLocalProducts] as one predicate. *)
Definition hard_filter (maxPrice : option jsnum) (category : string) (p : jsval) : bool :=
  match maxPrice with
  | Some m => match get p "price" with JNum x => Num.le (Fin x) m | _ => false end
  | None => true
  end
  && (if Str.non_empty category
      then String.eqb (Str.to_lower (js_String (js_or (get p "category") (JStr ""))))
                      (Str.to_lower category)
      else true).

End AmendedScore.

(** Scores as canonical rationals: equal scores are equal keys. *)
Definition score_key (x : jsval * Q) : Qcanon.Qc := Qcanon.Q2Qc (snd x).
Definition qc_gt (x y : Qcanon.Qc) : bool := negb (Qle_bool (Qcanon.this x) (Qcanon.this y)).
Definition qc_eqb (x y : Qcanon.Qc) : bool := Qeq_bool (Qcanon.this x) (Qcanon.this y).

(** Relations between the state before and after a computation, and the
    computations whose every run (returning or throwing) respects one. *)
Definition frame (Rel : state -> state -> Prop) {A} (m : M A) : Prop :=
  forall s, Rel s (snd (m s)).

Definition same_cache (s s' : state) : Prop := search_cache s' = search_cache s.

(** Time does not go back and requests are only ever added to the log. *)
Definition later (s s' : state) : Prop :=
  (clock s <= clock s')%Z /\ exists l, fetch_log s' = fetch_log s ++ l.


(** The offer the price is taken from, in the words of the amended
    claim: the first offer, in order, that carries a truthy [price] or a
    truthy [priceSpecification.price]; its [price] wins over its
    [priceSpecification.price]. *)
Definition offer_has_price (o : jsval) : bool :=
  truthy o && (truthy (get o "price") ||
               (truthy (get o "priceSpecification") &&
                truthy (get (get o "priceSpecification") "price"))).

Definition offer_price (o : jsval) : option Q :=
  if truthy (get o "price") then parsePrice (get o "price")
  else parsePrice (get (get o "priceSpecification") "price").

Definition spec_price (node : jsval) : option Q :=
  if truthy (get node "offers") then
    match find offer_has_price (toArray (get node "offers")) with
    | Some o => offer_price o
    | None => None
    end
  else None.

(** Example inputs: a node with a $6.99 offer, and one whose first
    offer has the number 0 as price. *)
Definition citrus_soap_node : jsval :=
  JObj [("@type", JStr "Product"); ("name", JStr "Citrus Soap");
        ("offers", JObj [("price", JStr "$6.99")])].

Definition two_offer_node : jsval :=
  JObj [("@type", JStr "Product"); ("name", JStr "Soap");
        ("offers", JArr [JObj [("price", JNum 0)]; JObj [("price", JStr "$5")]])].

(* ================================================================== *)
(** ** A concrete runtime for evaluating examples

    A small stand-in for the URL parser (absolute [http(s)] URLs and
    root-relative paths) and for number rendering (integers in decimal),
    used only to run the model on concrete inputs. *)

Module Toy.

(** Split [s] before the first byte satisfying [p]. *)
Fixpoint break_at (p : ascii -> bool) (s : string) : string * string :=
  match s with
  | EmptyString => (EmptyString, EmptyString)
  | String c r =>
      if p c then (EmptyString, s)
      else let (a, b) := break_at p r in (String c a, b)
  end.

Definition parse_absolute (s : string) : option url_rec :=
  let k := if Str.starts_with "https://" s then 8%nat
           else if Str.starts_with "http://" s then 7%nat else 0%nat in
  if (k =? 0)%nat then None else
  let rest := substring k (String.length s) s in
  let (host, path0) := break_at (fun c => Ascii.eqb c "/") rest in
  let (path1, tail) := break_at (fun c => Ascii.eqb c "?" || Ascii.eqb c "#") path0 in
  let path := match path1 with EmptyString => "/" | _ => path1 end in
  match host with
  | EmptyString => None
  | _ => Some {| url_href := substring 0 k s +:+ host +:+ path +:+ tail;
                 url_pathname := path |}
  end.

Definition origin_of (s : string) : string :=
  let k := if Str.starts_with "https://" s then 8%nat else 7%nat in
  substring 0 k s +:+
  fst (break_at (fun c => Ascii.eqb c "/") (substring k (String.length s) s)).

Definition parse (input base : string) : option url_rec :=
  match parse_absolute input with
  | Some u => Some u
  | None =>
      match parse_absolute base with
      | None => None
      | Some _ =>
          if Str.starts_with "/" input then parse_absolute (origin_of base +:+ input)
          else parse_absolute (origin_of base +:+ "/" +:+ input)
      end
  end.

Fixpoint nat_digits (fuel n : nat) (acc : string) : string :=
  match fuel with
  | O => acc
  | S f =>
      let acc' := String (ascii_of_nat (48 + n mod 10)) acc in
      if (n <? 10)%nat then acc' else nat_digits f (n / 10) acc'
  end.

Definition render (q : Q) : string :=
  let z := (Qnum q / Zpos (Qden q))%Z in
  let digits := nat_digits 64 (Z.to_nat (Z.abs z)) EmptyString in
  if (z <? 0)%Z then "-" +:+ digits else digits.

Definition runtime : Runtime := {| url_parse := parse; num_to_string := render |}.

End Toy.

(* ================================================================== *)
(** ** Redirects in [httpGet]

    The response callback of [httpGet(url)]: a status from 300 to 399
    with a truthy [location] header resolves the promise with
    [httpGet(new URL(location, url).toString())]; otherwise the body is
    collected and the promise resolves (2xx) or rejects. A request error
    rejects it; [new URL] throwing inside the callback settles nothing. *)
Record http_response := { status : Z; location : option string; body : string }.

Inductive get_step :=
  | Redirect (next : string)
  | Settle (result : option string)
  | Stuck.

Section Redirects.
Context `{RT : Runtime}.
Variable server : string -> option http_response.

Definition http_step (url : string) : get_step :=
  match server url with
  | None => Settle None
  | Some res =>
      let st := status res in
      let loc_truthy := match location res with Some l => Str.non_empty l | None => false end in
      if (300 <=? st)%Z && (st <? 400)%Z && loc_truthy then
        match location res with
        | Some l => match url_parse l url with
                    | Some u => Redirect (url_href u)
                    | None => Stuck
                    end
        | None => Stuck
        end
      else if (200 <=? st)%Z && (st <? 300)%Z then Settle (Some (body res))
      else Settle None
  end.

(** [httpGet(url)] settles with [r] (a body, or [None] for a rejection)
    after finitely many redirects. *)
Inductive httpGet_settles : string -> option string -> Prop :=
  | settle_now url r : http_step url = Settle r -> httpGet_settles url r
  | settle_redirect url next r :
      http_step url = Redirect next -> httpGet_settles next r -> httpGet_settles url r.

(** Following at most [n] responses from [url]: [Some r] when the chain
    settles with [r] within them. *)
Fixpoint follow_redirects (n : nat) (url : string) : option (option string) :=
  match n with
  | O => None
  | S m => match http_step url with
           | Redirect next => follow_redirects m next
           | Settle r => Some r
           | Stuck => None
           end
  end.

End Redirects.

(** A server whose only page redirects to itself. *)
Definition self_redirect_server (u : string) : option http_response :=
  if String.eqb u "http://a/" then Some {| status := 302; location := Some "/"; body := "" |}
  else None.

(** A server whose pages "http://a/", "http://a/x", ... redirect each to
    the next, twelve times, the last answering 200 with body "done". *)
Definition hop_chain_server (u : string) : option http_response :=
  if String.eqb u "http://a/xxxxxxxxxxxx" then Some {| status := 200; location := None; body := "done" |}
  else if Str.starts_with "http://a/" u then Some {| status := 301; location := Some (u +:+ "x"); body := "" |}
  else None.

(* ================================================================== *)
(** ** The local score in the words of the specification

    +2 per distinct query token found in the name, description and tags,
    +3 for the whole query found there, +2 for the requested category,
    +1 for a price within the ceiling, and 0.2 times the rating. *)
Section SpecScore.
Context `{RT : Runtime}.

Definition spec_hay (p : jsval) : string :=
  String.concat " " [norm (get p "name"); norm (get p "description");
                     String.concat " " (map norm (entry_tags p))].

Definition spec_score (p : jsval) (q category : string) (maxPrice : option jsnum) : Q :=
  let hay := spec_hay p in
  let toks := nodup string_dec (query_tokens q) in
  let per_token := (2 * Z.of_nat (length (List.filter (fun t => Str.includes hay t) toks)))%Z in
  let phrase := if Str.non_empty q && Str.includes hay (Str.to_lower q) then 3%Q else 0%Q in
  let cat := if Str.non_empty category && String.eqb (norm (get p "category")) (Str.to_lower category)
             then 2%Q else 0%Q in
  let within := match maxPrice, get p "price" with
                | Some m, JNum x => if Num.le (Fin x) m then 1%Q else 0%Q
                | _, _ => 0%Q
                end in
  let rating := match get p "rating" with JNum r => Qmult r (2 # 10) | _ => 0%Q end in
  Qplus (Qplus (Qplus (Qplus (inject_Z per_token) phrase) cat) within) rating.

End SpecScore.

Definition soap_entry : jsval := JObj [("name", JStr "soap")].

(* ================================================================== *)
(** ** Concrete environments for running the endpoint

    A network on which every request succeeds with an empty page after
    5 ms, markup with nothing to extract, and the configurations with
    scraping on under a 0 ms budget, or off. *)
Definition slow_net : Network := {| http_outcome := fun _ => Some EmptyString; http_latency := fun _ => 5%Z |}.

Definition blank_markup : Markup :=
  {| extractJSONLDBlocks := fun _ => []; parseProductsFromHTML := fun _ _ => [];
     bing_result_hrefs := fun _ => []; extract_locs := fun _ => [] |}.

Definition zero_budget_cfg : config :=
  {| SCRAPE_ENABLED := true; SCRAPE_SEARCH_URL := "https://www.melaleuca.com/search?q={q}";
     SCRAPE_CACHE_TTL_MS := 15 * 60 * 1000; SCRAPE_MAX_TIME_MS := 0; cheerio_loaded := false |}.

Definition disabled_cfg : config :=
  {| SCRAPE_ENABLED := false; SCRAPE_SEARCH_URL := "https://www.melaleuca.com/search?q={q}";
     SCRAPE_CACHE_TTL_MS := 15 * 60 * 1000; SCRAPE_MAX_TIME_MS := 12000; cheerio_loaded := false |}.

(** A fresh process at time 1000 with the given catalog document. *)
Definition state_at (doc : option jsval) : state :=
  {| clock := 1000; fetch_log := []; search_cache := ∅; sitemap_ts := 0; sitemap_urls := [];
     catalog := doc |}.

(** A catalog of 21 entries, and one whose [products] is a number. *)
Definition catalog21 : jsval := JObj [("products", JArr (repeat soap_entry 21))].
Definition catalog_bad : jsval := JObj [("products", JNum 5)].

(** Values whose [String] conversion throws, and nodes, items and a
    catalog carrying one. *)
Definition toString_obj : jsval := JObj [("toString", JNum 1)].
Definition toString_type_node : jsval := JObj [("@type", toString_obj)].
Definition toString_category_node : jsval :=
  JObj [("@type", JStr "Product"); ("name", JStr "Soap"); ("category", toString_obj);
        ("offers", JObj [("price", JStr "5")])].
Definition toString_named : jsval := JObj [("name", toString_obj); ("price", JNum 5)].
Definition catalog_toString_name : jsval :=
  JObj [("products", JArr [JObj [("name", toString_obj)]])].

Definition run_endpoint (cfg : config) (doc : option jsval) (q limit : option string) : response * state :=
  let (o, s) := @search_endpoint Toy.runtime slow_net blank_markup cfg q None None limit (state_at doc) in
  (match o with Ok r => r | Thrown => Resp500 end, s).

(* ================================================================== *)
(** ** Reading back a [JSON.stringify]d string

    The reader of a JSON string literal without its opening quote: the
    characters up to the closing quote, with the escapes [JSON.stringify]
    writes (a backslash before a quote or a backslash, before b, f, n, r
    or t, or before u00 and two lowercase hex digits), and what follows
    the closing quote. *)
Definition hex_val (c : ascii) : option nat :=
  let n := nat_of_ascii c in
  if (48 <=? n)%nat && (n <=? 57)%nat then Some (n - 48)
  else if (97 <=? n)%nat && (n <=? 102)%nat then Some (n - 87)
  else None.

Fixpoint json_unquote (t : string) : option (string * string) :=
  let cont (ch : ascii) (o : option (string * string)) :=
    match o with Some (s, rest) => Some (String ch s, rest) | None => None end in
  match t with
  | EmptyString => None
  | String c r =>
      if (nat_of_ascii c =? 34)%nat then Some (EmptyString, r)
      else if (nat_of_ascii c =? 92)%nat then
        match r with
        | String e r' =>
            let n := nat_of_ascii e in
            if (n =? 34)%nat || (n =? 92)%nat then cont e (json_unquote r')
            else if Ascii.eqb e "b" then cont (ascii_of_nat 8) (json_unquote r')
            else if Ascii.eqb e "f" then cont (ascii_of_nat 12) (json_unquote r')
            else if Ascii.eqb e "n" then cont (ascii_of_nat 10) (json_unquote r')
            else if Ascii.eqb e "r" then cont (ascii_of_nat 13) (json_unquote r')
            else if Ascii.eqb e "t" then cont (ascii_of_nat 9) (json_unquote r')
            else if Ascii.eqb e "u" then
              match r' with
              | String z1 (String z2 (String h1 (String h2 r''))) =>
                  if Ascii.eqb z1 "0" && Ascii.eqb z2 "0" then
                    match hex_val h1, hex_val h2 with
                    | Some a, Some b => cont (ascii_of_nat (16 * a + b)) (json_unquote r'')
                    | _, _ => None
                    end
                  else None
              | _ => None
              end
            else None
        | EmptyString => None
        end
      else cont c (json_unquote r)
  end.

(* ================================================================== *)
(** ** [isCategoryLike] *)

(** [s.replace(/\s+/g, '-')]: every maximal run of white space becomes
    one dash. *)
Fixpoint dash_spaces_aux (in_run : bool) (s : string) : string :=
  match s with
  | EmptyString => EmptyString
  | String c r =>
      if Str.is_space c then
        if in_run then dash_spaces_aux true r
        else String "-" (dash_spaces_aux true r)
      else String c (dash_spaces_aux false r)
  end.

Definition dash_spaces (s : string) : string := dash_spaces_aux false s.

Section CategoryLike.
Context `{RT : Runtime}.

Definition isCategoryLike (name url : jsval) : bool :=
  let n := Str.to_lower (Str.trim (js_String (js_or name (JStr "")))) in
  if negb (Str.non_empty n) then true else
  if is_stopword (dash_spaces n) then true else
  match url_parse (js_String url) MELALEUCA_ORIGIN with
  | None => false
  | Some u =>
      let parts := path_parts (url_pathname u) in
      let rest := match Str.index_of "productstore" parts with
                  | None => parts
                  | Some idx => skipn (S idx) parts
                  end in
      if (length rest <=? 1)%nat then true
      else if forallb is_stopword rest then true
      else false
  end.

End CategoryLike.

(* ================================================================== *)
(** ** [parseProductsFromHTML]

    The page's JSON-LD blocks are walked by [pushNode]; below three
    products and with cheerio loaded, the items the anchor walk pushes
    ([cards html baseUrl], in document order, up to a throw inside the
    walk, which its [try] swallows) are appended; the items are then
    deduplicated on [(p.url || p.name).toLowerCase()], filtered and
    ranked. *)

(** [fs[k]] on an object's fields, with [f] applied to the value. *)
Fixpoint field_map {B : Type} (f : jsval -> B) (k : string)
    (fs : list (string * jsval)) : option (jsval * B) :=
  match fs with
  | [] => None
  | (k', v) :: r => if String.eqb k k' then Some (v, f v) else field_map f k r
  end.

(** Size of a value, for well-founded arguments over nested values. *)
Fixpoint jsize (v : jsval) : nat :=
  match v with
  | JArr l => S (list_sum (map jsize l))
  | JObj fs => S (list_sum (map (fun kv => jsize (snd kv)) fs))
  | _ => 1%nat
  end.

Module Html.
Section Parse.
Context `{RT : Runtime} `{MK : Markup}.

(** The items [pushNode(n)] pushes, in order. *)
Fixpoint pushNode (baseUrl : string) (n : jsval) {struct n} : list jsval :=
  let leaf := match normalizeProductFromJSONLD n baseUrl with
              | Some p => [p]
              | None => []
              end in
  if negb (truthy n) then [] else
  match n with
  | JArr l => flat_map (pushNode baseUrl) l
  | JObj fs =>
      let rest :=
        let types := jsonld_types n in
        let ile :=
          if Str.mem "ItemList" types then
            field_map (fun v => match v with
                                | JArr els =>
                                    Some (flat_map (fun el =>
                                      if truthy el then
                                        match el with
                                        | JObj gs =>
                                            match field_map (pushNode baseUrl) "item" gs with
                                            | Some (it, pit) =>
                                                if truthy it then pit else pushNode baseUrl el
                                            | None => pushNode baseUrl el
                                            end
                                        | JArr _ => pushNode baseUrl el
                                        | _ => []
                                        end
                                      else []) els)
                                | _ => None
                                end) "itemListElement" fs
          else None in
        match ile with
        | Some (_, Some out) => out
        | _ =>
            if Str.mem "ListItem" types then
              match field_map (pushNode baseUrl) "item" fs with
              | Some (it, pit) => if truthy it then pit else leaf
              | None => leaf
              end
            else leaf
        end in
      match field_map (pushNode baseUrl) "@graph" fs with
      | Some (g, pg) => if truthy g then pg else rest
      | None => rest
      end
  | _ => leaf
  end.

(** [(p.url || p.name).toLowerCase()]; [None] when that value is not a
    string, where [toLowerCase] is not a function and the call throws. *)
Definition dedup_key (p : jsval) : option string :=
  match js_or (get p "url") (get p "name") with
  | JStr s => Some (Str.to_lower s)
  | _ => None
  end.

(** Whether [p]'s dedup key is [k]. *)
Definition key_is (k : string) (p : jsval) : bool :=
  match dedup_key p with Some k' => String.eqb k' k | None => false end.

(** The values of the [Map] [dedup] after the loop, in insertion order:
    the first item of each key. *)
Fixpoint dedup (seen : list string) (items : list jsval) : option (list jsval) :=
  match items with
  | [] => Some []
  | p :: r =>
      match dedup_key p with
      | None => None
      | Some key =>
          if Str.mem key seen then dedup seen r
          else option_map (cons p) (dedup (seen ++ [key]) r)
      end
  end.

(** [isLikelyProductDetailUrl(p.url) || (typeof p.price === 'number' && p.price > 0)]. *)
Definition keep (p : jsval) : bool :=
  isLikelyProductDetailUrl (get p "url") ||
  match get p "price" with JNum q => negb (Qle_bool q 0) | _ => false end.

Definition collect_items (cheerio : bool) (cards : string -> string -> list jsval)
    (html baseUrl : string) : list jsval :=
  let items := flat_map (pushNode baseUrl) (extractJSONLDBlocks html) in
  if (length items <? 3)%nat && cheerio then items ++ cards html baseUrl else items.

(** [None] when the function throws. *)
Definition parseProductsFromHTML (cheerio : bool) (cards : string -> string -> list jsval)
    (html baseUrl : string) : option (list jsval) :=
  match dedup [] (collect_items cheerio cards html baseUrl) with
  | None => None
  | Some list => Some (prioritizeProducts (List.filter keep list))
  end.

End Parse.
End Html.

(** A page whose JSON-LD blocks are [blocks]. *)
Definition blocks_markup (blocks : list jsval) : Markup :=
  {| extractJSONLDBlocks := fun _ => blocks;
     parseProductsFromHTML := fun _ _ => [];
     bing_result_hrefs := fun _ => [];
     extract_locs := fun _ => [] |}.

(** A Product with a numeric name, no [url] and a priced offer. *)
Definition numeric_name_product : jsval :=
  JObj [("@type", JStr "Product"); ("name", JNum 42);
        ("offers", JObj [("price", JNum 5)])].

(** An ItemList wrapping a ListItem wrapping a Product. *)
Definition item_list_node : jsval :=
  JObj [("@type", JStr "ItemList");
        ("itemListElement",
          JArr [JObj [("@type", JStr "ListItem");
                      ("item", JObj [("@type", JStr "Product"); ("name", JStr "Soap");
                                     ("url", JStr "/productstore/soap/sku2")])]])].

(** A catalog holding one soap priced 5. *)
Definition priced_soap : jsval := JObj [("name", JStr "soap"); ("price", JNum 5)].
Definition catalog_priced : jsval := JObj [("products", JArr [priced_soap])].

(* ================================================================== *)
(** ** Theorems: URL classifier *)

Section ClassifierProofs.
Context `{RT : Runtime}.

Lemma classifier_factors (u : jsval) :
  isLikelyProductDetailUrl u =
  match residual_segments u with
  | None => false
  | Some rest => spec_detail_decision rest
  end.
Proof.
  unfold isLikelyProductDetailUrl, residual_segments, spec_detail_decision.
  destruct (negb (truthy u) || str_throws u); [reflexivity|].
  destruct (url_parse (js_String u) MELALEUCA_ORIGIN) as [url|]; [|reflexivity].
  destruct (Str.index_of "productstore" (path_parts (url_pathname url))); reflexivity.
Qed.

(** C1: the classifier is exactly the rule cascade over the residual
    segments after the [productstore] marker (false without a marker,
    false under two segments, false when all are stop-terms, then
    keyword, depth three, digit); an all-stop-term residual is never
    detail-likely; and a residual [cat/sku123] is accepted, by the digit
    rule only (no keyword, depth two, and [cat/sku] is rejected). *)
Theorem isLikelyProductDetailUrl_spec (u : jsval) :
  isLikelyProductDetailUrl u =
    match residual_segments u with
    | None => false
    | Some rest => spec_detail_decision rest
    end
  /\ (forall rest, residual_segments u = Some rest ->
        forallb is_stopword rest = true -> isLikelyProductDetailUrl u = false)
  /\ (residual_segments u = Some ["cat"; "sku123"] ->
        isLikelyProductDetailUrl u = true
        /\ existsb has_detail_keyword ["cat"; "sku123"] = false
        /\ (length ["cat"; "sku123"] < 3)%nat
        /\ existsb Str.has_digit ["cat"; "sku123"] = true
        /\ spec_detail_decision ["cat"; "sku"] = false).
Proof.
  split; [apply classifier_factors|split].
  - intros rest Hr Hs. rewrite classifier_factors, Hr.
    unfold spec_detail_decision. rewrite Hs.
    destruct (length rest <? 2)%nat; reflexivity.
  - intros Hr. rewrite classifier_factors, Hr.
    repeat split; vm_compute; reflexivity || lia.
Qed.

End ClassifierProofs.

Section NormalizeProofs.
Context `{RT : Runtime}.

Lemma normalize_type_gate (node : jsval) (base : string) :
  Str.mem "Product" (jsonld_types node) = false ->
  normalizeProductFromJSONLD node base = None.
Proof.
  intros H. unfold normalizeProductFromJSONLD. rewrite H.
  destruct (_ || _); reflexivity.
Qed.

Lemma normalize_unfold (node : jsval) (base : string) :
  Str.mem "Product" (jsonld_types node) = true ->
  normalizeProductFromJSONLD node base =
  let name := js_or (get node "name") (JStr "") in
  let price := jsonld_price node in
  let url := jsonld_url node base in
  if negb (truthy name) then None else
  if negb (isLikelyProductDetailUrl url) && negb (positive_price price) then None else
  Some (obj [("name", name);
             ("price", JNum (price_or_zero price));
             ("category", JStr (js_String (js_or (js_or (get node "category") (JStr "")) (JStr ""))));
             ("description", JStr (js_String (js_or (js_or (get node "description") (JStr "")) (JStr ""))));
             ("url", url);
             ("image", match get node "image" with JArr l => nth 0 l JUndef | v => v end);
             ("tags", JArr [])]).
Proof.
  intros H. unfold normalizeProductFromJSONLD. rewrite H.
  assert (Hg : (negb (truthy node) || (is_nullish (get node "@type") && is_nullish (get node "@graph"))) = false).
  { unfold jsonld_types in H.
    destruct (is_nullish (get node "@type")) eqn:E.
    - destruct (get node "@type"); try discriminate E; discriminate H.
    - destruct node; try discriminate H; reflexivity. }
  rewrite Hg. reflexivity.
Qed.

End NormalizeProofs.

Lemma offers_loop_find (os : list jsval) :
  match offers_loop os with Some p => p | None => None end =
  match find offer_has_price os with Some o => offer_price o | None => None end.
Proof.
  induction os as [|o r IH]; [reflexivity|].
  simpl. unfold offer_has_price, offer_price.
  destruct (truthy o) eqn:Eo; simpl; [|exact IH].
  destruct (truthy (get o "price")) eqn:Ep; simpl; [rewrite Ep; reflexivity|].
  destruct (truthy (get o "priceSpecification")); simpl; [|exact IH].
  destruct (truthy (get (get o "priceSpecification") "price")); simpl;
    [rewrite Ep; reflexivity|exact IH].
Qed.

Section NormalizeClaim.
Context `{RT : Runtime}.

Lemma normalize_exn_agrees (node : jsval) (base : string) (r : option jsval) :
  normalizeProductFromJSONLD_exn node base = Some r -> r = normalizeProductFromJSONLD node base.
Proof.
  unfold normalizeProductFromJSONLD_exn, normalizeProductFromJSONLD. cbv zeta.
  destruct (_ || _); [intros H; injection H as <-; reflexivity|].
  destruct (existsb str_throws _); [discriminate|].
  destruct (negb (Str.mem _ _)); [intros H; injection H as <-; reflexivity|].
  destruct (negb (truthy _)); [intros H; injection H as <-; reflexivity|].
  destruct (_ && _); [intros H; injection H as <-; reflexivity|].
  destruct (_ || _); [discriminate|]. intros H; injection H as <-; reflexivity.
Qed.

Lemma normalize_exn_types (node : jsval) (base : string) :
  existsb str_throws (toArray (get node "@type")) = false ->
  normalizeProductFromJSONLD_exn node base =
  if Str.mem "Product" (jsonld_types node) then
    let name := js_or (get node "name") (JStr "") in
    let price := jsonld_price node in
    if negb (truthy name) then Some None else
    if negb (isLikelyProductDetailUrl (jsonld_url node base)) && negb (positive_price price) then Some None else
    if str_throws (js_or (js_or (get node "category") (JStr "")) (JStr ""))
       || str_throws (js_or (js_or (get node "description") (JStr "")) (JStr "")) then None else
    Some (normalizeProductFromJSONLD node base)
  else Some None.
Proof.
  intros Ht. destruct (Str.mem "Product" (jsonld_types node)) eqn:Hp.
  - assert (Hg : (negb (truthy node) || (is_nullish (get node "@type") && is_nullish (get node "@graph"))) = false).
    { unfold jsonld_types in Hp.
      destruct (is_nullish (get node "@type")) eqn:E.
      - destruct (get node "@type"); try discriminate E; discriminate Hp.
      - destruct node; try discriminate Hp; reflexivity. }
    unfold normalizeProductFromJSONLD_exn. rewrite Hg, Ht, Hp. cbv beta iota zeta.
    destruct (negb (truthy (js_or (get node "name") (JStr "")))) eqn:E1; [reflexivity|].
    destruct (negb (isLikelyProductDetailUrl (jsonld_url node base)) &&
              negb (positive_price (jsonld_price node))) eqn:E2; [reflexivity|].
    destruct (str_throws _ || str_throws _); [reflexivity|].
    rewrite normalize_unfold by exact Hp. cbv zeta. rewrite E1, E2. reflexivity.
  - unfold normalizeProductFromJSONLD_exn. rewrite Ht, Hp.
    destruct (_ || _); reflexivity.
Qed.

(** C2 (amended): [normalizeProductFromJSONLD] throws a [TypeError]
    when a truthy node's [@type] (or one of its elements) does not
    convert with [String]. Otherwise it returns null when the declared
    type does not include "Product", when the name is falsy, or when the
    node has neither a positive parsed price nor a detail-likely
    (resolved) URL. Otherwise it throws when the category or the
    description does not convert with [String], and else returns a
    product with that name, the node's URL resolved against the base
    URL (kept as is when resolution fails), and as price the
    [parsePrice] value of the first offer that has a truthy price (or
    priceSpecification price), 0 when there is none or it is not a
    number. A "Citrus Soap" node with offer price "$6.99" gives name
    "Citrus Soap" and price 6.99. *)
Theorem normalizeProductFromJSONLD_amended (node : jsval) (base : string) :
  (truthy node = true -> existsb str_throws (toArray (get node "@type")) = true ->
     normalizeProductFromJSONLD_exn node base = None)
  /\ (existsb str_throws (toArray (get node "@type")) = false ->
      Str.mem "Product" (jsonld_types node) = false ->
      normalizeProductFromJSONLD_exn node base = Some None)
  /\ (existsb str_throws (toArray (get node "@type")) = false ->
      truthy (get node "name") = false ->
      normalizeProductFromJSONLD_exn node base = Some None)
  /\ (existsb str_throws (toArray (get node "@type")) = false ->
      isLikelyProductDetailUrl (jsonld_url node base) = false ->
      positive_price (spec_price node) = false ->
      normalizeProductFromJSONLD_exn node base = Some None)
  /\ (existsb str_throws (toArray (get node "@type")) = false ->
      Str.mem "Product" (jsonld_types node) = true ->
      truthy (get node "name") = true ->
      isLikelyProductDetailUrl (jsonld_url node base) = true \/ positive_price (spec_price node) = true ->
      str_throws (js_or (get node "category") (JStr "")) || str_throws (js_or (get node "description") (JStr ""))
        = true ->
      normalizeProductFromJSONLD_exn node base = None)
  /\ (existsb str_throws (toArray (get node "@type")) = false ->
      Str.mem "Product" (jsonld_types node) = true ->
      truthy (get node "name") = true ->
      isLikelyProductDetailUrl (jsonld_url node base) = true \/ positive_price (spec_price node) = true ->
      str_throws (js_or (get node "category") (JStr "")) || str_throws (js_or (get node "description") (JStr ""))
        = false ->
      exists p, normalizeProductFromJSONLD_exn node base = Some (Some p)
        /\ get p "name" = get node "name"
        /\ get p "price" = JNum (price_or_zero (spec_price node))
        /\ get p "url" = jsonld_url node base)
  /\ (exists p, normalizeProductFromJSONLD_exn citrus_soap_node base = Some (Some p)
        /\ get p "name" = JStr "Citrus Soap"
        /\ get p "price" = JNum (699 # 100)).
Proof.
  assert (Hp : jsonld_price node = spec_price node).
  { unfold jsonld_price, spec_price. destruct (truthy (get node "offers")); [|reflexivity].
    apply offers_loop_find. }
  assert (Hjj : forall v, js_or (js_or v (JStr "")) (JStr "") = js_or v (JStr "")).
  { intros v. unfold js_or. destruct (truthy v) eqn:E; [rewrite E; reflexivity|reflexivity]. }
  repeat split.
  - intros Hn Ht. unfold normalizeProductFromJSONLD_exn. rewrite Hn, Ht.
    assert (Hg : is_nullish (get node "@type") = false).
    { destruct (get node "@type"); try reflexivity; discriminate Ht. }
    rewrite Hg. reflexivity.
  - intros Ht Hm. rewrite normalize_exn_types by exact Ht. rewrite Hm. reflexivity.
  - intros Ht Hn. rewrite normalize_exn_types by exact Ht.
    destruct (Str.mem _ _); [|reflexivity]. cbv zeta. unfold js_or at 1. rewrite Hn. reflexivity.
  - intros Ht Hl Hpos. rewrite normalize_exn_types by exact Ht.
    destruct (Str.mem _ _); [|reflexivity]. cbv zeta. rewrite Hl, Hp, Hpos.
    destruct (negb (truthy _)); reflexivity.
  - intros Ht Hm Hn Hor Hc. rewrite normalize_exn_types by exact Ht. rewrite Hm. cbv zeta.
    rewrite !Hjj, Hc.
    assert (Hname : js_or (get node "name") (JStr "") = get node "name")
      by (unfold js_or; rewrite Hn; reflexivity).
    rewrite Hname, Hn, Hp. simpl negb.
    destruct Hor as [Hl|Hpos]; [rewrite Hl|rewrite Hpos, andb_false_r]; reflexivity.
  - intros Ht Hm Hn Hor Hc. rewrite normalize_exn_types by exact Ht. rewrite Hm. cbv zeta.
    rewrite !Hjj, Hc. rewrite normalize_unfold by exact Hm. cbv zeta.
    assert (Hname : js_or (get node "name") (JStr "") = get node "name")
      by (unfold js_or; rewrite Hn; reflexivity).
    rewrite Hname, Hn, Hp.
    destruct Hor as [Hl|Hpos].
    + rewrite Hl. eexists; split; [reflexivity|]. repeat split; reflexivity.
    + rewrite Hpos, andb_false_r. eexists; split; [reflexivity|]. repeat split; reflexivity.
  - eexists; split; [reflexivity|split; reflexivity].
Qed.

End NormalizeClaim.

(** C2 counterexample: the price is not the first offer's price. The
    first offer of [two_offer_node] has price 0 (falsy, so it is
    skipped); the product gets price 5 from the second offer. And the
    function does not always return: a node whose [@type] is an object
    with an own [toString] key throws instead of returning null, and a
    priced Product whose category is such an object throws instead of
    returning a product. *)
Lemma normalizeProductFromJSONLD_first_offer_cx :
  (exists p, @normalizeProductFromJSONLD_exn Toy.runtime two_offer_node "https://www.melaleuca.com/" = Some (Some p)
    /\ get p "price" = JNum 5
    /\ price_or_zero (parsePrice (get (hd JUndef (toArray (get two_offer_node "offers"))) "price")) = 0%Q)
  /\ Str.mem "Product" (@jsonld_types Toy.runtime toString_type_node) = false
  /\ @normalizeProductFromJSONLD_exn Toy.runtime toString_type_node "https://www.melaleuca.com/" = None
  /\ positive_price (spec_price toString_category_node) = true
  /\ @normalizeProductFromJSONLD_exn Toy.runtime toString_category_node "https://www.melaleuca.com/" = None.
Proof.
  split; [vm_compute; eexists; split; [reflexivity | split; reflexivity]|].
  vm_compute. repeat split.
Qed.

(* ================================================================== *)
(** ** Theorems: the stable sort *)

Section SortProps.
Context {A K : Type} (key : A -> K) (klt keqb : K -> K -> bool).
Hypothesis keqb_spec : forall x y, keqb x y = true <-> x = y.
Hypothesis klt_irrefl : forall x, klt x x = false.
Hypothesis klt_trans : forall x y z, klt x y = true -> klt y z = true -> klt x z = true.
Hypothesis klt_total : forall x y, x <> y -> klt x y = true \/ klt y x = true.

Let aft (a b : A) : bool := klt (key b) (key a).
Let R (a b : A) : Prop := klt (key b) (key a) = false.
Let flt (k : K) (l : list A) : list A := List.filter (fun a => keqb (key a) k) l.

Lemma klt_asym x y : klt x y = true -> klt y x = false.
Proof.
  intros H. destruct (klt y x) eqn:E; [|reflexivity].
  pose proof (klt_trans _ _ _ H E) as Hx. rewrite klt_irrefl in Hx. discriminate.
Qed.

Lemma R_trans : forall a b c, R a b -> R b c -> R a c.
Proof.
  unfold R. intros a b c H1 H2. destruct (klt (key c) (key a)) eqn:E; [|reflexivity].
  destruct (keqb (key b) (key a)) eqn:Eq.
  - apply keqb_spec in Eq. rewrite Eq in H2. congruence.
  - assert (Hne : key a <> key b).
    { intros He. rewrite He in Eq. assert (keqb (key b) (key b) = true) by (apply keqb_spec; reflexivity).
      congruence. }
    destruct (klt_total _ _ Hne) as [H|H].
    + rewrite (klt_trans _ _ _ E H) in H2. discriminate.
    + congruence.
Qed.

Lemma sort_insert_perm (x : A) (l : list A) : Permutation (sort_insert aft x l) (x :: l).
Proof.
  induction l as [|y r IH]; simpl; [reflexivity|].
  destruct (aft y x); [reflexivity|].
  rewrite IH. apply perm_swap.
Qed.

Lemma fold_insert_perm (l acc : list A) :
  Permutation (fold_left (fun acc x => sort_insert aft x acc) l acc) (l ++ acc).
Proof.
  revert acc. induction l as [|x l IH]; intros acc; simpl; [reflexivity|].
  rewrite IH, sort_insert_perm. symmetry. apply Permutation_middle.
Qed.

Lemma js_sort_perm (l : list A) : Permutation (js_sort aft l) l.
Proof. unfold js_sort. rewrite fold_insert_perm, app_nil_r. reflexivity. Qed.

Lemma sort_insert_hd (x z : A) (l : list A) :
  R z x -> HdRel R z l -> HdRel R z (sort_insert aft x l).
Proof.
  intros Hzx Hz. destruct l as [|y r]; simpl.
  - constructor; exact Hzx.
  - destruct (aft y x); constructor; [exact Hzx|]. inversion Hz; assumption.
Qed.

Lemma sort_insert_sorted (x : A) (l : list A) :
  Sorted R l -> Sorted R (sort_insert aft x l).
Proof.
  induction l as [|y r IH]; intros Hs; simpl.
  - constructor; constructor.
  - unfold aft at 1. destruct (klt (key x) (key y)) eqn:E.
    + constructor; [exact Hs|]. constructor. unfold R. apply klt_asym, E.
    + inversion Hs as [|? ? Hr Hh]; subst. constructor; [apply IH, Hr|].
      apply sort_insert_hd; [exact E|exact Hh].
Qed.

Lemma sorted_no_below (k : K) (y : A) (r : list A) :
  Sorted R (y :: r) -> klt k (key y) = true -> flt k (y :: r) = [].
Proof.
  unfold flt. intros Hs Hk. apply Sorted_StronglySorted in Hs; [|intros ? ? ?; apply R_trans].
  induction r as [|z r IH] in y, Hs, Hk |- *.
  - simpl. destruct (keqb (key y) k) eqn:E; [|reflexivity].
    apply keqb_spec in E. rewrite E, klt_irrefl in Hk. discriminate.
  - simpl. destruct (keqb (key y) k) eqn:E.
    + apply keqb_spec in E. rewrite E, klt_irrefl in Hk. discriminate.
    + inversion Hs as [|? ? Hs' Hall]; subst.
      inversion Hall as [|? ? Hyz _]; subst.
      apply IH; [exact Hs'|].
      unfold R in Hyz. destruct (keqb (key z) (key y)) eqn:Ez.
      * apply keqb_spec in Ez. rewrite Ez. exact Hk.
      * assert (Hne : key y <> key z).
        { intros He. rewrite He in Ez. assert (keqb (key z) (key z) = true) by (apply keqb_spec; reflexivity).
          congruence. }
        destruct (klt_total _ _ Hne) as [H|H]; [exact (klt_trans _ _ _ Hk H)|congruence].
Qed.

Lemma sort_insert_stable (k : K) (x : A) (l : list A) :
  Sorted R l -> flt k (sort_insert aft x l) = flt k l ++ flt k [x].
Proof.
  induction l as [|y r IH]; intros Hs; [reflexivity|].
  simpl sort_insert. unfold aft at 1. destruct (klt (key x) (key y)) eqn:E.
  - destruct (keqb (key x) k) eqn:Ex.
    + apply keqb_spec in Ex. subst k.
      pose proof (sorted_no_below _ _ _ Hs E) as Hn. unfold flt in *.
      assert (Hx : keqb (key x) (key x) = true) by (apply keqb_spec; reflexivity).
      simpl in Hn |- *. rewrite Hx, Hn. reflexivity.
    + unfold flt. simpl. rewrite Ex. simpl. rewrite app_nil_r. reflexivity.
  - inversion Hs as [|? ? Hr _]; subst. unfold flt in *. simpl.
    destruct (keqb (key y) k); simpl; f_equal; try apply IH; try exact Hr.
Qed.

Lemma fold_insert_sorted (l acc : list A) :
  Sorted R acc -> Sorted R (fold_left (fun acc x => sort_insert aft x acc) l acc).
Proof.
  revert acc. induction l as [|x l IH]; intros acc Hs; simpl; [exact Hs|].
  apply IH, sort_insert_sorted, Hs.
Qed.

Lemma fold_insert_stable (k : K) (l acc : list A) :
  Sorted R acc ->
  flt k (fold_left (fun acc x => sort_insert aft x acc) l acc) = flt k acc ++ flt k l.
Proof.
  revert acc. induction l as [|x l IH]; intros acc Hs; simpl.
  - rewrite app_nil_r. reflexivity.
  - rewrite (IH _ (sort_insert_sorted x acc Hs)).
    rewrite (sort_insert_stable k x acc Hs). rewrite <- app_assoc.
    unfold flt. simpl. destruct (keqb (key x) k); reflexivity.
Qed.

(** The sort orders by key and is stable: the elements of each key
    keep their input order. *)
Lemma js_sort_sorted (l : list A) : Sorted R (js_sort aft l).
Proof. apply fold_insert_sorted. constructor. Qed.

Lemma js_sort_stable (k : K) (l : list A) : flt k (js_sort aft l) = flt k l.
Proof. unfold js_sort. rewrite fold_insert_stable by constructor. reflexivity. Qed.

End SortProps.

Section SortExt.
Context {A : Type}.

Lemma sort_insert_ext (f g : A -> A -> bool) (x : A) (l : list A) :
  (forall a b, f a b = g a b) -> sort_insert f x l = sort_insert g x l.
Proof.
  intros Hfg. induction l as [|y r IH]; simpl; [reflexivity|].
  rewrite Hfg, IH. reflexivity.
Qed.

Lemma js_sort_ext (f g : A -> A -> bool) (l : list A) :
  (forall a b, f a b = g a b) -> js_sort f l = js_sort g l.
Proof.
  intros Hfg. unfold js_sort. generalize (@nil A) as acc.
  induction l as [|x l IH]; intros acc; simpl; [reflexivity|].
  rewrite (sort_insert_ext f g x acc Hfg). apply IH.
Qed.

End SortExt.

(* ================================================================== *)
(** ** Theorems: the ranker *)

Ltac lex3_solve :=
  repeat match goal with
         | x : (Z * Z * Z)%type |- _ => destruct x as [[? ?] ?]
         end;
  unfold lex3_lt, lex3_eqb in *;
  repeat match goal with
         | |- context [Z.ltb ?a ?b] => destruct (Z.ltb_spec a b)
         | |- context [Z.eqb ?a ?b] => destruct (Z.eqb_spec a b)
         | H : context [Z.ltb ?a ?b] |- _ => destruct (Z.ltb_spec a b)
         | H : context [Z.eqb ?a ?b] |- _ => destruct (Z.eqb_spec a b)
         end;
  simpl in *; try congruence; try (split; congruence); try lia.

Lemma lex3_eqb_spec (x y : Z * Z * Z) : lex3_eqb x y = true <-> x = y.
Proof.
  destruct x as [[x1 x2] x3], y as [[y1 y2] y3]. unfold lex3_eqb.
  rewrite !andb_true_iff, !Z.eqb_eq. split.
  - intros [[-> ->] ->]. reflexivity.
  - intros H. inversion H. auto.
Qed.

Lemma lex3_irrefl (x : Z * Z * Z) : lex3_lt x x = false.
Proof. lex3_solve. Qed.

Lemma lex3_trans (x y z : Z * Z * Z) :
  lex3_lt x y = true -> lex3_lt y z = true -> lex3_lt x z = true.
Proof. intros H1 H2. lex3_solve. Qed.

Lemma lex3_total (x y : Z * Z * Z) : x <> y -> lex3_lt x y = true \/ lex3_lt y x = true.
Proof.
  intros Hne. destruct x as [[x1 x2] x3], y as [[y1 y2] y3]. unfold lex3_lt.
  destruct (Z.lt_trichotomy x1 y1) as [H1|[H1|H1]];
  [left; apply orb_true_iff; left; apply Z.ltb_lt; lia| |right; apply orb_true_iff; left; apply Z.ltb_lt; lia].
  subst y1. destruct (Z.lt_trichotomy x2 y2) as [H2|[H2|H2]].
  - left. rewrite !Z.eqb_refl, (proj2 (Z.ltb_lt _ _) H2). apply orb_true_r.
  - subst y2. destruct (Z.lt_trichotomy x3 y3) as [H3|[H3|H3]].
    + left. rewrite !Z.eqb_refl, !Z.ltb_irrefl, (proj2 (Z.ltb_lt _ _) H3). reflexivity.
    + subst. congruence.
    + right. rewrite !Z.eqb_refl, !Z.ltb_irrefl, (proj2 (Z.ltb_lt _ _) H3). reflexivity.
  - right. rewrite !Z.eqb_refl, (proj2 (Z.ltb_lt _ _) H2). apply orb_true_r.
Qed.

Section RankerProofs.
Context `{RT : Runtime}.

Lemma prioritize_cmp_pos (a b : jsval) :
  (0 <? prioritize_cmp a b)%Z = lex3_lt (rank_key b) (rank_key a).
Proof.
  unfold prioritize_cmp, rank_key, lex3_lt.
  destruct (Z.eqb_spec (detail_flag a) (detail_flag b)) as [E1|E1]; simpl.
  - rewrite E1, Z.ltb_irrefl, Z.eqb_refl. simpl.
    destruct (Z.eqb_spec (price_flag a) (price_flag b)) as [E2|E2]; simpl.
    + rewrite E2, Z.ltb_irrefl, Z.eqb_refl. simpl.
      destruct (Z.ltb_spec 0 (name_length b - name_length a)),
               (Z.ltb_spec (- name_length b) (- name_length a)); reflexivity || lia.
    + destruct (Z.ltb_spec 0 (price_flag b - price_flag a)),
               (Z.ltb_spec (- price_flag b) (- price_flag a)),
               (Z.eqb_spec (- price_flag b) (- price_flag a)); simpl; reflexivity || lia.
  - destruct (Z.ltb_spec 0 (detail_flag b - detail_flag a)),
             (Z.ltb_spec (- detail_flag b) (- detail_flag a)),
             (Z.eqb_spec (- detail_flag b) (- detail_flag a)); simpl; reflexivity || lia.
Qed.

Lemma prioritizeProducts_by_key (items : list jsval) :
  prioritizeProducts items = js_sort (fun a b => lex3_lt (rank_key b) (rank_key a)) items.
Proof. apply js_sort_ext, prioritize_cmp_pos. Qed.

(** The ranking example: with A not detail (price 0, name "x"), B detail
    (price 0, "y") and C detail (price 5, "z") the order is [C, B, A]. *)
Lemma prioritizeProducts_ABC :
  isLikelyProductDetailUrl (get prodA "url") = false ->
  isLikelyProductDetailUrl (get prodB "url") = true ->
  isLikelyProductDetailUrl (get prodC "url") = true ->
  prioritizeProducts [prodA; prodB; prodC] = [prodC; prodB; prodA].
Proof.
  intros HA HB HC.
  assert (dA : detail_flag prodA = 0%Z) by (unfold detail_flag; rewrite HA; reflexivity).
  assert (dB : detail_flag prodB = 1%Z) by (unfold detail_flag; rewrite HB; reflexivity).
  assert (dC : detail_flag prodC = 1%Z) by (unfold detail_flag; rewrite HC; reflexivity).
  assert (cAB : prioritize_cmp prodA prodB = 1%Z)
    by (unfold prioritize_cmp; rewrite dA, dB; reflexivity).
  assert (cBC : prioritize_cmp prodB prodC = 1%Z)
    by (unfold prioritize_cmp; rewrite dB, dC; reflexivity).
  unfold prioritizeProducts, js_sort. cbn -[prioritize_cmp].
  rewrite cAB. cbn -[prioritize_cmp]. rewrite cBC. reflexivity.
Qed.

End RankerProofs.

Section SortMProps.
Context {A : Type} (afterM : A -> A -> option bool) (after : A -> A -> bool).
Hypothesis agree : forall a b c, afterM a b = Some c -> c = after a b.

Lemma sort_insertM_some (x : A) (l out : list A) :
  sort_insertM afterM x l = Some out -> out = sort_insert after x l.
Proof.
  revert out. induction l as [|y r IH]; intros out H; simpl in H |- *.
  - injection H as <-. reflexivity.
  - destruct (afterM y x) as [[|]|] eqn:E; try discriminate.
    + rewrite <- (agree _ _ _ E). injection H as <-. reflexivity.
    + rewrite <- (agree _ _ _ E).
      destruct (sort_insertM afterM x r) as [o|] eqn:Er; [|discriminate].
      injection H as <-. f_equal. apply IH. reflexivity.
Qed.

Lemma fold_sortM_none (l : list A) :
  fold_left (fun acc x => match acc with Some acc => sort_insertM afterM x acc | None => None end) l None
  = None.
Proof. induction l as [|x l IH]; [reflexivity|exact IH]. Qed.

Lemma fold_sortM_some (l acc out : list A) :
  fold_left (fun acc x => match acc with Some acc => sort_insertM afterM x acc | None => None end)
            l (Some acc) = Some out ->
  out = fold_left (fun acc x => sort_insert after x acc) l acc.
Proof.
  revert acc. induction l as [|x l IH]; intros acc H; simpl in H |- *.
  - injection H as <-. reflexivity.
  - destruct (sort_insertM afterM x acc) as [o|] eqn:E.
    + rewrite <- (sort_insertM_some _ _ _ E). apply IH, H.
    + rewrite fold_sortM_none in H. discriminate.
Qed.

Lemma js_sortM_some (l out : list A) : js_sortM afterM l = Some out -> out = js_sort after l.
Proof. apply fold_sortM_some. Qed.

End SortMProps.

Section RankerThrow.
Context `{RT : Runtime}.

Let afterM (a b : jsval) : option bool := option_map (fun c => (0 <? c)%Z) (prioritize_cmpM a b).
Let aft (a b : jsval) : bool := lex3_lt (rank_key b) (rank_key a).
Let R (a b : jsval) : Prop := lex3_lt (rank_key b) (rank_key a) = false.
Let Pt (x y : jsval) : bool := same_flags x y && (name_throws x || name_throws y).

Lemma Pt_sym x y : Pt x y = Pt y x.
Proof.
  unfold Pt, same_flags. rewrite (Z.eqb_sym (detail_flag x)), (Z.eqb_sym (price_flag x)), orb_comm.
  reflexivity.
Qed.

Lemma afterM_spec (y x : jsval) :
  afterM y x = if Pt y x then None else Some (aft y x).
Proof.
  unfold afterM, aft, Pt. rewrite <- prioritize_cmp_pos.
  unfold prioritize_cmpM, prioritize_cmp, same_flags, name_lengthM.
  destruct (Z.eqb_spec (detail_flag y) (detail_flag x)); simpl; [|reflexivity].
  destruct (Z.eqb_spec (price_flag y) (price_flag x)); simpl; [|reflexivity].
  destruct (name_throws y), (name_throws x); reflexivity.
Qed.

Lemma afterM_agree a b c : afterM a b = Some c -> c = aft a b.
Proof. rewrite afterM_spec. destruct (Pt a b); [discriminate|]. intros H; injection H as <-; reflexivity. Qed.

Lemma same_flags_key x y :
  same_flags x y = true <-> (fst (rank_key x) = fst (rank_key y)).
Proof.
  unfold same_flags, rank_key. simpl. rewrite andb_true_iff, !Z.eqb_eq. split.
  - intros [-> ->]. reflexivity.
  - intros H. injection H as H1 H2. lia.
Qed.

(** Keys above a block of flags stay above it. *)
Lemma flags_block x y z :
  same_flags x y = false -> lex3_lt (rank_key x) (rank_key y) = true ->
  lex3_lt (rank_key z) (rank_key y) = false -> same_flags x z = false.
Proof.
  unfold same_flags, lex3_lt, rank_key.
  destruct (Z.eqb_spec (detail_flag x) (detail_flag y)), (Z.eqb_spec (price_flag x) (price_flag y)),
           (Z.eqb_spec (detail_flag x) (detail_flag z)), (Z.eqb_spec (price_flag x) (price_flag z));
    simpl; try reflexivity; try discriminate;
  repeat match goal with
         | |- context [(?a <? ?b)%Z] => destruct (Z.ltb_spec a b)
         | |- context [(?a =? ?b)%Z] => destruct (Z.eqb_spec a b)
         end; simpl; intros; try discriminate; lia.
Qed.

Lemma ranking_throws_cons x l : ranking_throws (x :: l) = existsb (Pt x) l || ranking_throws l.
Proof. reflexivity. Qed.

Lemma existsb_perm {B} (f : B -> bool) l l' : Permutation l l' -> existsb f l = existsb f l'.
Proof.
  intros HP. apply eq_true_iff_eq. rewrite !existsb_exists. split; intros [z [Hz Hf]]; exists z;
    split; try exact Hf; [apply (Permutation_in _ HP)|apply (Permutation_in _ (Permutation_sym HP))]; exact Hz.
Qed.

Lemma ranking_throws_perm l l' : Permutation l l' -> ranking_throws l = ranking_throws l'.
Proof.
  induction 1 as [|x l l' HP IH|x y l|l l' l'' _ IH1 _ IH2].
  - reflexivity.
  - rewrite !ranking_throws_cons, IH. f_equal. apply existsb_perm, HP.
  - rewrite !ranking_throws_cons. simpl. rewrite (Pt_sym y x).
    destruct (Pt x y), (existsb (Pt y) l), (existsb (Pt x) l), (ranking_throws l); reflexivity.
  - congruence.
Qed.

Lemma sorted_above (y z : jsval) (r : list jsval) :
  Sorted R (y :: r) -> In z r -> lex3_lt (rank_key z) (rank_key y) = false.
Proof.
  intros Hs Hz. apply Sorted_StronglySorted in Hs;
    [|intros a b c; apply (R_trans rank_key lex3_lt lex3_eqb lex3_eqb_spec lex3_trans lex3_total)].
  inversion Hs as [|? ? _ Hall]; subst. rewrite List.Forall_forall in Hall. exact (Hall z Hz).
Qed.

Lemma sort_insertM_none (x : jsval) (acc : list jsval) :
  Sorted R acc -> ranking_throws acc = false ->
  (sort_insertM afterM x acc = None <-> existsb (Pt x) acc = true).
Proof.
  induction acc as [|y r IH]; intros Hs Hr; simpl.
  - split; discriminate.
  - rewrite ranking_throws_cons in Hr. apply orb_false_iff in Hr. destruct Hr as [Hyr Hr].
    rewrite afterM_spec, (Pt_sym y x).
    destruct (Pt x y) eqn:Exy; [split; reflexivity|]. simpl.
    destruct (aft y x) eqn:Ea.
    + split; [discriminate|]. intros Hex. exfalso.
      apply existsb_exists in Hex. destruct Hex as [z [Hz Hpz]].
      unfold Pt in Hpz. apply andb_true_iff in Hpz. destruct Hpz as [Hfz Hnz].
      destruct (same_flags x y) eqn:Efy.
      * unfold Pt in Exy. rewrite Efy in Exy. simpl in Exy. apply orb_false_iff in Exy.
        assert (Hyz : Pt y z = false).
        { destruct (Pt y z) eqn:E; [|reflexivity].
          assert (existsb (Pt y) r = true) by (apply existsb_exists; exists z; split; assumption).
          congruence. }
        unfold Pt in Hyz.
        assert (Efyz : same_flags y z = true).
        { apply same_flags_key. apply same_flags_key in Efy, Hfz. congruence. }
        rewrite Efyz in Hyz. simpl in Hyz. apply orb_false_iff in Hyz.
        destruct Exy as [Ex _]. destruct Hyz as [_ Ez]. rewrite Ex, Ez in Hnz. discriminate.
      * unfold aft in Ea.
        rewrite (flags_block x y z Efy Ea (sorted_above y z r Hs Hz)) in Hfz. discriminate.
    + inversion Hs as [|? ? Hsr _]; subst.
      destruct (sort_insertM afterM x r) eqn:Ei; simpl.
      * split; [discriminate|]. intros Hex. apply IH in Hex; [congruence|exact Hsr|exact Hr].
      * split; [intros _|reflexivity]. apply IH; [exact Hsr|exact Hr|reflexivity].
Qed.

Lemma fold_sortM_none_iff (l acc : list jsval) :
  Sorted R acc -> ranking_throws acc = false ->
  (fold_left (fun acc x => match acc with Some acc => sort_insertM afterM x acc | None => None end)
             l (Some acc) = None <-> ranking_throws (acc ++ l) = true).
Proof.
  revert acc. induction l as [|x l IH]; intros acc Hs Hr; simpl.
  - rewrite app_nil_r, Hr. split; discriminate.
  - assert (HP : Permutation (acc ++ x :: l) (x :: acc ++ l)) by (symmetry; apply Permutation_middle).
    rewrite (ranking_throws_perm _ _ HP), ranking_throws_cons.
    destruct (sort_insertM afterM x acc) as [out|] eqn:Ei.
    + pose proof (sort_insertM_some afterM aft afterM_agree x acc out Ei) as Eo.
      assert (Hex : existsb (Pt x) acc = false).
      { destruct (existsb (Pt x) acc) eqn:E; [|reflexivity].
        apply (sort_insertM_none x acc Hs Hr) in E. congruence. }
      assert (Hso : Sorted R out).
      { rewrite Eo. apply (sort_insert_sorted rank_key lex3_lt lex3_irrefl lex3_trans), Hs. }
      assert (Hpo : Permutation out (x :: acc)).
      { rewrite Eo. apply (sort_insert_perm rank_key lex3_lt). }
      assert (Hro : ranking_throws out = false).
      { rewrite (ranking_throws_perm _ _ Hpo), ranking_throws_cons, Hex, Hr. reflexivity. }
      rewrite (IH out Hso Hro).
      assert (HP2 : Permutation (out ++ l) (x :: acc ++ l)) by (apply (Permutation_app_tail l Hpo)).
      rewrite (ranking_throws_perm _ _ HP2), ranking_throws_cons.
      assert (Hex2 : existsb (Pt x) (acc ++ l) = existsb (Pt x) l).
      { rewrite existsb_app, Hex. reflexivity. }
      rewrite Hex2. reflexivity.
    + rewrite fold_sortM_none. split; [intros _|reflexivity].
      apply (sort_insertM_none x acc Hs Hr) in Ei.
      rewrite existsb_app, Ei. reflexivity.
Qed.

Lemma prioritizeProductsM_none (items : list jsval) :
  prioritizeProductsM items = None <-> ranking_throws items = true.
Proof.
  unfold prioritizeProductsM, js_sortM.
  apply (fold_sortM_none_iff items []); [constructor|reflexivity].
Qed.

Lemma prioritizeProductsM_some (items out : list jsval) :
  prioritizeProductsM items = Some out -> out = prioritizeProducts items.
Proof.
  intros H. rewrite prioritizeProducts_by_key. exact (js_sortM_some afterM aft afterM_agree _ _ H).
Qed.

(** C5 (amended): [prioritizeProducts] throws a [TypeError] exactly
    when two items (at distinct positions) have equal detail and price
    flags and the name of one of them does not convert with [String],
    whatever order the engine's sort compares them in (a sort compares
    every pair adjacent in its result). When it returns, it sorts the
    input by the key (detail first, then positive price, then longer
    name), stably: the output is a permutation of the input, ordered by
    the key, and products with equal keys keep their input order. With
    A not detail (price 0, name "x"), B detail (price 0, "y") and C
    detail (price 5, "z") the output is [C, B, A]. *)
Theorem prioritizeProducts_stable_total_order (items : list jsval) :
  (prioritizeProductsM items = None <-> ranking_throws items = true)
  /\ (forall out, prioritizeProductsM items = Some out ->
      Permutation out items
      /\ Sorted (fun a b => lex3_lt (rank_key b) (rank_key a) = false) out
      /\ (forall k, List.filter (fun a => lex3_eqb (rank_key a) k) out
                    = List.filter (fun a => lex3_eqb (rank_key a) k) items))
  /\ (isLikelyProductDetailUrl (get prodA "url") = false ->
      isLikelyProductDetailUrl (get prodB "url") = true ->
      isLikelyProductDetailUrl (get prodC "url") = true ->
      prioritizeProductsM [prodA; prodB; prodC] = Some [prodC; prodB; prodA]).
Proof.
  split; [apply prioritizeProductsM_none|split].
  - intros out H. apply prioritizeProductsM_some in H. subst out.
    rewrite !prioritizeProducts_by_key. split; [|split].
    + apply (js_sort_perm rank_key lex3_lt).
    + apply (js_sort_sorted rank_key lex3_lt lex3_irrefl lex3_trans).
    + intros k. apply (js_sort_stable rank_key lex3_lt lex3_eqb lex3_eqb_spec lex3_irrefl lex3_trans lex3_total).
  - intros HA HB HC.
    destruct (prioritizeProductsM [prodA; prodB; prodC]) as [out|] eqn:E.
    + apply prioritizeProductsM_some in E. rewrite E. f_equal. apply prioritizeProducts_ABC; assumption.
    + apply prioritizeProductsM_none in E. cbn in E. rewrite !andb_false_r in E. discriminate E.
Qed.

End RankerThrow.

Section RankerHeap.
Context `{RT : Runtime}.


End RankerHeap.

(* ================================================================== *)
(** ** Theorems: frames of the pipeline *)

Lemma bind_inv {A B} (m : M A) (k : A -> M B) s o s' :
  bind m k s = (o, s') ->
  (m s = (Thrown, s') /\ o = Thrown) \/ (exists a s1, m s = (Ok a, s1) /\ k a s1 = (o, s')).
Proof.
  unfold bind. destruct (m s) as [[a|] s1]; intros H.
  - right. exists a, s1. split; [reflexivity | exact H].
  - left. inversion H; subst. split; reflexivity.
Qed.

Lemma try_inv {A} (m h : M A) s o s' :
  try_catch m h s = (o, s') ->
  (exists a, m s = (Ok a, s') /\ o = Ok a) \/ (exists s1, m s = (Thrown, s1) /\ h s1 = (o, s')).
Proof.
  unfold try_catch. destruct (m s) as [[a|] s1]; intros H.
  - left. inversion H; subst. eexists; split; reflexivity.
  - right. exists s1. split; [reflexivity | exact H].
Qed.

Section Frame.
Context (Rel : state -> state -> Prop).
Hypothesis Rrefl : forall s, Rel s s.
Hypothesis Rtrans : forall a b c, Rel a b -> Rel b c -> Rel a c.

Lemma frame_ret {A} (a : A) : frame Rel (ret a).
Proof. intros s. apply Rrefl. Qed.

Lemma frame_throw {A} : frame Rel (@throw A).
Proof. intros s. apply Rrefl. Qed.

Lemma frame_bind {A B} (m : M A) (k : A -> M B) :
  frame Rel m -> (forall a, frame Rel (k a)) -> frame Rel (bind m k).
Proof.
  intros Hm Hk s. unfold bind. specialize (Hm s).
  destruct (m s) as [[a|] s1]; simpl in *; [|exact Hm].
  eapply Rtrans; [exact Hm | apply Hk].
Qed.

Lemma frame_try {A} (m h : M A) : frame Rel m -> frame Rel h -> frame Rel (try_catch m h).
Proof.
  intros Hm Hh s. unfold try_catch. specialize (Hm s).
  destruct (m s) as [[a|] s1]; simpl in *; [exact Hm|].
  eapply Rtrans; [exact Hm | apply Hh].
Qed.

Lemma frame_now : frame Rel now.
Proof. intros s. apply Rrefl. Qed.

Lemma frame_cache_get k : frame Rel (cache_get k).
Proof. intros s. apply Rrefl. Qed.

Lemma frame_sitemap_get : frame Rel sitemap_get.
Proof. intros s. apply Rrefl. Qed.

Lemma frame_read_catalog : frame Rel read_catalog.
Proof. intros s. apply Rrefl. Qed.

End Frame.

Create HintDb frame.
#[export] Hint Resolve frame_ret frame_throw frame_now frame_cache_get frame_sitemap_get
  frame_read_catalog : frame.

Ltac frame_tac :=
  repeat first
    [ progress (eauto with frame)
    | apply frame_bind; [ eauto with frame | | intro ]
    | apply frame_try; [ eauto with frame | | ]
    | match goal with
      | |- frame _ (if ?b then _ else _) => destruct b
      | |- frame _ (match ?x with _ => _ end) => destruct x
      end ].

Section PipelineFrame.
Context `{RT : Runtime} `{NET : Network} `{MK : Markup} (cfg : config).
Context (Rel : state -> state -> Prop).
Hypothesis Rrefl : forall s, Rel s s.
Hypothesis Rtrans : forall a b c, Rel a b -> Rel b c -> Rel a c.
Hypothesis Rhttp : forall u, frame Rel (httpGet u).
Hypothesis Rsitemap : forall ts l, frame Rel (sitemap_set ts l).

#[local] Hint Resolve Rhttp Rsitemap : frame.

Lemma frame_httpGet_val u : frame Rel (httpGet_val u).
Proof. unfold httpGet_val. frame_tac. Qed.
#[local] Hint Resolve frame_httpGet_val : frame.

Lemma frame_within_budget t : frame Rel (within_budget cfg t).
Proof. unfold within_budget. frame_tac. Qed.
#[local] Hint Resolve frame_within_budget : frame.

Lemma frame_fhd_loop limit startTs items keep visited maxFetch :
  frame Rel (fhd_loop cfg limit startTs items keep visited maxFetch).
Proof.
  revert keep visited maxFetch. induction items as [|p rest IH]; intros keep visited maxFetch; simpl.
  - frame_tac.
  - frame_tac.
Qed.
#[local] Hint Resolve frame_fhd_loop : frame.

Lemma frame_filterAndHydrateDetails items limit maxFetch startTs :
  frame Rel (filterAndHydrateDetails cfg items limit maxFetch startTs).
Proof. unfold filterAndHydrateDetails. frame_tac. Qed.
#[local] Hint Resolve frame_filterAndHydrateDetails : frame.

Lemma frame_searchViaBingProducts q limit startTs :
  frame Rel (searchViaBingProducts cfg q limit startTs).
Proof. unfold searchViaBingProducts. frame_tac. Qed.
#[local] Hint Resolve frame_searchViaBingProducts : frame.

Lemma frame_sitemap_children cand urls : frame Rel (sitemap_children cand urls).
Proof.
  revert urls. induction cand as [|u r IH]; intros urls; simpl; frame_tac.
Qed.
#[local] Hint Resolve frame_sitemap_children : frame.

Lemma frame_fetchSitemapUrls : frame Rel fetchSitemapUrls.
Proof. unfold fetchSitemapUrls. frame_tac. Qed.
#[local] Hint Resolve frame_fetchSitemapUrls : frame.

Lemma frame_searchViaSitemap q limit startTs : frame Rel (searchViaSitemap cfg q limit startTs).
Proof. unfold searchViaSitemap. frame_tac. Qed.
#[local] Hint Resolve frame_searchViaSitemap : frame.

Lemma frame_has_basics p : frame Rel (has_basics p).
Proof. unfold has_basics. frame_tac. Qed.
#[local] Hint Resolve frame_has_basics : frame.

Lemma frame_enrich_loop maxFetch ps fetched changed :
  frame Rel (enrich_loop maxFetch ps fetched changed).
Proof.
  revert fetched changed. induction ps as [|p rest IH]; intros fetched changed; simpl; frame_tac.
Qed.
#[local] Hint Resolve frame_enrich_loop : frame.

Lemma frame_enrich_thin items : frame Rel (enrich_thin items).
Proof. unfold enrich_thin, enrichFromDetailPages. frame_tac. Qed.

Lemma frame_try_alternate q startTs items usedUrl :
  frame Rel (try_alternate cfg q startTs items usedUrl).
Proof. unfold try_alternate. frame_tac. Qed.

Lemma frame_fallbacks q limit startTs : frame Rel (fallbacks cfg q limit startTs).
Proof. unfold fallbacks. frame_tac. Qed.

End PipelineFrame.

Section RemoteCache.
Context `{RT : Runtime} `{NET : Network} `{MK : Markup} (cfg : config).

Lemma same_cache_refl s : same_cache s s.
Proof. reflexivity. Qed.
Lemma same_cache_trans a b c : same_cache a b -> same_cache b c -> same_cache a c.
Proof. unfold same_cache. congruence. Qed.
Lemma same_cache_httpGet u : frame same_cache (httpGet u).
Proof. intros s. unfold httpGet, same_cache. destruct (http_outcome u); reflexivity. Qed.
Lemma same_cache_sitemap_set ts l : frame same_cache (sitemap_set ts l).
Proof. intros s. reflexivity. Qed.

#[local] Hint Resolve same_cache_refl same_cache_trans same_cache_httpGet same_cache_sitemap_set
  frame_within_budget frame_filterAndHydrateDetails frame_try_alternate frame_fallbacks
  frame_enrich_thin : frame.

Ltac sc_fact Hm :=
  match type of Hm with
  | ?m ?s0 = (_, ?s1) =>
     let F := fresh "F" in
     assert (F : same_cache s0 s1) by
       (let E := fresh in pose proof (f_equal snd Hm) as E; cbn [snd] in E; rewrite <- E;
        let FR := fresh in assert (FR : frame same_cache m) by frame_tac; apply FR)
  end.

Ltac sc_run H :=
  repeat
    (apply bind_inv in H;
     let Hm := fresh "Hm" in let Ho := fresh "Ho" in let a := fresh "a" in let s1 := fresh "s" in
     destruct H as [[Hm Ho] | [a [s1 [Hm H]]]];
     [ sc_fact Hm; subst; unfold same_cache in *; congruence
     | sc_fact Hm;
       match type of a with
       | (_ * _)%type => let x := fresh "x" in let y := fresh "y" in destruct a as [x y]; cbv beta iota in H
       | _ => idtac
       end ]).

Lemma remote_resolve_cache key q category maxPrice limit t0 urlPrimary s o s' :
  remote_resolve cfg key q category maxPrice limit t0 urlPrimary s = (o, s') ->
  match o with
  | Ok r => r_cached r = false /\
            ((r_items r = [] /\ search_cache s' = search_cache s) \/
             (r_items r <> [] /\
              search_cache s' = <[key := {| e_ts := t0; e_items := r_items r; e_url := r_url r |}]>
                                  (search_cache s)))
  | Thrown => search_cache s' = search_cache s
  end.
Proof.
  unfold remote_resolve. cbv zeta. intros H.
  sc_run H.
  destruct (nonempty_list a2) eqn:En.
  - apply bind_inv in H. destruct H as [[Hc Ho] | [u [s5 [Hc H]]]]; [discriminate|].
    unfold cache_set in Hc. injection Hc as <- <-. unfold ret in H. injection H as <- <-. simpl.
    split; [reflexivity|]. right. split.
    + destruct a2; [discriminate | congruence].
    + unfold same_cache in *. simpl. f_equal. congruence.
  - apply bind_inv in H. destruct H as [[Hc Ho] | [u [s5 [Hc H]]]]; [discriminate|].
    unfold ret in Hc, H. injection Hc as <- <-. injection H as <- <-. simpl.
    split; [reflexivity|]. left. split.
    + destruct a2; [reflexivity | discriminate].
    + unfold same_cache in *. congruence.
Qed.

Lemma later_refl s : later s s.
Proof. split; [lia | exists []; rewrite app_nil_r; reflexivity]. Qed.
Lemma later_trans a b c : later a b -> later b c -> later a c.
Proof.
  intros [H1 [l1 E1]] [H2 [l2 E2]]. split; [lia|]. exists (l1 ++ l2). rewrite E2, E1, app_assoc. reflexivity.
Qed.
Lemma later_httpGet (Hlat : forall u, (0 <= http_latency u)%Z) u : frame later (httpGet u).
Proof.
  intros s. unfold httpGet. specialize (Hlat u).
  destruct (http_outcome u); (split; [simpl; lia | exists [u]; reflexivity]).
Qed.
Lemma later_sitemap_set ts l : frame later (sitemap_set ts l).
Proof. intros s. split; [simpl; lia | exists []; simpl; rewrite app_nil_r; reflexivity]. Qed.
Lemma later_cache_set k e : frame later (cache_set k e).
Proof. intros s. split; [simpl; lia | exists []; simpl; rewrite app_nil_r; reflexivity]. Qed.

#[local] Hint Resolve later_refl later_trans later_sitemap_set later_cache_set : frame.

Lemma later_remote_resolve (Hlat : forall u, (0 <= http_latency u)%Z)
      key q category maxPrice limit t0 urlPrimary :
  frame later (remote_resolve cfg key q category maxPrice limit t0 urlPrimary).
Proof. pose proof (later_httpGet Hlat). unfold remote_resolve. frame_tac. Qed.

(** After a miss the first thing the resolution does is request the
    primary search page. *)
Lemma remote_resolve_logs_primary (Hlat : forall u, (0 <= http_latency u)%Z)
      key q category maxPrice limit t0 urlPrimary s :
  exists l, fetch_log (snd (remote_resolve cfg key q category maxPrice limit t0 urlPrimary s))
            = fetch_log s ++ urlPrimary :: l.
Proof.
  pose proof (later_httpGet Hlat).
  assert (H1 : forall o s1, try_catch (httpGet urlPrimary) (ret EmptyString) s = (o, s1) ->
                            fetch_log s1 = fetch_log s ++ [urlPrimary]).
  { unfold try_catch, httpGet, ret. destruct (http_outcome urlPrimary);
      intros o s1 E; inversion E; reflexivity. }
  unfold remote_resolve. cbv zeta.
  match goal with
  | |- context [bind (try_catch (httpGet urlPrimary) (ret EmptyString)) ?k s] =>
      assert (Fk : forall a, frame later (k a)) by (intro; frame_tac); set (K := k) in *
  end.
  unfold bind at 1.
  destruct (try_catch (httpGet urlPrimary) (ret EmptyString) s) as [[html|] s1] eqn:E.
  - destruct (Fk html s1) as [_ [l Hl]]. exists l. rewrite Hl, (H1 _ _ eq_refl), <- app_assoc. reflexivity.
  - exists []. simpl. rewrite (H1 _ _ eq_refl). reflexivity.
Qed.

Lemma remote_hit_later TTL t t' c :
  remote_hit TTL t c = false -> (t <= t')%Z -> remote_hit TTL t' c = false.
Proof.
  destruct c as [e|]; simpl; [|reflexivity].
  destruct (nonempty_list (e_items e)); simpl; [|reflexivity].
  intros H Ht. apply Z.ltb_ge in H. apply Z.ltb_ge. lia.
Qed.

Lemma searchRemoteProducts_miss q category maxPrice limit s :
  SCRAPE_ENABLED cfg = true ->
  remote_hit (SCRAPE_CACHE_TTL_MS cfg) (clock s)
             (search_cache s !! query_key "remote" q category maxPrice limit) = false ->
  searchRemoteProducts cfg q category maxPrice limit s
  = remote_resolve cfg (query_key "remote" q category maxPrice limit) q category maxPrice limit
      (clock s) (Str.replace_first "{q}" (Str.encode_uri_component q) (SCRAPE_SEARCH_URL cfg)) s.
Proof.
  intros En Hm. unfold searchRemoteProducts. rewrite En. cbv [negb]. cbv beta iota zeta.
  unfold bind at 1 2, now, cache_get. cbv beta iota.
  destruct (search_cache s !! query_key "remote" q category maxPrice limit) as [e|];
    [rewrite Hm|]; reflexivity.
Qed.

Lemma searchRemoteProducts_hit q category maxPrice limit s e :
  SCRAPE_ENABLED cfg = true ->
  search_cache s !! query_key "remote" q category maxPrice limit = Some e ->
  remote_hit (SCRAPE_CACHE_TTL_MS cfg) (clock s) (Some e) = true ->
  searchRemoteProducts cfg q category maxPrice limit s
  = (Ok {| r_items := e_items e;
           r_url := if Str.non_empty (e_url e) then e_url e
                    else Str.replace_first "{q}" (Str.encode_uri_component q) (SCRAPE_SEARCH_URL cfg);
           r_cached := true |}, s).
Proof.
  intros En Hc Hm. unfold searchRemoteProducts. rewrite En. cbv [negb]. cbv beta iota zeta.
  unfold bind at 1 2, now, cache_get. cbv beta iota. rewrite Hc, Hm. reflexivity.
Qed.

(** C3: the remote cache. A result is served from the cache exactly
    when scraping is enabled and the entry under the query's key is
    non-empty and younger than the TTL; it is then that entry's list,
    with no other effect. After a remote resolution the cache is either
    unchanged or holds, under the key, the non-empty list returned
    (stamped with the start time); an empty result leaves the cache
    unchanged, so (time not going back) the same query asked again, with
    scraping enabled, misses the cache and requests the primary search
    page again. *)
Theorem searchRemoteProducts_cache_discipline (Hlat : forall u, (0 <= http_latency u)%Z)
        (q category : string) (maxPrice : option jsnum) (limit : jsnum) (s : state) :
  let key := query_key "remote" q category maxPrice limit in
  let urlPrimary := Str.replace_first "{q}" (Str.encode_uri_component q) (SCRAPE_SEARCH_URL cfg) in
  match searchRemoteProducts cfg q category maxPrice limit s with
  | (Ok r, s') =>
      (r_cached r = true <->
       SCRAPE_ENABLED cfg = true
       /\ remote_hit (SCRAPE_CACHE_TTL_MS cfg) (clock s) (search_cache s !! key) = true)
      /\ (r_cached r = true ->
          exists e, search_cache s !! key = Some e /\ e_items e <> []
                    /\ (clock s - e_ts e < SCRAPE_CACHE_TTL_MS cfg)%Z
                    /\ r_items r = e_items e /\ s' = s)
      /\ (search_cache s' = search_cache s
          \/ (r_items r <> [] /\ r_cached r = false
              /\ search_cache s' = <[key := {| e_ts := clock s; e_items := r_items r;
                                              e_url := r_url r |}]> (search_cache s)))
      /\ (r_items r = [] ->
          search_cache s' = search_cache s
          /\ (SCRAPE_ENABLED cfg = true ->
              exists l, fetch_log (snd (searchRemoteProducts cfg q category maxPrice limit s'))
                        = fetch_log s' ++ urlPrimary :: l))
  | (Thrown, s') => search_cache s' = search_cache s
  end.
Proof.
  cbv zeta.
  destruct (SCRAPE_ENABLED cfg) eqn:En.
  2: { unfold searchRemoteProducts. rewrite En. simpl.
       split; [split; [discriminate | intros [H _]; discriminate]|].
       split; [discriminate|]. split; [left; reflexivity|].
       intros _. split; [reflexivity | discriminate]. }
  set (key := query_key "remote" q category maxPrice limit).
  set (urlPrimary := Str.replace_first "{q}" (Str.encode_uri_component q) (SCRAPE_SEARCH_URL cfg)).
  destruct (remote_hit (SCRAPE_CACHE_TTL_MS cfg) (clock s) (search_cache s !! key)) eqn:Eh.
  - destruct (search_cache s !! key) as [e|] eqn:Ec; [|discriminate].
    rewrite (searchRemoteProducts_hit q category maxPrice limit s e En Ec Eh). simpl.
    assert (Hne : e_items e <> [] /\ (clock s - e_ts e < SCRAPE_CACHE_TTL_MS cfg)%Z).
    { simpl in Eh. apply andb_true_iff in Eh. destruct Eh as [E1 E2].
      split; [destruct (e_items e); discriminate | apply Z.ltb_lt; exact E2]. }
    split; [tauto|]. split; [intros _; exists e; tauto|]. split; [left; reflexivity|].
    intros He. destruct Hne as [Hne _]. contradiction.
  - rewrite (searchRemoteProducts_miss q category maxPrice limit s En Eh). fold key urlPrimary.
    destruct (remote_resolve cfg key q category maxPrice limit (clock s) urlPrimary s) as [o s'] eqn:Er.
    pose proof (remote_resolve_cache _ _ _ _ _ _ _ _ _ _ Er) as Hc.
    destruct o as [r|]; [|exact Hc].
    destruct Hc as [Hcf Hc].
    assert (Hl : later s s').
    { pose proof (later_remote_resolve Hlat key q category maxPrice limit (clock s) urlPrimary s) as L.
      rewrite Er in L. exact L. }
    split; [rewrite Hcf; split; [discriminate | intros [_ H]; discriminate]|].
    split; [rewrite Hcf; discriminate|].
    split.
    + destruct Hc as [[_ Hc] | [Hn Hc]]; [left; exact Hc | right; tauto].
    + intros Hr. destruct Hc as [[_ Hc] | [Hn Hc]]; [|contradiction].
      split; [exact Hc|]. intros _.
      assert (Eh' : remote_hit (SCRAPE_CACHE_TTL_MS cfg) (clock s') (search_cache s' !! key) = false).
      { rewrite Hc. apply (remote_hit_later _ (clock s)); [exact Eh | destruct Hl; lia]. }
      rewrite (searchRemoteProducts_miss q category maxPrice limit s' En Eh'). fold key urlPrimary.
      apply remote_resolve_logs_primary. exact Hlat.
Qed.

End RemoteCache.

Section LocalCache.
Context `{RT : Runtime} `{NET : Network} `{MK : Markup} (cfg : config).

Lemma eq_frame_trans (a b c : state) : a = b -> b = c -> a = c.
Proof. congruence. Qed.

#[local] Hint Resolve eq_refl eq_frame_trans : frame.

Lemma pure_strict_get p k : frame eq (strict_get p k).
Proof. unfold strict_get. frame_tac. Qed.
#[local] Hint Resolve pure_strict_get : frame.

Lemma pure_filterM f l : (forall x, frame eq (f x)) -> frame eq (filterM f l).
Proof. intros Hf. induction l as [|x r IH]; simpl; frame_tac. Qed.

Lemma pure_score_all q category maxPrice l : frame eq (score_all q category maxPrice l).
Proof. induction l as [|x r IH]; simpl; frame_tac. Qed.
#[local] Hint Resolve pure_score_all : frame.

Lemma pure_local_list products q category maxPrice limit :
  frame eq (local_list products q category maxPrice limit).
Proof.
  unfold local_list. frame_tac; apply pure_filterM; intros; frame_tac.
Qed.

Lemma local_list_nil q category maxPrice limit s :
  local_list [] q category maxPrice limit s = (Ok [], s).
Proof.
  unfold local_list. destruct maxPrice; destruct (Str.non_empty category); destruct (Num.truthy limit);
    cbn; try (unfold Num.slice_to; rewrite firstn_nil); reflexivity.
Qed.

Lemma searchLocalProducts_fresh q category maxPrice limit s e :
  search_cache s !! query_key "local" q category maxPrice limit = Some e ->
  (clock s - e_ts e < SCRAPE_CACHE_TTL_MS cfg)%Z ->
  searchLocalProducts cfg q category maxPrice limit s = (Ok (e_items e, true), s).
Proof.
  intros Hc Ht. unfold searchLocalProducts. cbv zeta. unfold bind at 1 2, now, cache_get.
  cbv beta iota. rewrite Hc. apply Z.ltb_lt in Ht. rewrite Ht. reflexivity.
Qed.

Lemma searchLocalProducts_stale q category maxPrice limit s :
  (forall e, search_cache s !! query_key "local" q category maxPrice limit = Some e ->
             (SCRAPE_CACHE_TTL_MS cfg <= clock s - e_ts e)%Z) ->
  searchLocalProducts cfg q category maxPrice limit s
  = local_resolve (query_key "local" q category maxPrice limit) q category maxPrice limit (clock s) s.
Proof.
  intros Hs. unfold searchLocalProducts. cbv zeta. unfold bind at 1 2, now, cache_get.
  cbv beta iota.
  destruct (search_cache s !! query_key "local" q category maxPrice limit) as [e|] eqn:Hc;
    [|reflexivity].
  specialize (Hs e eq_refl). apply Z.ltb_ge in Hs. rewrite Hs. reflexivity.
Qed.

(** The local cache. While the entry under the query's
    ['local'] key is younger than the TTL, the query returns that entry's
    list, whatever it holds (an empty list included), marked cached,
    with no other effect. Otherwise the catalog is read: a missing or
    unparsable file, or one whose [products] is falsy, counts as an
    empty catalog; a truthy [products] value that is not an array makes
    the call throw, caching nothing; every list computed is cached
    (empty or not, stamped with the call time) and returned uncached,
    and, with a positive TTL, asking again right away returns it from
    the cache. *)
Theorem searchLocalProducts_caching (q category : string) (maxPrice : option jsnum) (limit : jsnum)
        (s : state) :
  let key := query_key "local" q category maxPrice limit in
  (forall e, search_cache s !! key = Some e -> (clock s - e_ts e < SCRAPE_CACHE_TTL_MS cfg)%Z ->
             searchLocalProducts cfg q category maxPrice limit s = (Ok (e_items e, true), s))
  /\ ((forall e, search_cache s !! key = Some e -> (SCRAPE_CACHE_TTL_MS cfg <= clock s - e_ts e)%Z) ->
      (match searchLocalProducts cfg q category maxPrice limit s with
       | (Ok (l, c), s') =>
           c = false
           /\ s' = snd (cache_set key {| e_ts := clock s; e_items := l; e_url := EmptyString |} s)
           /\ ((0 < SCRAPE_CACHE_TTL_MS cfg)%Z ->
               searchLocalProducts cfg q category maxPrice limit s' = (Ok (l, true), s'))
       | (Thrown, s') => s' = s
       end)
      /\ ((catalog s = None \/ exists d, catalog s = Some d /\ truthy (get d "products") = false) ->
          searchLocalProducts cfg q category maxPrice limit s
          = (Ok ([], false), snd (cache_set key {| e_ts := clock s; e_items := [];
                                                    e_url := EmptyString |} s)))
      /\ ((match catalog_products (catalog s) with JArr _ => false | _ => true end) = true ->
          searchLocalProducts cfg q category maxPrice limit s = (Thrown, s))).
Proof.
  cbv zeta. split.
  { intros e. apply searchLocalProducts_fresh. }
  intros Hs. rewrite (searchLocalProducts_stale q category maxPrice limit s Hs).
  unfold local_resolve.
  split; [|split]; [| intros Hcat | intros Hcat]; unfold bind at 1, read_catalog; cbv beta iota.
  - destruct (catalog_products (catalog s)) as [| | | | |products|]; try reflexivity.
    unfold bind at 1.
    pose proof (pure_local_list products q category maxPrice limit s) as P.
    destruct (local_list products q category maxPrice limit s) as [[l|] s1] eqn:El;
      simpl in P; subst s1; [|reflexivity].
    unfold bind, cache_set, ret. cbv beta iota.
    split; [reflexivity|]. split; [reflexivity|].
    intros Httl.
    apply (searchLocalProducts_fresh q category maxPrice limit _
             {| e_ts := clock s; e_items := l; e_url := EmptyString |}); simpl.
    + apply lookup_insert_eq.
    + lia.
  - assert (Hp : catalog_products (catalog s) = JArr []).
    { destruct Hcat as [-> | [d [-> Hd]]]; [reflexivity|]. simpl. unfold js_or. rewrite Hd. reflexivity. }
    rewrite Hp. unfold bind at 1. rewrite local_list_nil. reflexivity.
  - destruct (catalog_products (catalog s)); first [reflexivity | discriminate].
Qed.

End LocalCache.

(* ================================================================== *)
(** ** Theorems: the local matcher *)

Lemma str_app_cons (x : ascii) (a b : string) : String x a +:+ b = String x (a +:+ b).
Proof. reflexivity. Qed.

Lemma str_app_assoc (a b c : string) : (a +:+ b) +:+ c = a +:+ (b +:+ c).
Proof. induction a as [|x a IH]; [reflexivity | rewrite !str_app_cons, IH; reflexivity]. Qed.

Lemma join_space_concat (l : list string) : join_space l = String.concat " " l.
Proof.
  destruct l as [|x r]; [reflexivity|]. unfold join_space.
  revert x. induction r as [|y r IH]; intros x; [reflexivity|].
  simpl fold_left. rewrite IH. destruct r as [|z r]; [reflexivity|].
  change (((x +:+ " " +:+ y) +:+ " " +:+ String.concat " " (z :: r))
          = x +:+ " " +:+ (y +:+ " " +:+ String.concat " " (z :: r))).
  rewrite !str_app_assoc. reflexivity.
Qed.

Lemma token_points (hay : string) (toks : list string) :
  (2 * Z.of_nat (length (List.filter (fun t => Str.includes hay t) toks)))%Z
  = fold_right (fun t acc => if Str.includes hay t then (acc + 2)%Z else acc) 0%Z toks.
Proof.
  induction toks as [|t r IH]; [reflexivity|]. simpl.
  destruct (Str.includes hay t); simpl length; [rewrite <- IH|]; lia.
Qed.

Lemma non_empty_false (s : string) : Str.non_empty s = false -> s = EmptyString.
Proof. destruct s; [reflexivity | discriminate]. Qed.

Section LocalRanking.
Context `{RT : Runtime}.

Lemma scoreLocal_amended (p : jsval) (q category : string) (maxPrice : option jsnum) :
  scorable p = true -> scoreLocal p q category maxPrice = Some (amended_score p q category maxPrice).
Proof.
  unfold scorable. intros H. apply andb_true_iff in H. destruct H as [H Hs].
  apply andb_true_iff in H. destruct H as [Hn Ht].
  apply negb_true_iff in Hn. apply negb_true_iff in Hs.
  unfold scoreLocal, amended_score, amended_hay. unfold entry_tags in *. rewrite Hn.
  destruct (js_or (get p "tags") (JArr [])) as [| | | | |tags|]; try discriminate.
  rewrite Hs. rewrite join_space_concat. simpl String.concat. f_equal.
  destruct (Str.non_empty (Str.to_lower q)) eqn:Eq.
  - unfold query_tokens. rewrite <- token_points. reflexivity.
  - unfold query_tokens. rewrite (non_empty_false _ Eq). reflexivity.
Qed.

Lemma filterM_ok (f : jsval -> M bool) (g : jsval -> bool) (l : list jsval) :
  (forall x s, In x l -> f x s = (Ok (g x), s)) ->
  forall s, filterM f l s = (Ok (List.filter g l), s).
Proof.
  induction l as [|x r IH]; intros Hf s; [reflexivity|].
  simpl. unfold bind at 1. rewrite (Hf x s (or_introl eq_refl)).
  unfold bind. rewrite IH by (intros; apply Hf; right; assumption).
  unfold ret. destruct (g x); reflexivity.
Qed.

Lemma score_all_ok (q category : string) (maxPrice : option jsnum) (l : list jsval) s :
  forallb scorable l = true ->
  score_all q category maxPrice l s
  = (Ok (map (fun p => (p, amended_score p q category maxPrice)) l), s).
Proof.
  induction l as [|p r IH]; intros H; [reflexivity|].
  simpl in H. apply andb_true_iff in H. destruct H as [Hp Hr].
  simpl. rewrite (scoreLocal_amended p q category maxPrice Hp).
  unfold bind. rewrite IH by exact Hr. reflexivity.
Qed.

Lemma filter_filter_and {A} (f g : A -> bool) (l : list A) :
  List.filter g (List.filter f l) = List.filter (fun x => f x && g x) l.
Proof.
  induction l as [|x r IH]; [reflexivity|]. simpl.
  destruct (f x); simpl; [destruct (g x); simpl|]; rewrite IH; reflexivity.
Qed.

Lemma filter_all {A} (f : A -> bool) (l : list A) :
  (forall x, f x = true) -> List.filter f l = l.
Proof. intros H. induction l as [|x r IH]; [reflexivity|]. simpl. rewrite H, IH. reflexivity. Qed.

Lemma forallb_filter {A} (P f : A -> bool) (l : list A) :
  forallb P l = true -> forallb P (List.filter f l) = true.
Proof.
  induction l as [|x r IH]; [reflexivity|]. simpl. intros H.
  apply andb_true_iff in H. destruct H as [H1 H2].
  destruct (f x); simpl; [rewrite H1|]; auto.
Qed.

(** The hard filters and the scoring, run on well-formed entries. *)
Lemma local_list_scored (products : list jsval) (q category : string) (maxPrice : option jsnum)
      (limit : jsnum) s :
  forallb scorable products = true ->
  local_list products q category maxPrice limit s
  = (Ok (let list := map fst (js_sort by_score_desc
                                 (map (fun p => (p, amended_score p q category maxPrice))
                                      (List.filter (hard_filter maxPrice category) products))) in
         if Num.truthy limit then Num.slice_to limit list else list), s).
Proof.
  intros Hw. unfold local_list.
  assert (Hnn : forall p, In p products -> is_nullish p = false).
  { intros p Hp. rewrite forallb_forall in Hw. specialize (Hw p Hp).
    unfold scorable in Hw. apply andb_true_iff in Hw. destruct Hw as [Hw _].
    apply andb_true_iff in Hw. destruct Hw as [Hw _].
    apply negb_true_iff. exact Hw. }
  assert (Hct : forall p, In p products -> norm_throws (get p "category") = false).
  { intros p Hp. rewrite forallb_forall in Hw. specialize (Hw p Hp).
    unfold scorable in Hw. apply andb_true_iff in Hw. destruct Hw as [_ Hw].
    apply negb_true_iff, orb_false_iff in Hw. apply Hw. }
  set (pf := fun p => match maxPrice with
                      | Some m => match get p "price" with JNum x => Num.le (Fin x) m | _ => false end
                      | None => true
                      end).
  set (cf := fun p => if Str.non_empty category
                      then String.eqb (Str.to_lower (js_String (js_or (get p "category") (JStr ""))))
                                      (Str.to_lower category)
                      else true).
  assert (H1 : (match maxPrice with
                | Some m => filterM (fun p => pr <-- strict_get p "price" ;;
                                              ret (match pr with JNum x => Num.le (Fin x) m | _ => false end))
                                    products
                | None => ret products
                end) s = (Ok (List.filter pf products), s)).
  { destruct maxPrice as [m|].
    - apply filterM_ok. intros x s0 Hx. unfold strict_get. rewrite (Hnn x Hx). reflexivity.
    - unfold pf. rewrite filter_all by reflexivity. reflexivity. }
  unfold bind at 1. rewrite H1.
  assert (H2 : (if Str.non_empty category then
                  filterM (fun p => c <-- strict_get p "category" ;;
                                    if norm_throws c then throw else
                                    ret (String.eqb (Str.to_lower (js_String (js_or c (JStr ""))))
                                                    (Str.to_lower category)))
                          (List.filter pf products)
                else ret (List.filter pf products)) s
               = (Ok (List.filter cf (List.filter pf products)), s)).
  { unfold cf. destruct (Str.non_empty category).
    - apply filterM_ok. intros x s0 Hx. apply filter_In in Hx. destruct Hx as [Hx _].
      unfold strict_get. rewrite (Hnn x Hx). unfold bind, ret. rewrite (Hct x Hx). reflexivity.
    - rewrite (filter_all (fun _ : jsval => true)) by reflexivity. reflexivity. }
  unfold bind at 1. rewrite H2.
  rewrite filter_filter_and.
  unfold bind. rewrite score_all_ok by (apply forallb_filter; exact Hw).
  reflexivity.
Qed.

Lemma qc_eqb_spec (x y : Qcanon.Qc) : qc_eqb x y = true <-> x = y.
Proof.
  unfold qc_eqb. split.
  - intros H. apply Qcanon.Qc_is_canon. apply Qeq_bool_iff. exact H.
  - intros ->. apply Qeq_bool_refl.
Qed.

Lemma qc_gt_irrefl (x : Qcanon.Qc) : qc_gt x x = false.
Proof. unfold qc_gt. rewrite (proj2 (Qle_bool_iff _ _) (Qle_refl _)). reflexivity. Qed.

Lemma qc_gt_true (x y : Qcanon.Qc) : qc_gt x y = true <-> (Qcanon.this y < Qcanon.this x)%Q.
Proof.
  unfold qc_gt. rewrite negb_true_iff. split.
  - intros H. apply Qnot_le_lt. intros Hle. apply Qle_bool_iff in Hle. congruence.
  - intros H. destruct (Qle_bool (Qcanon.this x) (Qcanon.this y)) eqn:E; [|reflexivity].
    apply Qle_bool_iff in E. exfalso. apply (Qlt_not_le _ _ H E).
Qed.

Lemma qc_gt_trans (x y z : Qcanon.Qc) : qc_gt x y = true -> qc_gt y z = true -> qc_gt x z = true.
Proof. rewrite !qc_gt_true. intros H1 H2. apply (Qlt_trans _ _ _ H2 H1). Qed.

Lemma qc_gt_total (x y : Qcanon.Qc) : x <> y -> qc_gt x y = true \/ qc_gt y x = true.
Proof.
  intros Hne. rewrite !qc_gt_true.
  destruct (Q_dec (Qcanon.this x) (Qcanon.this y)) as [[H|H]|H]; [right | left |]; try exact H.
  exfalso. apply Hne. apply Qcanon.Qc_is_canon. exact H.
Qed.

Lemma by_score_desc_key (a b : jsval * Q) :
  by_score_desc a b = qc_gt (score_key b) (score_key a).
Proof.
  unfold by_score_desc, qc_gt, score_key, Qcanon.Q2Qc. simpl.
  destruct (Qle_bool (Qminus (snd b) (snd a)) 0) eqn:E1,
           (Qle_bool (Qred (snd b)) (Qred (snd a))) eqn:E2; try reflexivity; exfalso.
  - apply Qle_bool_iff in E1.
    assert (Hle : (Qred (snd b) <= Qred (snd a))%Q) by (rewrite !Qred_correct; lra).
    apply Qle_bool_iff in Hle. congruence.
  - apply Qle_bool_iff in E2. rewrite !Qred_correct in E2.
    assert (Hle : (snd b - snd a <= 0)%Q) by lra.
    apply Qle_bool_iff in Hle. congruence.
Qed.

Lemma Sorted_map_fst (f : jsval -> Q) (l : list (jsval * Q)) :
  Forall (fun x => snd x = f (fst x)) l ->
  Sorted (fun a b => qc_gt (score_key b) (score_key a) = false) l ->
  Sorted (fun a b => (f b <= f a)%Q) (map fst l).
Proof.
  intros Hf Hs. induction Hs as [|x r Hs IH Hd]; simpl; constructor.
  - apply IH. inversion Hf; assumption.
  - destruct Hd as [|y r' Hxy]; simpl; constructor.
    inversion Hf as [|? ? Hx Hr]; subst. inversion Hr as [|? ? Hy _]; subst.
    rewrite <- Hx, <- Hy. apply Qnot_lt_le. intros Hlt.
    assert (Hg : qc_gt (score_key y) (score_key x) = true).
    { apply qc_gt_true. unfold score_key, Qcanon.Q2Qc. simpl. rewrite !Qred_correct. exact Hlt. }
    congruence.
Qed.

Lemma filter_map_fst (g : jsval -> bool) (l : list (jsval * Q)) :
  List.filter g (map fst l) = map fst (List.filter (fun x => g (fst x)) l).
Proof.
  induction l as [|x r IH]; [reflexivity|]. simpl. destruct (g (fst x)); simpl; rewrite IH; reflexivity.
Qed.

(** C6 (amended): on a catalog whose entries are well formed (not
    nullish, tags an array or absent, name, description, category and
    tags converting with [String]), [searchLocalProducts]' listing
    keeps the entries passing the hard filters (numeric price within a
    given ceiling; category equal, case-insensitively, when one is
    requested), scores each by the amended formula ([amended_score]:
    query tokens counted with repetition over name, description, tags
    and category), orders them by decreasing score, keeping the catalog
    order among equal scores, and cuts the result to a truthy limit;
    it has no effect on the state. *)
Theorem searchLocalProducts_ranking (products : list jsval) (q category : string)
        (maxPrice : option jsnum) (limit : jsnum) (s : state) :
  forallb scorable products = true ->
  exists L : list jsval,
    local_list products q category maxPrice limit s
    = (Ok (if Num.truthy limit then Num.slice_to limit L else L), s)
    /\ Permutation L (List.filter (hard_filter maxPrice category) products)
    /\ (forall p, In p L -> scoreLocal p q category maxPrice = Some (amended_score p q category maxPrice))
    /\ Sorted (fun a b => (amended_score b q category maxPrice <= amended_score a q category maxPrice)%Q) L
    /\ (forall k, List.filter (fun p => Qeq_bool (amended_score p q category maxPrice) k) L
                  = List.filter (fun p => Qeq_bool (amended_score p q category maxPrice) k)
                                (List.filter (hard_filter maxPrice category) products)).
Proof.
  intros Hw.
  set (am := fun p => amended_score p q category maxPrice).
  set (surv := List.filter (hard_filter maxPrice category) products).
  set (scored := map (fun p => (p, am p)) surv).
  assert (Hsort : js_sort by_score_desc scored
                  = js_sort (fun a b => qc_gt (score_key b) (score_key a)) scored)
    by (apply js_sort_ext; intros; apply by_score_desc_key).
  assert (Hperm : Permutation (js_sort by_score_desc scored) scored).
  { rewrite Hsort. apply (js_sort_perm score_key qc_gt). }
  assert (Hpairs : Forall (fun x => snd x = am (fst x)) (js_sort by_score_desc scored)).
  { apply (Permutation_Forall (Permutation_sym Hperm)). unfold scored.
    apply List.Forall_forall. intros x Hx. apply in_map_iff in Hx. destruct Hx as [p [<- _]]. reflexivity. }
  assert (Hfst : map fst scored = surv).
  { unfold scored. rewrite map_map. apply map_id. }
  exists (map fst (js_sort by_score_desc scored)).
  split; [apply local_list_scored; exact Hw|].
  split; [rewrite <- Hfst; apply Permutation_map; exact Hperm|].
  split; [|split].
  - intros p Hp. apply scoreLocal_amended.
    apply (Permutation_in _ (Permutation_map fst Hperm)) in Hp. rewrite Hfst in Hp.
    unfold surv in Hp. apply filter_In in Hp. destruct Hp as [Hp _].
    rewrite forallb_forall in Hw. apply Hw. exact Hp.
  - apply Sorted_map_fst; [exact Hpairs|]. rewrite Hsort.
    apply (js_sort_sorted score_key qc_gt qc_gt_irrefl qc_gt_trans).
  - intros k. rewrite <- Hfst. rewrite !filter_map_fst. f_equal.
    set (kk := Qcanon.Q2Qc k).
    assert (Hk : forall x, snd x = am (fst x) ->
                 Qeq_bool (am (fst x)) k = qc_eqb (score_key x) kk).
    { intros x Hx. unfold qc_eqb, score_key, kk, Qcanon.Q2Qc. simpl. rewrite <- Hx.
      destruct (Qeq_bool (snd x) k) eqn:E1, (Qeq_bool (Qred (snd x)) (Qred k)) eqn:E2; try reflexivity.
      - apply Qeq_bool_iff in E1. rewrite <- Qeq_Qred_iff in E1. apply Qeq_bool_iff in E1. congruence.
      - apply Qeq_bool_iff in E2. rewrite Qeq_Qred_iff in E2. apply Qeq_bool_iff in E2. congruence. }
    rewrite (filter_ext_in _ (fun x => qc_eqb (score_key x) kk) (js_sort by_score_desc scored)).
    2: { intros x Hx. apply Hk. rewrite List.Forall_forall in Hpairs. apply Hpairs. exact Hx. }
    rewrite (filter_ext_in _ (fun x => qc_eqb (score_key x) kk) scored).
    2: { intros x Hx. apply Hk. unfold scored in Hx. apply in_map_iff in Hx.
         destruct Hx as [p [<- _]]. reflexivity. }
    rewrite Hsort.
    apply (js_sort_stable score_key qc_gt qc_eqb qc_eqb_spec qc_gt_irrefl qc_gt_trans qc_gt_total).
Qed.

End LocalRanking.

(* ================================================================== *)
(** ** Theorems: redirects in [httpGet] *)

Section RedirectProofs.
Context `{RT : Runtime}.
Variable server : string -> option http_response.

Lemma follow_redirects_settles (n : nat) (url : string) (r : option string) :
  follow_redirects server n url = Some r -> httpGet_settles server url r.
Proof.
  revert url. induction n as [|n IH]; intros url H; simpl in H; [discriminate|].
  destruct (http_step server url) as [next|r'|] eqn:E; [|injection H as ->|discriminate].
  - exact (settle_redirect server url next r E (IH next H)).
  - exact (settle_now server url r E).
Qed.

Lemma settles_follow_redirects (url : string) (r : option string) :
  httpGet_settles server url r -> exists n, follow_redirects server n url = Some r.
Proof.
  induction 1 as [url r H|url next r H _ [n IH]].
  - exists 1%nat. simpl. rewrite H. reflexivity.
  - exists (S n). simpl. rewrite H. exact IH.
Qed.

(** C7 (amended): [httpGet] follows every 3xx response with a non-empty
    [Location] header by re-issuing a GET against the target resolved
    against the current URL, with no bound on the number of hops: it
    settles with [r] exactly when some finite chain of such redirects,
    of any length, ends in a response that settles with [r]; a redirect
    does not change the outcome; a [Location] that does not resolve
    settles nothing; and from a set of URLs each of which redirects
    into the set (a redirect cycle) it never settles. *)
Theorem httpGet_unbounded_redirects :
  (forall url res l u,
     server url = Some res -> (300 <= status res < 400)%Z ->
     location res = Some l -> Str.non_empty l = true -> url_parse l url = Some u ->
     http_step server url = Redirect (url_href u))
  /\ (forall url r, httpGet_settles server url r <-> exists n, follow_redirects server n url = Some r)
  /\ (forall url next r, http_step server url = Redirect next ->
      (httpGet_settles server url r <-> httpGet_settles server next r))
  /\ (forall url, http_step server url = Stuck -> forall r, ~ httpGet_settles server url r)
  /\ (forall P : string -> Prop,
      (forall u, P u -> exists v, http_step server u = Redirect v /\ P v) ->
      forall u r, P u -> ~ httpGet_settles server u r).
Proof.
  split; [|split; [|split; [|split]]].
  - intros url res l u Hs [H1 H2] Hl Hn Hu. unfold http_step. rewrite Hs, Hl, Hn.
    apply Z.leb_le in H1. apply Z.ltb_lt in H2. rewrite H1, H2. simpl. rewrite Hu. reflexivity.
  - intros url r. split; [apply settles_follow_redirects|intros [n H]; exact (follow_redirects_settles n url r H)].
  - intros url next r E. split.
    + intros H. inversion H as [u r' H1|u n' r' H1 H2]; subst; rewrite E in H1; [discriminate|].
      injection H1 as <-. exact H2.
    + intros H. exact (settle_redirect server url next r E H).
  - intros url E r H. inversion H; subst; congruence.
  - intros P HP u r Hu H. revert Hu. induction H as [u r H|u next r H _ IH]; intros Hu.
    + destruct (HP u Hu) as [v [Hv _]]. congruence.
    + destruct (HP u Hu) as [v [Hv Pv]]. rewrite H in Hv. injection Hv as <-. exact (IH Pv).
Qed.

End RedirectProofs.

(* ================================================================== *)
(** ** Concrete runs *)

(** C3 witness: the remote cache discipline on the 0 ms budget
    environment, whose requests take 5 ms. *)
Lemma searchRemoteProducts_cache_discipline_witness :
  (forall u, (0 <= @http_latency slow_net u)%Z) /\
  let key := @query_key Toy.runtime "remote" "soap" "" None (Fin 3) in
  let urlPrimary := Str.replace_first "{q}" (Str.encode_uri_component "soap")
                                      (SCRAPE_SEARCH_URL zero_budget_cfg) in
  match @searchRemoteProducts Toy.runtime slow_net blank_markup zero_budget_cfg
          "soap" "" None (Fin 3) (state_at None) with
  | (Ok r, s') =>
      (r_cached r = true <->
       SCRAPE_ENABLED zero_budget_cfg = true
       /\ remote_hit (SCRAPE_CACHE_TTL_MS zero_budget_cfg) (clock (state_at None))
                     (search_cache (state_at None) !! key) = true)
      /\ (r_cached r = true ->
          exists e, search_cache (state_at None) !! key = Some e /\ e_items e <> []
                    /\ (clock (state_at None) - e_ts e < SCRAPE_CACHE_TTL_MS zero_budget_cfg)%Z
                    /\ r_items r = e_items e /\ s' = state_at None)
      /\ (search_cache s' = search_cache (state_at None)
          \/ (r_items r <> [] /\ r_cached r = false
              /\ search_cache s' = <[key := {| e_ts := clock (state_at None); e_items := r_items r;
                                              e_url := r_url r |}]> (search_cache (state_at None))))
      /\ (r_items r = [] ->
          search_cache s' = search_cache (state_at None)
          /\ (SCRAPE_ENABLED zero_budget_cfg = true ->
              exists l, fetch_log (snd (@searchRemoteProducts Toy.runtime slow_net blank_markup
                                          zero_budget_cfg "soap" "" None (Fin 3) s'))
                        = fetch_log s' ++ urlPrimary :: l))
  | (Thrown, s') => search_cache s' = search_cache (state_at None)
  end.
Proof.
  assert (Hlat : forall u, (0 <= @http_latency slow_net u)%Z) by (intros u; simpl; lia).
  split; [exact Hlat|].
  exact (@searchRemoteProducts_cache_discipline Toy.runtime slow_net blank_markup zero_budget_cfg
           Hlat "soap" "" None (Fin 3) (state_at None)).
Defined.

(** C4 counterexample: with a 0 ms budget and an empty cache, a search
    for "soap" still requests the primary search page (which answers
    after 5 ms with an empty page) before the endpoint falls back to the
    (missing, so empty) local catalog. *)
Lemma search_endpoint_zero_budget_fetches :
  SCRAPE_MAX_TIME_MS zero_budget_cfg = 0%Z
  /\ fetch_log (state_at None) = []
  /\ fetch_log (snd (run_endpoint zero_budget_cfg None (Some "soap") None))
     = ["https://www.melaleuca.com/search?q=soap"]
  /\ fst (run_endpoint zero_budget_cfg None (Some "soap") None) = Resp200 [] "local" "" false "soap".
Proof. vm_compute. repeat split. Qed.

(** C6 counterexample: the query "soap soap" against an entry named
    "soap" (no category, no ceiling) scores 4 in [scoreLocal], the token
    counted twice, where one point per distinct token gives 2. And an
    entry whose name is an object with an own [toString] key makes
    [scoreLocal] throw, so the endpoint answers 500. *)
Lemma scoreLocal_repeated_token_cx :
  @hard_filter Toy.runtime None "" soap_entry = true
  /\ @scoreLocal Toy.runtime soap_entry "soap soap" "" None = Some 4%Q
  /\ @spec_score Toy.runtime soap_entry "soap soap" "" None = 2%Q
  /\ @scoreLocal Toy.runtime (JObj [("name", toString_obj)]) "soap" "" None = None
  /\ fst (run_endpoint disabled_cfg (Some catalog_toString_name) (Some "soap") None) = Resp500.
Proof. vm_compute. repeat split. Qed.

(** C5 counterexample: two items without a URL, priced 5, whose names
    are objects with an own [toString] key. Their flags tie, so the
    comparator converts the names, and the sort throws. *)
Lemma prioritizeProducts_toString_name_cx :
  @ranking_throws Toy.runtime [toString_named; toString_named] = true
  /\ @prioritizeProductsM Toy.runtime [toString_named; toString_named] = None.
Proof. vm_compute. split; reflexivity. Qed.

(** C5 witness: the ranking example on the toy runtime, where A's URL
    is not detail-likely and B's and C's are. *)
Lemma prioritizeProducts_stable_total_order_witness :
  @isLikelyProductDetailUrl Toy.runtime (get prodA "url") = false
  /\ @isLikelyProductDetailUrl Toy.runtime (get prodB "url") = true
  /\ @isLikelyProductDetailUrl Toy.runtime (get prodC "url") = true
  /\ @prioritizeProductsM Toy.runtime [prodA; prodB; prodC] = Some [prodC; prodB; prodA].
Proof.
  assert (HA : @isLikelyProductDetailUrl Toy.runtime (get prodA "url") = false) by (vm_compute; reflexivity).
  assert (HB : @isLikelyProductDetailUrl Toy.runtime (get prodB "url") = true) by (vm_compute; reflexivity).
  assert (HC : @isLikelyProductDetailUrl Toy.runtime (get prodC "url") = true) by (vm_compute; reflexivity).
  split; [exact HA|split; [exact HB|split; [exact HC|]]].
  exact (proj2 (proj2 (@prioritizeProducts_stable_total_order Toy.runtime [])) HA HB HC).
Defined.

(** C6 witness: two copies of that entry, query "soap", limit 3. *)
Lemma searchLocalProducts_ranking_witness :
  forallb (scorable) [soap_entry; soap_entry] = true /\
  exists L : list jsval,
    @local_list Toy.runtime [soap_entry; soap_entry] "soap" "" None (Fin 3) (state_at None)
    = (Ok (if Num.truthy (Fin 3) then Num.slice_to (Fin 3) L else L), state_at None)
    /\ Permutation L (List.filter (@hard_filter Toy.runtime None "") [soap_entry; soap_entry])
    /\ (forall p, In p L -> @scoreLocal Toy.runtime p "soap" "" None
                            = Some (@amended_score Toy.runtime p "soap" "" None))
    /\ Sorted (fun a b => (@amended_score Toy.runtime b "soap" "" None
                           <= @amended_score Toy.runtime a "soap" "" None)%Q) L
    /\ (forall k, List.filter (fun p => Qeq_bool (@amended_score Toy.runtime p "soap" "" None) k) L
                  = List.filter (fun p => Qeq_bool (@amended_score Toy.runtime p "soap" "" None) k)
                                (List.filter (@hard_filter Toy.runtime None "") [soap_entry; soap_entry])).
Proof.
  assert (Hw : forallb (scorable) [soap_entry; soap_entry] = true) by reflexivity.
  split; [exact Hw|].
  exact (@searchLocalProducts_ranking Toy.runtime [soap_entry; soap_entry] "soap" "" None (Fin 3)
           (state_at None) Hw).
Defined.

(** C7 counterexample: a server whose page "http://a/" answers 302 with
    [Location: /]. [httpGet("http://a/")] is sent back to "http://a/"
    and never settles, with any result. And a chain of twelve redirects
    is followed to its end: there is no bound around 10 hops. *)
Lemma httpGet_self_redirect_cx :
  @http_step Toy.runtime self_redirect_server "http://a/" = Redirect "http://a/"
  /\ (forall r, ~ @httpGet_settles Toy.runtime self_redirect_server "http://a/" r)
  /\ @follow_redirects Toy.runtime hop_chain_server 12 "http://a/" = None
  /\ @follow_redirects Toy.runtime hop_chain_server 13 "http://a/" = Some (Some "done")
  /\ @httpGet_settles Toy.runtime hop_chain_server "http://a/" (Some "done").
Proof.
  split; [vm_compute; reflexivity|split; [|split; [vm_compute; reflexivity|split; [vm_compute; reflexivity|]]]].
  - assert (Hn : forall u r, @httpGet_settles Toy.runtime self_redirect_server u r -> u <> "http://a/").
    { intros u r H. induction H as [u r H|u next r H _ IH]; intros ->; vm_compute in H.
      - discriminate H.
      - injection H as <-. apply IH. reflexivity. }
    intros r H. exact (Hn _ _ H eq_refl).
  - apply (@follow_redirects_settles Toy.runtime hop_chain_server 13). vm_compute. reflexivity.
Qed.

(** C8 counterexample: [limit=abc] makes the limit [NaN]; with scraping
    off, the catalog's 21 matching entries are all returned. *)
Lemma search_endpoint_limit_nan_cx :
  effective_limit (Some "abc") = NaN
  /\ match fst (run_endpoint disabled_cfg (Some catalog21) (Some "soap") (Some "abc")) with
     | Resp200 items _ _ _ _ => length items
     | Resp500 => 0%nat
     end = 21%nat.
Proof. vm_compute. split; reflexivity. Qed.

(** C9 counterexample: a catalog that parses but whose [products] is the
    number 5. [products.slice()] throws: [searchLocalProducts] fails,
    caches nothing, and the endpoint answers 500. *)
Lemma searchLocalProducts_bad_catalog_cx :
  @searchLocalProducts Toy.runtime disabled_cfg "soap" "" None (Fin 3) (state_at (Some catalog_bad))
  = (Thrown, state_at (Some catalog_bad))
  /\ fst (run_endpoint disabled_cfg (Some catalog_bad) (Some "soap") None) = Resp500.
Proof. vm_compute. split; reflexivity. Qed.


(* ================================================================== *)
(** ** Theorems: the endpoint's limit *)

(** X1: the limit the endpoint applies is 3 without a [limit] parameter;
    otherwise it is [NaN] exactly when [Number(limit)] is [NaN], and any
    other value is a finite number from 1 to 20 (never an infinity). *)
Theorem effective_limit_range (p : option string) :
  (p = None -> effective_limit p = Fin 3)
  /\ (effective_limit p = NaN <-> exists s, p = Some s /\ js_Number s = NaN)
  /\ (forall z, effective_limit p = Fin z -> (1 <= z <= 20)%Q)
  /\ effective_limit p <> PInf /\ effective_limit p <> NInf.
Proof.
  destruct p as [s|].
  2: { simpl. split; [reflexivity|]. split; [split; [discriminate | intros [s [H _]]; discriminate]|].
       split; [intros z H; injection H as <-; split; vm_compute; discriminate|].
       split; discriminate. }
  split; [discriminate|]. unfold effective_limit.
  destruct (js_Number s) as [q| | |] eqn:E.
  - cbn [Num.min Num.max Num.lt negb].
    destruct (Qle_bool 20 q) eqn:E1; simpl;
      [|destruct (Qle_bool q 1) eqn:E2; simpl].
    + split; [split; [discriminate | intros [s' [H1 H2]]; injection H1 as <-; congruence]|].
      split; [intros z H; injection H as <-; split; vm_compute; discriminate|].
      split; discriminate.
    + split; [split; [discriminate | intros [s' [H1 H2]]; injection H1 as <-; congruence]|].
      split; [|split; discriminate].
      intros z H; injection H as <-. split; [apply Qle_refl|].
      apply Qle_bool_iff in E2. apply not_true_iff_false in E1. rewrite Qle_bool_iff in E1. lra.
    + split; [split; [discriminate | intros [s' [H1 H2]]; injection H1 as <-; congruence]|].
      split; [|split; discriminate].
      intros z H; injection H as <-.
      apply not_true_iff_false in E1. rewrite Qle_bool_iff in E1.
      apply not_true_iff_false in E2. rewrite Qle_bool_iff in E2. lra.
  - simpl. split; [split; [intros _; exists s; split; [reflexivity|exact E] | reflexivity]|].
    split; [discriminate|]. split; discriminate.
  - simpl. split; [split; [discriminate | intros [s' [H1 H2]]; injection H1 as <-; congruence]|].
    split; [intros z H; injection H as <-; split; vm_compute; discriminate|].
    split; discriminate.
  - simpl. split; [split; [discriminate | intros [s' [H1 H2]]; injection H1 as <-; congruence]|].
    split; [intros z H; injection H as <-; split; vm_compute; discriminate|].
    split; discriminate.
Qed.

(* ================================================================== *)
(** ** Theorems: cache keys *)

Lemma str_app_nil_r (a : string) : a +:+ EmptyString = a.
Proof. induction a as [|c a IH]; [reflexivity | rewrite str_app_cons, IH; reflexivity]. Qed.

Lemma json_escape_cons (c : ascii) (r : string) :
  json_escape (String c r) = json_escape (String c EmptyString) +:+ json_escape r.
Proof.
  change (json_escape (String c r)) with
    ((let n := nat_of_ascii c in
      let bs := ascii_of_nat 92 in
      if (n =? 34)%nat || (n =? 92)%nat then String bs (String c EmptyString)
      else if (n =? 8)%nat then String bs "b"
      else if (n =? 12)%nat then String bs "f"
      else if (n =? 10)%nat then String bs "n"
      else if (n =? 13)%nat then String bs "r"
      else if (n =? 9)%nat then String bs "t"
      else if (n <? 32)%nat then String bs ("u00" +:+ String (hex_lower (n / 16))
                                                     (String (hex_lower (n mod 16)) EmptyString))
      else String c EmptyString) +:+ json_escape r).
  change (json_escape (String c EmptyString)) with
    ((let n := nat_of_ascii c in
      let bs := ascii_of_nat 92 in
      if (n =? 34)%nat || (n =? 92)%nat then String bs (String c EmptyString)
      else if (n =? 8)%nat then String bs "b"
      else if (n =? 12)%nat then String bs "f"
      else if (n =? 10)%nat then String bs "n"
      else if (n =? 13)%nat then String bs "r"
      else if (n =? 9)%nat then String bs "t"
      else if (n <? 32)%nat then String bs ("u00" +:+ String (hex_lower (n / 16))
                                                     (String (hex_lower (n mod 16)) EmptyString))
      else String c EmptyString) +:+ EmptyString).
  rewrite str_app_nil_r. reflexivity.
Qed.

Lemma json_unquote_char (c : ascii) (u : string) :
  json_unquote (json_escape (String c EmptyString) +:+ u)
  = match json_unquote u with Some (s, rest) => Some (String c s, rest) | None => None end.
Proof.
  destruct c as [[] [] [] [] [] [] [] []]; reflexivity.
Qed.

Lemma json_unquote_escape (s rest : string) :
  json_unquote (json_escape s +:+ dquote +:+ rest) = Some (s, rest).
Proof.
  induction s as [|c s IH]; [reflexivity|].
  rewrite json_escape_cons, str_app_assoc, json_unquote_char, IH. reflexivity.
Qed.

Lemma json_quote_app_inj (a b x y : string) :
  json_quote a +:+ x = json_quote b +:+ y -> a = b /\ x = y.
Proof.
  unfold json_quote. rewrite !str_app_assoc. intros H.
  change (String (ascii_of_nat 34) (json_escape a +:+ dquote +:+ x)
          = String (ascii_of_nat 34) (json_escape b +:+ dquote +:+ y)) in H.
  injection H as H.
  apply (f_equal json_unquote) in H. rewrite !json_unquote_escape in H.
  injection H as -> ->. split; reflexivity.
Qed.

Lemma prefix1_inj (c : ascii) (a b : string) :
  String c EmptyString +:+ a = String c EmptyString +:+ b -> a = b.
Proof. intros H. injection H as H. exact H. Qed.

Section Keys.
Context `{RT : Runtime}.

(** X2: the cache key [JSON.stringify([tag, q, category, maxPrice,
    limit])] determines the tag, the query and the category: two
    searches that differ in one of them never share a cache entry, and
    a remote and a local search never share one. *)
Theorem query_key_injective (t q c t' q' c' : string) (m m' : option jsnum) (l l' : jsnum) :
  query_key t q c m l = query_key t' q' c' m' l' -> t = t' /\ q = q' /\ c = c'.
Proof.
  unfold query_key. intros H.
  apply prefix1_inj in H. apply json_quote_app_inj in H. destruct H as [Ht H].
  apply prefix1_inj in H. apply json_quote_app_inj in H. destruct H as [Hq H].
  apply prefix1_inj in H. apply json_quote_app_inj in H. destruct H as [Hc _].
  auto.
Qed.

End Keys.

Section LocalKeys.
Context `{RT : Runtime} `{NET : Network} `{MK : Markup} (cfg : config).

Lemma key_num_falsy (m : jsnum) : Num.truthy m = false -> key_num (Some m) = key_num None.
Proof.
  destruct m as [x| | |]; simpl; try discriminate; [|reflexivity].
  destruct (Qeq_bool x 0); simpl; [reflexivity | discriminate].
Qed.

Lemma searchLocalProducts_uncached q category maxPrice limit s l s' :
  searchLocalProducts cfg q category maxPrice limit s = (Ok (l, false), s') ->
  s' = snd (cache_set (query_key "local" q category maxPrice limit)
                      {| e_ts := clock s; e_items := l; e_url := EmptyString |} s).
Proof.
  intros H.
  destruct (search_cache s !! query_key "local" q category maxPrice limit) as [e|] eqn:Hc.
  - destruct (Z_lt_le_dec (clock s - e_ts e) (SCRAPE_CACHE_TTL_MS cfg)) as [Hf|Hf].
    + rewrite (searchLocalProducts_fresh cfg q category maxPrice limit s e Hc Hf) in H.
      discriminate.
    + rewrite (searchLocalProducts_stale cfg q category maxPrice limit s) in H.
      2: { intros e' He'. rewrite Hc in He'. injection He' as <-. exact Hf. }
      revert H. unfold local_resolve, bind at 1, read_catalog. cbv beta iota.
      destruct (catalog_products (catalog s)) as [| | | | |products|]; try discriminate.
      unfold bind at 1.
      pose proof (pure_local_list products q category maxPrice limit s) as P.
      destruct (local_list products q category maxPrice limit s) as [[l1|] s1];
        simpl in P; subst s1; [|discriminate].
      unfold bind, cache_set, ret. cbv beta iota. intros H. injection H as <- <-. reflexivity.
  - rewrite (searchLocalProducts_stale cfg q category maxPrice limit s) in H.
    2: { intros e' He'. rewrite Hc in He'. discriminate. }
    revert H. unfold local_resolve, bind at 1, read_catalog. cbv beta iota.
    destruct (catalog_products (catalog s)) as [| | | | |products|]; try discriminate.
    unfold bind at 1.
    pose proof (pure_local_list products q category maxPrice limit s) as P.
    destruct (local_list products q category maxPrice limit s) as [[l1|] s1];
      simpl in P; subst s1; [|discriminate].
    unfold bind, cache_set, ret. cbv beta iota. intros H. injection H as <- <-. reflexivity.
Qed.

(** X3: a falsy [maxPrice] ([0] or [NaN], as [max_price=0] or
    [max_price=] give) is written into the local cache key as [''],
    the same as no [maxPrice] at all. So with a positive TTL, right
    after an uncached search without a price bound, the same search with
    such a [maxPrice] is answered from the cache with the unbounded
    list, although its own filter ([p.price <= maxPrice] against 0, or
    against [NaN]) would have let no product with a price through. *)
Theorem searchLocalProducts_falsy_maxPrice_shares_key (q category : string) (m limit : jsnum)
        (s s' : state) (l : list jsval) :
  Num.truthy m = false -> (0 < SCRAPE_CACHE_TTL_MS cfg)%Z ->
  searchLocalProducts cfg q category None limit s = (Ok (l, false), s') ->
  searchLocalProducts cfg q category (Some m) limit s' = (Ok (l, true), s').
Proof.
  intros Hm Httl H.
  pose proof (searchLocalProducts_uncached _ _ _ _ _ _ _ H) as ->.
  assert (Hk : query_key "local" q category (Some m) limit = query_key "local" q category None limit).
  { unfold query_key. rewrite (key_num_falsy m Hm). reflexivity. }
  apply (searchLocalProducts_fresh cfg q category (Some m) limit _
           {| e_ts := clock s; e_items := l; e_url := EmptyString |}).
  - rewrite Hk. simpl. apply lookup_insert_eq.
  - simpl. lia.
Qed.

End LocalKeys.

(* ================================================================== *)
(** ** Theorems: sorting an already sorted list *)

Section SortIdem.
Context {A K : Type} (key : A -> K) (klt keqb : K -> K -> bool).
Hypothesis keqb_spec : forall x y, keqb x y = true <-> x = y.
Hypothesis klt_irrefl : forall x, klt x x = false.
Hypothesis klt_trans : forall x y z, klt x y = true -> klt y z = true -> klt x z = true.
Hypothesis klt_total : forall x y, x <> y -> klt x y = true \/ klt y x = true.

Let aft (a b : A) : bool := klt (key b) (key a).
Let R (a b : A) : Prop := klt (key b) (key a) = false.





End SortIdem.

Section RankerIdem.
Context `{RT : Runtime}.


End RankerIdem.

(* ================================================================== *)
(** ** Theorems: reading a price *)

Lemma has_digit_strip (s : string) :
  Str.has_digit (Price.strip_commas_spaces s) = Str.has_digit s.
Proof.
  induction s as [|c r IH]; [reflexivity|]. simpl.
  assert (Hd : Ascii.eqb c "," || Str.is_space c = true -> Str.is_digit c = false)
    by (destruct c as [[] [] [] [] [] [] [] []]; first [reflexivity | discriminate]).
  destruct (Ascii.eqb c "," || Str.is_space c) eqn:E; simpl; rewrite IH; [|reflexivity].
  rewrite (Hd eq_refl). reflexivity.
Qed.

Lemma first_number_none (s : string) :
  Price.first_number s = None <-> Str.has_digit s = false.
Proof.
  induction s as [|c r IH]; [split; reflexivity|]. simpl.
  destruct (Str.is_digit c) eqn:Ed; simpl; [|exact IH].
  split; [|discriminate]. intros H. exfalso. revert H.
  destruct (Price.take_digits r) as [d1 rest].
  destruct rest as [|dot r']; [discriminate|].
  destruct (Ascii.eqb dot "."); [|discriminate].
  destruct (Price.take_digits r') as [[|x d2] ?]; discriminate.
Qed.

Lemma digits_Z_nonneg (acc : Z) (s : string) : (0 <= acc)%Z -> (0 <= Price.digits_Z acc s)%Z.
Proof.
  revert acc. induction s as [|c r IH]; intros acc H; simpl; [exact H|].
  apply IH. lia.
Qed.

(** X5: [parsePrice] of a string is [NaN] exactly when the string has no
    digit; otherwise it is the first run of digits (with an optional
    fraction) after commas and white space are removed, never negative:
    a minus sign is dropped, so ['-5'] reads as 5. *)
Theorem parsePrice_string (s : string) :
  (parsePrice (JStr s) = None <-> Str.has_digit s = false)
  /\ (forall q, parsePrice (JStr s) = Some q -> (0 <= q)%Q)
  /\ parsePrice (JStr "-5") = Some 5%Q.
Proof.
  split; [|split; [|reflexivity]].
  - simpl. rewrite <- has_digit_strip, <- first_number_none.
    destruct (Price.first_number (Price.strip_commas_spaces s)) as [[d1 d2]|];
      split; first [reflexivity | discriminate].
  - intros q H. simpl in H.
    destruct (Price.first_number (Price.strip_commas_spaces s)) as [[d1 d2]|]; [|discriminate].
    injection H as <-. unfold Price.decimal_value, Qle. simpl.
    pose proof (digits_Z_nonneg (Price.digits_Z 0 d1) d2 (digits_Z_nonneg 0 d1 (Z.le_refl 0))). lia.
Qed.

(* ================================================================== *)
(** ** Theorems: [isCategoryLike] *)

Section CategoryLikeProofs.
Context `{RT : Runtime}.

(** X11: on a URL the detail classifier accepts, [isCategoryLike]
    decides on the name alone: the URL branch never answers [true]. *)
Theorem isCategoryLike_detail_url (name u : jsval) :
  isLikelyProductDetailUrl u = true ->
  isCategoryLike name u =
  (let n := Str.to_lower (Str.trim (js_String (js_or name (JStr "")))) in
   negb (Str.non_empty n) || is_stopword (dash_spaces n)).
Proof.
  intros H. unfold isLikelyProductDetailUrl in H. unfold isCategoryLike. cbv zeta.
  destruct (negb (Str.non_empty _)); [reflexivity|].
  destruct (is_stopword _); [reflexivity|]. cbn [orb].
  destruct (negb (truthy u) || str_throws u); [discriminate|].
  destruct (url_parse (js_String u) MELALEUCA_ORIGIN) as [url|]; [|discriminate].
  destruct (Str.index_of "productstore" (path_parts (url_pathname url))) as [idx|]; [|discriminate].
  destruct (length (skipn (S idx) _) <? 2)%nat eqn:E1; [discriminate|].
  apply Nat.ltb_ge in E1.
  destruct (forallb is_stopword _); [discriminate|].
  replace (length (skipn (S idx) (path_parts (url_pathname url))) <=? 1)%nat with false
    by (symmetry; apply Nat.leb_gt; lia).
  reflexivity.
Qed.

End CategoryLikeProofs.

(* ================================================================== *)
(** ** Theorems: [parseProductsFromHTML] *)

Lemma assoc_in (k : string) (fs : list (string * jsval)) (v : jsval) :
  assoc k fs = Some v -> In (k, v) fs.
Proof.
  induction fs as [|[k' v'] r IH]; simpl; [discriminate|].
  destruct (String.eqb k k') eqn:E.
  - intros H. injection H as <-. apply String.eqb_eq in E. subst. left. reflexivity.
  - intros H. right. exact (IH H).
Qed.

Lemma field_map_assoc {B : Type} (f : jsval -> B) (k : string) (fs : list (string * jsval)) :
  field_map f k fs = option_map (fun v => (v, f v)) (assoc k fs).
Proof.
  induction fs as [|[k' v'] r IH]; simpl; [reflexivity|].
  destruct (String.eqb k k'); [reflexivity|exact IH].
Qed.

Lemma field_map_some {B : Type} (f : jsval -> B) (k : string) (fs : list (string * jsval))
    (v : jsval) (y : B) :
  field_map f k fs = Some (v, y) -> y = f v /\ In (k, v) fs /\ get (JObj fs) k = v.
Proof.
  rewrite field_map_assoc. unfold get. destruct (assoc k fs) as [v'|] eqn:E; [|discriminate].
  intros H. injection H as <- <-. split; [reflexivity|]. split; [apply assoc_in; exact E|reflexivity].
Qed.

Lemma field_map_none {B : Type} (f : jsval -> B) (k : string) (fs : list (string * jsval)) :
  field_map f k fs = None -> get (JObj fs) k = JUndef.
Proof.
  rewrite field_map_assoc. unfold get. destruct (assoc k fs); [discriminate|reflexivity].
Qed.

Lemma list_sum_in {A : Type} (f : A -> nat) (x : A) (l : list A) :
  In x l -> (f x <= list_sum (map f l))%nat.
Proof.
  induction l as [|y r IH]; simpl; [intros []|].
  intros [<-|H]; [lia|]. specialize (IH H). lia.
Qed.

Lemma jsize_arr (x : jsval) (l : list jsval) : In x l -> (jsize x < jsize (JArr l))%nat.
Proof. intros H. simpl. pose proof (list_sum_in jsize x l H). lia. Qed.

Lemma jsize_obj (k : string) (v : jsval) (fs : list (string * jsval)) :
  In (k, v) fs -> (jsize v < jsize (JObj fs))%nat.
Proof.
  intros H. simpl. pose proof (list_sum_in (fun kv => jsize (snd kv)) (k, v) fs H). simpl in H0. lia.
Qed.

Section ParseProofs.
Context `{RT : Runtime} `{MK : Markup}.

Lemma normalize_keep (m : jsval) (base : string) (p : jsval) :
  normalizeProductFromJSONLD m base = Some p -> Html.keep p = true.
Proof.
  intros H. destruct (Str.mem "Product" (jsonld_types m)) eqn:E.
  - rewrite (normalize_unfold m base E) in H. cbv zeta in H.
    destruct (negb (truthy (js_or (get m "name") (JStr "")))); [discriminate|].
    destruct (negb (isLikelyProductDetailUrl (jsonld_url m base)) &&
              negb (positive_price (jsonld_price m))) eqn:E2; [discriminate|].
    injection H as <-. unfold Html.keep, obj. cbn [get assoc String.eqb Ascii.eqb Bool.eqb andb].
    destruct (isLikelyProductDetailUrl (jsonld_url m base)); [reflexivity|].
    cbn [orb]. cbn [negb andb] in E2. unfold positive_price, price_or_zero in *.
    destruct (jsonld_price m) as [q|]; [|discriminate].
    destruct (Qle_bool q 0); [discriminate|reflexivity].
  - rewrite (normalize_type_gate m base E) in H. discriminate.
Qed.

Ltac leaf_case Hp :=
  match type of Hp with
  | In ?p (match normalizeProductFromJSONLD ?n ?b with Some _ => _ | None => _ end) =>
      destruct (normalizeProductFromJSONLD n b) as [p0|] eqn:En;
      [destruct Hp as [<-|[]]; exists n; exact En | destruct Hp]
  end.

Lemma pushNode_items_aux (base : string) (N : nat) :
  forall n, (jsize n < N)%nat -> forall p, In p (Html.pushNode base n) ->
  exists m, normalizeProductFromJSONLD m base = Some p.
Proof.
  induction N as [|N IH]; intros n Hn p Hp; [lia|].
  destruct n as [| |b|q|s|l|fs]; cbn [Html.pushNode] in Hp;
    (destruct (negb (truthy _)); [destruct Hp|]).
  1-5: leaf_case Hp.
  - apply in_flat_map in Hp. destruct Hp as (x & Ix & Hx).
    apply (IH x); [pose proof (jsize_arr x l Ix); lia|exact Hx].
  - cbv zeta in Hp.
    assert (Hrest : forall p,
      In p (match (if Str.mem "ItemList" (jsonld_types (JObj fs)) then
              field_map (fun v => match v with
                                | JArr els =>
                                    Some (flat_map (fun el =>
                                      if truthy el then
                                        match el with
                                        | JObj gs =>
                                            match field_map (Html.pushNode base) "item" gs with
                                            | Some (it, pit) =>
                                                if truthy it then pit else Html.pushNode base el
                                            | None => Html.pushNode base el
                                            end
                                        | JArr _ => Html.pushNode base el
                                        | _ => []
                                        end
                                      else []) els)
                                | _ => None
                                end) "itemListElement" fs
              else None) with
            | Some (_, Some out) => out
            | _ =>
                if Str.mem "ListItem" (jsonld_types (JObj fs)) then
                  match field_map (Html.pushNode base) "item" fs with
                  | Some (it, pit) =>
                      if truthy it then pit
                      else match normalizeProductFromJSONLD (JObj fs) base with
                           | Some p => [p] | None => [] end
                  | None => match normalizeProductFromJSONLD (JObj fs) base with
                            | Some p => [p] | None => [] end
                  end
                else match normalizeProductFromJSONLD (JObj fs) base with
                     | Some p => [p] | None => [] end
            end) ->
      exists m, normalizeProductFromJSONLD m base = Some p).
    { clear p Hp. intros p Hp.
      assert (Hli : In p (if Str.mem "ListItem" (jsonld_types (JObj fs)) then
                  match field_map (Html.pushNode base) "item" fs with
                  | Some (it, pit) =>
                      if truthy it then pit
                      else match normalizeProductFromJSONLD (JObj fs) base with
                           | Some p => [p] | None => [] end
                  | None => match normalizeProductFromJSONLD (JObj fs) base with
                            | Some p => [p] | None => [] end
                  end
                else match normalizeProductFromJSONLD (JObj fs) base with
                     | Some p => [p] | None => [] end) ->
                  exists m, normalizeProductFromJSONLD m base = Some p).
      { intros Hq. destruct (Str.mem "ListItem" _); [|leaf_case Hq].
        destruct (field_map (Html.pushNode base) "item" fs) as [[it pit]|] eqn:Eit; [|leaf_case Hq].
        destruct (truthy it); [|leaf_case Hq].
        apply field_map_some in Eit. destruct Eit as (-> & Iit & _).
        apply (IH it); [pose proof (jsize_obj _ _ _ Iit); lia|exact Hq]. }
      destruct (Str.mem "ItemList" _); [|exact (Hli Hp)].
      match type of Hp with
      | context [field_map ?F "itemListElement" fs] =>
          destruct (field_map F "itemListElement" fs) as [[v [out|]]|] eqn:Ev;
          [|exact (Hli Hp)|exact (Hli Hp)]
      end.
      apply field_map_some in Ev. destruct Ev as (Hout & Iv & _).
      destruct v as [| | | | |els|]; try discriminate Hout.
      injection Hout as ->. pose proof (jsize_obj _ _ _ Iv) as Sv.
      apply in_flat_map in Hp. destruct Hp as (el & Iel & Hel).
      pose proof (jsize_arr _ _ Iel) as Sel.
      destruct (truthy el); [|destruct Hel].
      destruct el as [| | | | |l'|gs]; try destruct Hel.
      - apply (IH (JArr l')); [lia|exact Hel].
      - destruct (field_map (Html.pushNode base) "item" gs) as [[it pit]|] eqn:Eit.
        + apply field_map_some in Eit. destruct Eit as (-> & Iit & _).
          pose proof (jsize_obj _ _ _ Iit) as Sit.
          destruct (truthy it); [apply (IH it); [lia|exact Hel]|].
          apply (IH (JObj gs)); [lia|exact Hel].
        + apply (IH (JObj gs)); [lia|exact Hel]. }
    destruct (field_map (Html.pushNode base) "@graph" fs) as [[g pg]|] eqn:Eg;
      [|exact (Hrest p Hp)].
    destruct (truthy g); [|exact (Hrest p Hp)].
    apply field_map_some in Eg. destruct Eg as (-> & Ig & _).
    apply (IH g); [pose proof (jsize_obj _ _ _ Ig); lia|exact Hp].
Qed.


Lemma mem_app_one (k k0 : string) (seen : list string) :
  Str.mem k (seen ++ [k0]) = Str.mem k seen || String.eqb k k0.
Proof. unfold Str.mem. rewrite existsb_app. simpl. rewrite orb_false_r. reflexivity. Qed.

Lemma dedup_none (seen : list string) (items : list jsval) :
  Html.dedup seen items = None <-> exists p, In p items /\ Html.dedup_key p = None.
Proof.
  revert seen. induction items as [|a r IH]; intros seen; simpl.
  - split; [discriminate|]. intros (p & [] & _).
  - destruct (Html.dedup_key a) as [k0|] eqn:Ea.
    + assert (Hr : forall seen', Html.dedup seen' r = None <->
                   exists p, (a = p \/ In p r) /\ Html.dedup_key p = None).
      { intros seen'. rewrite IH. split.
        - intros (p & Ip & Hp). exists p. tauto.
        - intros (p & [<-|Ip] & Hp); [congruence|]. exists p. tauto. }
      destruct (Str.mem k0 seen); [apply Hr|].
      rewrite <- (Hr (seen ++ [k0])). destruct (Html.dedup (seen ++ [k0]) r); simpl.
      * split; discriminate.
      * tauto.
    + split; [intros _; exists a; tauto|reflexivity].
Qed.

Lemma find_key_is (k : string) (items : list jsval) (p : jsval) :
  List.find (Html.key_is k) items = Some p -> In p items /\ Html.dedup_key p = Some k.
Proof.
  intros H. apply find_some in H. destruct H as [Ip Hk]. split; [exact Ip|].
  unfold Html.key_is in Hk. destruct (Html.dedup_key p); [|discriminate].
  apply String.eqb_eq in Hk. subst. reflexivity.
Qed.

Lemma dedup_some (seen : list string) (items out : list jsval) :
  Html.dedup seen items = Some out ->
  (forall p, In p out <->
     exists k, List.find (Html.key_is k) items = Some p /\ Str.mem k seen = false) /\
  List.NoDup (map Html.dedup_key out).
Proof.
  revert seen out. induction items as [|a r IH]; intros seen out H; simpl in H.
  - injection H as <-. split; [|constructor].
    intros p. simpl. split; [intros []|]. intros (k & Hk & _). discriminate.
  - destruct (Html.dedup_key a) as [k0|] eqn:Ea; [|discriminate].
    assert (Hka : forall k, Html.key_is k a = String.eqb k0 k).
    { intros k. unfold Html.key_is. rewrite Ea. reflexivity. }
    destruct (Str.mem k0 seen) eqn:Em.
    + destruct (IH seen out H) as [Hin Hnd]. split; [|exact Hnd].
      intros p. rewrite Hin. simpl. split.
      * intros (k & Hk & Hs). exists k. rewrite Hka.
        destruct (String.eqb k0 k) eqn:E; [|split; assumption].
        apply String.eqb_eq in E. subst. congruence.
      * intros (k & Hk & Hs). rewrite Hka in Hk. exists k.
        destruct (String.eqb k0 k) eqn:E; [|split; assumption].
        apply String.eqb_eq in E. subst. congruence.
    + destruct (Html.dedup (seen ++ [k0]) r) as [out'|] eqn:Er; [|discriminate].
      simpl in H. injection H as <-.
      destruct (IH _ _ Er) as [Hin Hnd].
      split.
      * intros p. simpl. rewrite Hin. split.
        -- intros [<-|(k & Hk & Hs)].
           ++ exists k0. rewrite Hka, String.eqb_refl. split; [reflexivity|exact Em].
           ++ exists k. rewrite mem_app_one in Hs. apply orb_false_iff in Hs.
              destruct Hs as [Hs Hne]. rewrite Hka.
              replace (String.eqb k0 k) with false
                by (symmetry; rewrite String.eqb_sym; exact Hne).
              split; assumption.
        -- intros (k & Hk & Hs). rewrite Hka in Hk.
           destruct (String.eqb k0 k) eqn:E.
           ++ left. injection Hk as <-. reflexivity.
           ++ right. exists k. split; [exact Hk|].
              rewrite mem_app_one, Hs, String.eqb_sym, E. reflexivity.
      * simpl. rewrite Ea. constructor; [|exact Hnd].
        intros Hi. apply in_map_iff in Hi. destruct Hi as (x & Hx & Ix).
        apply Hin in Ix. destruct Ix as (k & Hk & Hs).
        apply find_key_is in Hk. destruct Hk as [_ Hk]. rewrite Hk in Hx.
        injection Hx as ->. rewrite mem_app_one, String.eqb_refl, orb_true_r in Hs.
        discriminate.
Qed.

Lemma parse_none_iff (cheerio : bool) (cards : string -> string -> list jsval)
    (html baseUrl : string) :
  Html.parseProductsFromHTML cheerio cards html baseUrl = None <->
  Html.dedup [] (Html.collect_items cheerio cards html baseUrl) = None.
Proof.
  unfold Html.parseProductsFromHTML.
  destruct (Html.dedup [] _); split; congruence.
Qed.

Lemma prioritizeProducts_perm (l : list jsval) : Permutation (prioritizeProducts l) l.
Proof. rewrite prioritizeProducts_by_key. apply (js_sort_perm rank_key lex3_lt). Qed.

Lemma nodup_map_filter {A B : Type} (f : A -> B) (g : A -> bool) (l : list A) :
  List.NoDup (map f l) -> List.NoDup (map f (List.filter g l)).
Proof.
  induction l as [|x r IH]; simpl; intros H; [constructor|].
  inversion H as [|y ys Hn Hd]; subst.
  destruct (g x); simpl; [|exact (IH Hd)].
  constructor; [|exact (IH Hd)].
  intros Hi. apply Hn. apply in_map_iff in Hi. destruct Hi as (z & Hz & Iz).
  apply filter_In in Iz. apply in_map_iff. exists z. tauto.
Qed.

End ParseProofs.

Section ParseTheorems.
Context `{RT : Runtime} `{MK : Markup}.

(** X14: when [parseProductsFromHTML] returns, its products are
    exactly the first collected item of each dedup key that passes the
    filter (so a key whose first item fails the filter is dropped even
    if a later item with that key passes), and no two share a key. *)
Theorem parseProductsFromHTML_first_per_key (cheerio : bool)
    (cards : string -> string -> list jsval) (html baseUrl : string) (out : list jsval) :
  Html.parseProductsFromHTML cheerio cards html baseUrl = Some out ->
  (forall p, In p out <->
     Html.keep p = true /\
     exists k, List.find (Html.key_is k) (Html.collect_items cheerio cards html baseUrl) = Some p) /\
  List.NoDup (map Html.dedup_key out).
Proof.
  unfold Html.parseProductsFromHTML.
  destruct (Html.dedup [] _) as [l|] eqn:Ed; [|discriminate].
  intros H. injection H as <-.
  destruct (dedup_some [] _ l Ed) as [Hin Hnd]. split.
  - intros p. split.
    + intros Ip. apply (Permutation_in _ (prioritizeProducts_perm _)) in Ip.
      apply filter_In in Ip. destruct Ip as [Ip Hk]. split; [exact Hk|].
      apply Hin in Ip. destruct Ip as (k & Hf & _). exists k. exact Hf.
    + intros [Hk (k & Hf)]. apply (Permutation_in _ (Permutation_sym (prioritizeProducts_perm _))).
      apply filter_In. split; [|exact Hk]. apply Hin. exists k. split; [exact Hf|reflexivity].
  - apply (Permutation_NoDup (Permutation_map _ (Permutation_sym (prioritizeProducts_perm _)))).
    apply nodup_map_filter. exact Hnd.
Qed.

(** X15: every item [pushNode] collects from a JSON-LD value is a
    [normalizeProductFromJSONLD] result, and passes the final filter
    (likely detail URL or positive price). *)
Theorem pushNode_items (base : string) (n p : jsval) :
  In p (Html.pushNode base n) ->
  (exists m, normalizeProductFromJSONLD m base = Some p) /\ Html.keep p = true.
Proof.
  intros H. destruct (pushNode_items_aux base (S (jsize n)) n (Nat.lt_succ_diag_r _) p H) as [m Hm].
  split; [exists m; exact Hm|]. exact (normalize_keep m base p Hm).
Qed.

(** X16: when every item the anchor walk pushes passes the filter (or
    the walk is not run), the filter removes nothing:
    [parseProductsFromHTML] is the ranking of the deduplicated items. *)
Theorem parseProductsFromHTML_filter_noop (cheerio : bool)
    (cards : string -> string -> list jsval) (html baseUrl : string) :
  (forall p, In p (cards html baseUrl) -> Html.keep p = true) ->
  Html.parseProductsFromHTML cheerio cards html baseUrl =
  option_map prioritizeProducts (Html.dedup [] (Html.collect_items cheerio cards html baseUrl)).
Proof.
  intros Hc. unfold Html.parseProductsFromHTML.
  destruct (Html.dedup [] _) as [l|] eqn:Ed; [|reflexivity]. simpl. f_equal. f_equal.
  apply List.forallb_filter_id. apply forallb_forall. intros p Ip.
  destruct (dedup_some [] _ l Ed) as [Hin _].
  apply Hin in Ip. destruct Ip as (k & Hf & _). apply find_key_is in Hf. destruct Hf as [Ip _].
  unfold Html.collect_items in Ip.
  assert (Hj : forall p, In p (flat_map (Html.pushNode baseUrl) (extractJSONLDBlocks html)) ->
                          Html.keep p = true).
  { intros q Iq. apply in_flat_map in Iq. destruct Iq as (b & _ & Iq).
    exact (proj2 (pushNode_items baseUrl b q Iq)). }
  destruct (_ && cheerio); [|exact (Hj p Ip)].
  apply in_app_or in Ip. destruct Ip as [Ip|Ip]; [exact (Hj p Ip)|exact (Hc p Ip)].
Qed.

(** X17: a JSON-LD Product block without [@graph] or list types, with
    no [url], a positive offer price and a truthy name that is not a
    string (e.g. a number) makes [parseProductsFromHTML] throw:
    [(p.url || p.name).toLowerCase] is not a function. *)
Theorem parseProductsFromHTML_nonstring_name_throws (cheerio : bool)
    (cards : string -> string -> list jsval) (html baseUrl : string) (b : jsval) :
  In b (extractJSONLDBlocks html) ->
  truthy (get b "@graph") = false ->
  Str.mem "Product" (jsonld_types b) = true ->
  Str.mem "ItemList" (jsonld_types b) = false ->
  Str.mem "ListItem" (jsonld_types b) = false ->
  truthy (get b "url") = false ->
  truthy (get b "name") = true ->
  (forall s, get b "name" <> JStr s) ->
  positive_price (jsonld_price b) = true ->
  Html.parseProductsFromHTML cheerio cards html baseUrl = None.
Proof.
  intros Ib Hg Hp Hil Hli Hu Hn Hns Hpr.
  apply parse_none_iff, dedup_none.
  pose proof (normalize_unfold b baseUrl Hp) as Hnorm. cbv zeta in Hnorm.
  assert (Hurl : jsonld_url b baseUrl = JStr "").
  { unfold jsonld_url, js_or. rewrite Hu. reflexivity. }
  assert (Hname : js_or (get b "name") (JStr "") = get b "name").
  { unfold js_or. rewrite Hn. reflexivity. }
  rewrite Hurl, Hname, Hn, Hpr in Hnorm. cbn [negb andb] in Hnorm.
  destruct b as [| | | | | |fs]; try (unfold jsonld_types in Hp; discriminate Hp).
  set (p := obj _) in Hnorm.
  assert (Hpush : Html.pushNode baseUrl (JObj fs) = [p]).
  { cbn [Html.pushNode truthy negb]. cbv zeta.
    rewrite Hil, Hli, Hnorm.
    destruct (field_map (Html.pushNode baseUrl) "@graph" fs) as [[g pg]|] eqn:Eg; [|reflexivity].
    apply field_map_some in Eg. destruct Eg as (_ & _ & <-). rewrite Hg. reflexivity. }
  exists p. split.
  - unfold Html.collect_items.
    assert (Ij : In p (flat_map (Html.pushNode baseUrl) (extractJSONLDBlocks html))).
    { apply in_flat_map. exists (JObj fs). split; [exact Ib|]. rewrite Hpush. left. reflexivity. }
    destruct (_ && cheerio); [apply in_or_app; left|]; exact Ij.
  - unfold Html.dedup_key, p, obj. cbn [get assoc String.eqb Ascii.eqb Bool.eqb andb].
    unfold js_or. cbn [truthy Str.non_empty].
    unfold get in Hns.
    destruct (assoc "name" fs) as [[| | | |s0| |]|]; try reflexivity.
    exfalso. exact (Hns s0 eq_refl).
Qed.

End ParseTheorems.

(* ================================================================== *)
(** ** Concrete runs of the further properties *)


(** The remote and the local key of one search differ in their tag. *)
Lemma query_key_injective_witness :
  @query_key Toy.runtime "local" "soap" "" None (Fin 3) = @query_key Toy.runtime "local" "soap" "" None (Fin 3)
  /\ ("local" = "local" /\ "soap" = "soap" /\ EmptyString = EmptyString).
Proof.
  split; [reflexivity|].
  apply (@query_key_injective Toy.runtime "local" "soap" "" "local" "soap" "" None None (Fin 3) (Fin 3)).
  reflexivity.
Defined.

(** [max_price=0] after an unbounded search for soap: the priced soap
    comes back from the cache. *)
Lemma searchLocalProducts_falsy_maxPrice_shares_key_witness :
  let s0 := state_at (Some catalog_priced) in
  let s1 := snd (@searchLocalProducts Toy.runtime disabled_cfg "soap" "" None (Fin 3) s0) in
  Num.truthy (Fin 0) = false /\ (0 < SCRAPE_CACHE_TTL_MS disabled_cfg)%Z
  /\ @searchLocalProducts Toy.runtime disabled_cfg "soap" "" None (Fin 3) s0 = (Ok ([priced_soap], false), s1)
  /\ @searchLocalProducts Toy.runtime disabled_cfg "soap" "" (Some (Fin 0)) (Fin 3) s1
     = (Ok ([priced_soap], true), s1).
Proof.
  intros s0 s1.
  assert (H : @searchLocalProducts Toy.runtime disabled_cfg "soap" "" None (Fin 3) s0
              = (Ok ([priced_soap], false), s1)) by (vm_compute; reflexivity).
  split; [reflexivity|]. split; [vm_compute; reflexivity|]. split; [exact H|].
  apply (@searchLocalProducts_falsy_maxPrice_shares_key Toy.runtime disabled_cfg "soap" "" (Fin 0) (Fin 3)
           s0 s1 [priced_soap]); [reflexivity | vm_compute; reflexivity | exact H].
Defined.

Lemma isCategoryLike_detail_url_witness :
  @isLikelyProductDetailUrl Toy.runtime (JStr "https://www.melaleuca.com/productstore/soap/sku2") = true /\
  @isCategoryLike Toy.runtime (JStr "Soap") (JStr "https://www.melaleuca.com/productstore/soap/sku2") =
  (let n := Str.to_lower (Str.trim (@js_String Toy.runtime (js_or (JStr "Soap") (JStr "")))) in
   negb (Str.non_empty n) || is_stopword (dash_spaces n)).
Proof.
  assert (H : @isLikelyProductDetailUrl Toy.runtime
                (JStr "https://www.melaleuca.com/productstore/soap/sku2") = true)
    by (vm_compute; reflexivity).
  split; [exact H|]. exact (@isCategoryLike_detail_url Toy.runtime _ _ H).
Defined.

Lemma parseProductsFromHTML_first_per_key_witness :
  exists out,
  @Html.parseProductsFromHTML Toy.runtime (blocks_markup [item_list_node]) false
    (fun _ _ => []) "" MELALEUCA_ORIGIN = Some out /\
  ((forall p, In p out <->
     @Html.keep Toy.runtime p = true /\
     exists k, List.find (Html.key_is k)
       (@Html.collect_items Toy.runtime (blocks_markup [item_list_node]) false
          (fun _ _ => []) "" MELALEUCA_ORIGIN) = Some p) /\
   List.NoDup (map Html.dedup_key out)).
Proof.
  destruct (@Html.parseProductsFromHTML Toy.runtime (blocks_markup [item_list_node]) false
    (fun _ _ => []) "" MELALEUCA_ORIGIN) as [out|] eqn:E.
  - exists out. split; [reflexivity|].
    exact (@parseProductsFromHTML_first_per_key Toy.runtime (blocks_markup [item_list_node])
             false (fun _ _ => []) "" MELALEUCA_ORIGIN out E).
  - vm_compute in E. discriminate E.
Defined.

Lemma pushNode_items_witness :
  exists p, In p (@Html.pushNode Toy.runtime MELALEUCA_ORIGIN item_list_node) /\
  ((exists m, @normalizeProductFromJSONLD Toy.runtime m MELALEUCA_ORIGIN = Some p) /\
   @Html.keep Toy.runtime p = true).
Proof.
  destruct (@Html.pushNode Toy.runtime MELALEUCA_ORIGIN item_list_node) as [|p r] eqn:E.
  - vm_compute in E. discriminate E.
  - exists p.
    assert (H : In p (@Html.pushNode Toy.runtime MELALEUCA_ORIGIN item_list_node))
      by (rewrite E; left; reflexivity).
    split; [left; reflexivity|]. exact (@pushNode_items Toy.runtime MELALEUCA_ORIGIN item_list_node p H).
Defined.

Lemma parseProductsFromHTML_filter_noop_witness :
  (forall p, In p ((fun _ _ => [prodC]) "" MELALEUCA_ORIGIN) -> @Html.keep Toy.runtime p = true) /\
  @Html.parseProductsFromHTML Toy.runtime (blocks_markup [item_list_node]) true
    (fun _ _ => [prodC]) "" MELALEUCA_ORIGIN =
  option_map (@prioritizeProducts Toy.runtime)
    (Html.dedup [] (@Html.collect_items Toy.runtime (blocks_markup [item_list_node]) true
                      (fun _ _ => [prodC]) "" MELALEUCA_ORIGIN)).
Proof.
  assert (H : forall p, In p ((fun _ _ => [prodC]) "" MELALEUCA_ORIGIN) ->
              @Html.keep Toy.runtime p = true).
  { simpl. intros p [<-|[]]. vm_compute. reflexivity. }
  split; [exact H|].
  exact (@parseProductsFromHTML_filter_noop Toy.runtime (blocks_markup [item_list_node]) true
           (fun _ _ => [prodC]) "" MELALEUCA_ORIGIN H).
Defined.

Lemma parseProductsFromHTML_nonstring_name_throws_witness :
  @Html.parseProductsFromHTML Toy.runtime (blocks_markup [numeric_name_product]) true
    (fun _ _ => []) "" MELALEUCA_ORIGIN = None.
Proof.
  apply (@parseProductsFromHTML_nonstring_name_throws Toy.runtime
           (blocks_markup [numeric_name_product]) true (fun _ _ => []) "" MELALEUCA_ORIGIN
           numeric_name_product).
  - left. reflexivity.
  - vm_compute. reflexivity.
  - vm_compute. reflexivity.
  - vm_compute. reflexivity.
  - vm_compute. reflexivity.
  - vm_compute. reflexivity.
  - vm_compute. reflexivity.
  - intros s. vm_compute. discriminate.
  - vm_compute. reflexivity.
Defined.

